(** * SpecMint: deterministic generation and the validate/patch engine

    A shallow embedding of [pkg/generator/deterministic.go] (seed
    derivation, the value generator, the pattern synthesizer) and of the
    cross-field rule engine and patch engine of [pkg/validator], with the
    properties the specification states about them.

    Conventions.
    - Go's [int] and [int64] are 64-bit on every platform the Makefile
      builds for; they are integers of [Z] with the wrap-around written
      out ([wrap64]).
    - A Go [string] is a sequence of bytes: [string] of [Stdlib], whose
      characters are 8-bit.
    - [float64] is the primitive binary64 float of Rocq ([PrimFloat]).
    - A Go function that can panic or return an error returns an
      [outcome].
    - Library code the repository calls is modelled where it is small
      ([hash/fnv], [strings], [strconv.Atoi], the verbs of [fmt]); the
      generator of [math/rand], package [time] and
      [strconv.ParseFloat] are interfaces (type classes) the
      development is parametric in. *)

From Stdlib Require Import ZArith String Ascii List Lia Bool.
From Stdlib Require Import Numbers.DecimalString Numbers.DecimalFacts Numbers.DecimalPos.
From Stdlib Require Import Floats.PrimFloat Floats.SpecFloat Floats.FloatOps.
From Stdlib Require Import Numbers.Cyclic.Int63.Uint63.
From Stdlib Require Import Sorting.Permutation.
From stdpp Require Import gmap strings.

Set Warnings "-register-all,-inexact-float".

Import ListNotations.
Local Open Scope string_scope.
Local Open Scope Z_scope.

(** ** Machine integers *)

Definition minInt64 : Z := - 2 ^ 63.
Definition maxInt64 : Z := 2 ^ 63 - 1.

(** Two's complement wrap-around of 64-bit signed arithmetic. *)
Definition wrap64 (z : Z) : Z := (z + 2 ^ 63) mod 2 ^ 64 - 2 ^ 63.

Definition in_int64 (z : Z) : Prop := minInt64 <= z <= maxInt64.

(** The conversion [byte(x)] of an integer: its low eight bits. *)
Definition byte_of_int (z : Z) : Z := z mod 256.

(** ** Results of Go functions *)

Inductive outcome (A : Type) : Type :=
| Ok (a : A)
| Err (msg : string)
| Panic (msg : string).

Arguments Ok {A} a.
Arguments Err {A} msg.
Arguments Panic {A} msg.

Declare Scope outcome_scope.
Delimit Scope outcome_scope with outcome.
Local Open Scope outcome_scope.

(** ** Strings as byte sequences *)

Definition byte_of_ascii (c : ascii) : Z := Z.of_N (N_of_ascii c).

Definition ascii_of_byte (b : Z) : ascii := ascii_of_N (Z.to_N (b mod 256)).

Fixpoint bytes_of_string (s : string) : list Z :=
  match s with
  | EmptyString => []
  | String c s' => byte_of_ascii c :: bytes_of_string s'
  end.

Fixpoint string_of_chars (l : list ascii) : string :=
  match l with
  | [] => EmptyString
  | c :: l' => String c (string_of_chars l')
  end.

Definition strlen (s : string) : Z := Z.of_nat (String.length s).

(** [s[i]] for [0 <= i < len(s)]; the zero byte stands for an index out
    of range, which no caller below produces. *)
Definition char_at (s : string) (i : Z) : ascii :=
  match String.get (Z.to_nat i) s with
  | Some c => c
  | None => Ascii.zero
  end.

(** [strings.Repeat] of a single character. *)
Fixpoint repeat_char (c : ascii) (n : nat) : string :=
  match n with
  | O => EmptyString
  | S n' => String c (repeat_char c n')
  end.

(** ** package hash/fnv: the 64-bit FNV-1a hash of the Go library *)

Module fnv.

Definition offset64 : Z := 14695981039346656037.
Definition prime64 : Z := 1099511628211.

(** The state of a [sum64a] hash is its 64-bit unsigned value. *)
Definition sum64a : Type := Z.

Definition New64a : sum64a := offset64.

(** [Write] never returns an error: its second component is the pair
    of the byte count and the (absent) error, as in [io.Writer]. *)
Definition Write (h : sum64a) (data : list Z) : sum64a * (Z * option string) :=
  (fold_left (fun hash c => (Z.lxor hash c * prime64) mod 2 ^ 64) data h,
   (Z.of_nat (length data), None)).

Definition Sum64 (h : sum64a) : Z := h.

End fnv.

(** ** Seed derivation *)

(** [deriveSeed], with the receiver's [baseSeed] as first argument. *)
Definition deriveSeed (baseSeed : Z) (path : string) (recordIndex : Z) : Z :=
let h := fnv.New64a in
let '(h, (_, err)) := fnv.Write h (bytes_of_string path) in
match err with
| Some _ => 0
| None =>
  let '(h, (_, err)) :=
    fnv.Write h [ byte_of_int recordIndex;
                  byte_of_int (Z.shiftr recordIndex 8);
                  byte_of_int (Z.shiftr recordIndex 16);
                  byte_of_int (Z.shiftr recordIndex 24) ] in
  match err with
  | Some _ => 0
  | None =>
    let pathHash := Z.land (fnv.Sum64 h) 0x7FFFFFFFFFFFFFFF in
    Z.lxor baseSeed pathHash
  end
end.

(** The reference definition of the specification, written from its
  words: the FNV-1a hash of a byte sequence, the little-endian four
  byte encoding, the sign bit masked off, the exclusive or with the
  base seed. *)
Module SeedSpec.

Fixpoint fnv1a64_from (h : Z) (bs : list Z) : Z :=
  match bs with
  | [] => h
  | b :: bs' => fnv1a64_from ((Z.lxor h b * 1099511628211) mod 2 ^ 64) bs'
  end.

Definition fnv1a64 (bs : list Z) : Z := fnv1a64_from 14695981039346656037 bs.

(** Byte [k] of the little-endian encoding of [r] on four bytes. *)
Definition le_byte (r : Z) (k : Z) : Z := (r mod 2 ^ 32) / 2 ^ (8 * k) mod 2 ^ 8.

Definition le32 (r : Z) : list Z := [le_byte r 0; le_byte r 1; le_byte r 2; le_byte r 3].

Definition mask_sign (h : Z) : Z := h mod 2 ^ 63.

Definition deriveSeed_reference (baseSeed : Z) (path : string) (recordIndex : Z) : Z :=
  Z.lxor (mask_sign (fnv1a64 (bytes_of_string path ++ le32 recordIndex))) baseSeed.

End SeedSpec.

(** ** Conversions between integers and [float64] *)

(** [float64(n)] for [0 <= n < 2^63], rounded to nearest even. *)
Definition float64_of_nonneg (z : Z) : float := PrimFloat.of_uint63 (Uint63.of_Z z).

(** [float64(n)] for a 64-bit signed integer. *)
Definition float64_of_int (z : Z) : float :=
  if z =? minInt64 then (- 0x1p63)%float
  else if z <? 0 then (- float64_of_nonneg (- z))%float
  else float64_of_nonneg z.

(** The integral part of a finite float, [None] for NaN and infinities. *)
Definition float_trunc (f : float) : option Z :=
  match Prim2SF f with
  | S754_zero _ => Some 0
  | S754_finite s m e =>
    let a := if 0 <=? e then Z.pos m * 2 ^ e else Z.pos m / 2 ^ (- e) in
    Some (if s then - a else a)
  | S754_infinity _ => None
  | S754_nan => None
  end.

(** [int64(f)] and [int(f)]: truncation toward zero. For a value that
    does not fit, Go leaves the result to the implementation; the model
    takes that of amd64, the smallest integer. *)
Definition int64_of_float64 (f : float) : Z :=
  match float_trunc f with
  | Some z => if (minInt64 <=? z) && (z <=? maxInt64) then z else minInt64
  | None => minInt64
  end.

(** [math.Round]: the nearest integer, halves away from zero; zeros,
    infinities and NaN are returned unchanged. *)
Definition math_Round (x : float) : float :=
  match Prim2SF x with
  | S754_finite s m e =>
    if 0 <=? e then x
    else
      let q := (2 * Z.pos m + 2 ^ (- e)) / 2 ^ (1 - e) in
      if s then (- float64_of_nonneg q)%float else float64_of_nonneg q
  | _ => x
  end.

(** [int(math.Pow(10, float64(n)))]: the powers of ten up to [10^18] are
    exact in binary64 and fit an [int]; a negative exponent gives a value
    below one, truncated to zero; from [10^19] on the value does not fit
    (see [int64_of_float64]). *)
Definition pow10_int (n : Z) : Z :=
  if n <? 0 then 0
  else if n <=? 18 then 10 ^ n
  else minInt64.

(** [Duration.Hours] of package [time], on a duration in nanoseconds. *)
Definition duration_Hours (d : Z) : float :=
  let hour := Z.quot d 3600000000000 in
  let nsec := Z.rem d 3600000000000 in
  (float64_of_int hour + float64_of_int nsec / 3600000000000)%float.

(** ** Formatting of package [fmt] *)

(** [%d] *)
Definition itoa (z : Z) : string := NilEmpty.string_of_int (Z.to_int z).

(** [%0wd]: the sign counts in the width, the zeros follow it. *)
Definition pad0 (w : Z) (z : Z) : string :=
  let digits := itoa (Z.abs z) in
  if z <? 0
  then "-" ++ repeat_char "0" (Z.to_nat (w - 1 - strlen digits)) ++ digits
  else repeat_char "0" (Z.to_nat (w - strlen digits)) ++ digits.

Definition hex_digit (d : Z) : ascii := char_at "0123456789abcdef" d.

(** [%x] of a byte slice: two lower-case digits a byte. *)
Fixpoint hex_bytes (bs : list Z) : string :=
  match bs with
  | [] => EmptyString
  | b :: bs' => String (hex_digit (b / 16)) (String (hex_digit (b mod 16)) (hex_bytes bs'))
  end.

(** [%c] of a character below 128, and [string(c)]. *)
Definition str1 (c : ascii) : string := String c EmptyString.

(** The quotient of [n >= 0] by [d > 0] rounded to nearest, halves to
    even. *)
Definition round_half_even (n d : Z) : Z :=
  let q := n / d in
  let r := n mod d in
  if 2 * r <? d then q
  else if d <? 2 * r then q + 1
  else if Z.even q then q else q + 1.

(** [%f] (and [%.6f], its default precision) of a [float64]: the exact
    value rounded to six decimals, halves to even. *)
Definition fmt_f (f : float) : string :=
  match Prim2SF f with
  | S754_nan => "NaN"
  | S754_infinity s => if s then "-Inf" else "+Inf"
  | S754_zero s => (if s then "-" else "") ++ "0.000000"
  | S754_finite s m e =>
    let scaled :=
      if 0 <=? e then Z.pos m * 2 ^ e * 1000000
      else round_half_even (Z.pos m * 1000000) (2 ^ (- e)) in
    (if s then "-" else "") ++ itoa (scaled / 1000000) ++ "." ++ pad0 6 (scaled mod 1000000)
  end.

(** ** Package [strings] and [strconv.Atoi] *)

(** [strings.Contains(s, sub)] *)
Fixpoint Contains (s sub : string) : bool :=
  String.prefix sub s ||
  match s with
  | EmptyString => false
  | String _ s' => Contains s' sub
  end.

(** [strings.Index(s, sub)]: the first position of [sub], or -1. *)
Fixpoint Index_from (k : Z) (s sub : string) : Z :=
  if String.prefix sub s then k
  else match s with
       | EmptyString => -1
       | String _ s' => Index_from (k + 1) s' sub
       end.

Definition Index (s sub : string) : Z := Index_from 0 s sub.

(** [s[i:j]] for [0 <= i <= j <= len(s)]. *)
Definition slice (s : string) (i j : Z) : string :=
  String.substring (Z.to_nat i) (Z.to_nat (j - i)) s.

(** [strings.Split(s, sep)] for a separator that is not empty: the
    pieces between the occurrences of [sep], found from the left and not
    overlapping. [skip] counts the characters of an occurrence still to be
    passed over; [cur] is the piece read so far, reversed. *)
Fixpoint Split_aux (sep : string) (skip : nat) (cur : list ascii) (s : string) : list string :=
  match s with
  | EmptyString => [string_of_chars (rev cur)]
  | String c s' =>
    match skip with
    | S k => Split_aux sep k cur s'
    | O =>
      if String.prefix sep s
      then string_of_chars (rev cur) :: Split_aux sep (String.length sep - 1) [] s'
      else Split_aux sep O (c :: cur) s'
    end
  end.

Definition Split (s sep : string) : list string := Split_aux sep O [] s.

(** [strings.Join] *)
Fixpoint Join (l : list string) (sep : string) : string :=
  match l with
  | [] => EmptyString
  | [x] => x
  | x :: l' => x ++ sep ++ Join l' sep
  end.

(** The encodings in UTF-8 of the characters [unicode.IsSpace] accepts:
    the six ASCII ones, U+0085, U+00A0, U+1680, U+2000 to U+200A, U+2028,
    U+2029, U+202F, U+205F and U+3000. *)
Definition space_encodings : list (list Z) :=
  [ [9]; [10]; [11]; [12]; [13]; [32]; [194; 133]; [194; 160]; [225; 154; 128];
    [226; 128; 128]; [226; 128; 129]; [226; 128; 130]; [226; 128; 131];
    [226; 128; 132]; [226; 128; 133]; [226; 128; 134]; [226; 128; 135];
    [226; 128; 136]; [226; 128; 137]; [226; 128; 138]; [226; 128; 168];
    [226; 128; 169]; [226; 128; 175]; [226; 129; 159]; [227; 128; 128] ].

Fixpoint strip_prefix (p l : list ascii) : option (list ascii) :=
  match p, l with
  | [], _ => Some l
  | a :: p', b :: l' => if Ascii.eqb a b then strip_prefix p' l' else None
  | _ :: _, [] => None
  end.

(** One space removed from the front of [l], if it starts with one. *)
Definition strip_space (encs : list (list ascii)) (l : list ascii) : option (list ascii) :=
  fold_right (fun enc acc => match strip_prefix enc l with Some l' => Some l' | None => acc end)
             None encs.

Fixpoint trim_left (fuel : nat) (encs : list (list ascii)) (l : list ascii) : list ascii :=
  match fuel with
  | O => l
  | S fuel' =>
    match strip_space encs l with
    | Some l' => trim_left fuel' encs l'
    | None => l
    end
  end.

(** [strings.TrimSpace]: spaces removed at both ends. Removing one space
    shortens the text, so its length is fuel enough. *)
Definition TrimSpace (s : string) : string :=
  let encs := map (map ascii_of_byte) space_encodings in
  let l := list_ascii_of_string s in
  let l1 := trim_left (length l) encs l in
  let l2 := trim_left (length l1) (map (@rev ascii) encs) (rev l1) in
  string_of_chars (rev l2).

Definition is_digit (c : ascii) : bool :=
  let b := byte_of_ascii c in (48 <=? b) && (b <=? 57).

Fixpoint digits_value (acc : Z) (s : string) : option Z :=
  match s with
  | EmptyString => Some acc
  | String c s' =>
    if is_digit c then digits_value (10 * acc + (byte_of_ascii c - 48)) s' else None
  end.

(** [strconv.Atoi]: an optional sign and decimal digits, within [int];
    [None] stands for the error. *)
Definition Atoi (s : string) : option Z :=
  let signed (neg : bool) (ds : string) :=
    match ds with
    | EmptyString => None
    | _ =>
      match digits_value 0 ds with
      | Some v =>
        let n := if neg then - v else v in
        if (minInt64 <=? n) && (n <=? maxInt64) then Some n else None
      | None => None
      end
    end in
  match s with
  | String "-" ds => signed true ds
  | String "+" ds => signed false ds
  | _ => signed false s
  end.

(** ** Comparison of [float64] values

    The operators of Go on floats are those of IEEE 754: every one of
    them is false when an operand is NaN. *)

Definition f64_lt (x y : float) : bool :=
  match PrimFloat.compare x y with FLt => true | _ => false end.

Definition f64_le (x y : float) : bool :=
  match PrimFloat.compare x y with FLt | FEq => true | _ => false end.

Definition f64_gt (x y : float) : bool :=
  match PrimFloat.compare x y with FGt => true | _ => false end.

Definition f64_ge (x y : float) : bool :=
  match PrimFloat.compare x y with FGt | FEq => true | _ => false end.

Definition f64_eq (x y : float) : bool :=
  match PrimFloat.compare x y with FEq => true | _ => false end.

(** Neither operand is NaN. *)
Definition f64_comparable (x y : float) : bool :=
  match PrimFloat.compare x y with FNotComparable => false | _ => true end.

(** ** Values of type [interface{}]

    The dynamic types the generator produces, JSON decoding produces and
    the rule engine inspects. *)

Inductive Value : Type :=
| VNil
| VBool (b : bool)
| VFloat64 (f : float)
| VInt (n : Z)
| VInt64 (n : Z)
| VString (s : string)
| VSlice (l : list Value)
| VMap (m : gmap string Value).

(** A record, [map[string]interface{}], is a [gmap string Value]. *)

(** ** package schema

    The structs of [pkg/schema/parser.go], their fields under the names
    of the source where Rocq allows it: [Type] is a keyword ([Type_]),
    and a field name can serve in one record only ([PatchValue] for the
    [Value] of a patch, [NodeDescription] for the [Description] of a
    node). *)

Record PatchRule : Type := mkPatchRule {
  Strategy : string;
  Target : string;
  PatchValue : Value;
  Params : gmap string Value }.

(** Modelled from the spec: the field [Constraint] (the
    [constraintExpression] of a comparison rule), which
    [validateCrossFieldRule] reads as [rule.Constraint] and the
    declaration of the struct in [parser.go] does not have. The other
    fields are those of the declaration. *)
Record CrossFieldRule : Type := mkCrossFieldRule {
  Name : string;
  Description : string;
  Fields : list string;
  Rule : string;
  Constraint : string;
  Severity : string;
  Patch : option PatchRule }.

(** [SchemaNode]; a pointer field that may be nil is an [option], and so
    is the map of properties, which is nil unless the parser found some. *)
Inductive SchemaNode : Type := mkSchemaNode {
  Type_ : string;
  Properties : option (gmap string SchemaNode);
  Items : option SchemaNode;
  Required : list string;
  Enum : list Value;
  Examples : list Value;
  Format : string;
  Pattern : string;
  MinLength : option Z;
  MaxLength : option Z;
  Minimum : option float;
  Maximum : option float;
  MinItems : option Z;
  MaxItems : option Z;
  MultipleOf : option float;
  NodeDescription : string;
  LLMEnhanced : bool;
  CrossFieldRules : list CrossFieldRule;
  Path : string;
  IsRequired : bool;
  OptionalProb : float }.

(** ** The libraries the generator calls *)

(** Package [math/rand]: a generator made by [rand.New(rand.NewSource(seed))]
    and the methods the repository calls, on arguments for which they do
    not panic, with the ranges their documentation gives. The state of
    the generator is passed explicitly. *)
Class MathRand : Type := {
  Rand : Type;
  NewRand : Z -> Rand;
  rand_Int63n : Z -> Rand -> Z * Rand;
  rand_Intn : Z -> Rand -> Z * Rand;
  rand_Float64 : Rand -> float * Rand;
  rand_Float32 : Rand -> float * Rand;
  rand_Read : Z -> Rand -> list Z * Rand;
  rand_Int63n_range : forall n r, 0 < n -> 0 <= fst (rand_Int63n n r) < n;
  rand_Intn_range : forall n r, 0 < n -> 0 <= fst (rand_Intn n r) < n;
  rand_Float64_range : forall r,
    f64_le 0 (fst (rand_Float64 r)) = true /\ f64_lt (fst (rand_Float64 r)) 1 = true;
  rand_Float32_range : forall r,
    f64_le 0 (fst (rand_Float32 r)) = true /\ f64_lt (fst (rand_Float32 r)) 1 = true;
  rand_Read_length : forall n r, 0 <= n -> Z.of_nat (length (fst (rand_Read n r))) = n;
  rand_Read_bytes : forall n r, Forall (fun b => 0 <= b < 256) (fst (rand_Read n r)) }.

(** Package [time]: the operations on instants the date generators use.
    A duration is a number of nanoseconds. *)
Class GoTime : Type := {
  Time : Type;
  time_AddDate : Z -> Z -> Z -> Time -> Time;
  time_Sub : Time -> Time -> Z;
  time_Add : Z -> Time -> Time;
  time_Format : string -> Time -> string }.

(** What the Go runtime chooses during a call, and the program does not:
    the order in which a [range] statement visits the keys of a map (the
    language leaves it unspecified, and the runtime varies it from one
    loop to the next), and the reading of the wall clock. [rangeOrder]
    is applied to the keys of the map in some fixed order; it is a
    possible choice of the runtime when it permutes them ([range_valid]). *)
Record Runtime `{GoTime} : Type := mkRuntime {
  rangeOrder : list string -> list string;
  clockNow : Time }.

Definition range_valid (order : list string -> list string) : Prop :=
  forall keys, Permutation (order keys) keys.

(** ** Computations that draw from a random generator

    A [*rand.Rand] is a mutable object the generator functions pass
    along; the model passes its state. *)

Definition G `{MathRand} (A : Type) : Type := Rand -> outcome (A * Rand).

Definition ret `{MathRand} {A : Type} (a : A) : G A := fun r => Ok (a, r).

Definition gbind `{MathRand} {A B : Type} (m : G A) (k : A -> G B) : G B :=
  fun r =>
    match m r with
    | Ok (a, r') => k a r'
    | Err e => Err e
    | Panic p => Panic p
    end.

Notation "x <- m ;; k" := (gbind m (fun x => k))
  (at level 100, m at next level, right associativity) : outcome_scope.

Definition gpanic `{MathRand} {A : Type} (msg : string) : G A := fun _ => Panic msg.

(** The value of a computation run on a generator of its own. *)
Definition run_fresh `{MathRand} {A : Type} (m : G A) (r : Rand) : outcome A :=
  match m r with
  | Ok (a, _) => Ok a
  | Err e => Err e
  | Panic p => Panic p
  end.

(** [fmt.Errorf("...: %w", err)] around a computation. *)
Definition wrap_error `{MathRand} {A : Type} (prefix : string) (m : G A) : G A :=
  fun r =>
    match m r with
    | Err e => Err (prefix ++ ": " ++ e)
    | other => other
    end.

(** [m] run [n] times, the results in order. *)
Fixpoint repeatG `{MathRand} {A : Type} (n : nat) (m : G A) : G (list A) :=
  match n with
  | O => ret []
  | S n' => x <- m ;; xs <- repeatG n' m ;; ret (x :: xs)
  end.

(** A loop over a slice with an accumulator. *)
Fixpoint foldG `{MathRand} {A B : Type} (f : A -> B -> G A) (l : list B) (a : A) : G A :=
  match l with
  | [] => ret a
  | b :: l' => a' <- f a b ;; foldG f l' a'
  end.

(** [r.Intn(n)], which panics unless [0 < n]. *)
Definition Intn `{MathRand} (n : Z) : G Z :=
  fun r => if n <=? 0 then Panic "invalid argument to Intn" else Ok (rand_Intn n r).

(** [r.Int63n(n)], which panics unless [0 < n]. *)
Definition Int63n `{MathRand} (n : Z) : G Z :=
  fun r => if n <=? 0 then Panic "invalid argument to Int63n" else Ok (rand_Int63n n r).

Definition Float64 `{MathRand} : G float := fun r => Ok (rand_Float64 r).

Definition Float32 `{MathRand} : G float := fun r => Ok (rand_Float32 r).

(** [r.Read(b)] on a slice of [n] bytes; it never returns an error. *)
Definition Read `{MathRand} (n : Z) : G (list Z) := fun r => Ok (rand_Read n r).

(** [make([]T, n)] panics on a negative length and on one beyond the
    largest allocation ([2^48] bytes on the 64-bit targets); [size] is
    the size of an element. Exhausting the memory below that bound is
    outside the model. *)
Definition make_check `{MathRand} (size : Z) (n : Z) : G unit :=
  if (n <? 0) || (2 ^ 48 / size <? n)
  then gpanic "makeslice: len out of range"
  else ret tt.

(** ** package generator: the deterministic generator *)

Section Generator.

Context `{MathRand} `{GoTime}.

Record DeterministicGenerator : Type := mkDeterministicGenerator {
  baseSeed : Z;
  rng : Rand }.

Definition NewDeterministicGenerator (seed : Z) : DeterministicGenerator :=
  {| baseSeed := seed; rng := NewRand seed |}.

(** [charset[rng.Intn(len(charset))]] *)
Definition pick (charset : string) : G ascii :=
  i <- Intn (strlen charset) ;; ret (char_at charset i).

(** [rune('0' + rng.Intn(10))] *)
Definition digit_rune : G ascii :=
  d <- Intn 10 ;; ret (ascii_of_byte (48 + d)).

(** [fmt.Sprintf("%0wd", rng.Intn(n))] *)
Definition padded (w n : Z) : G string :=
  v <- Intn n ;; ret (pad0 w v).

(** A slice of [n] characters, each drawn from [charset]. *)
Definition pick_many (charset : string) (n : Z) : G string :=
  cs <- repeatG (Z.to_nat n) (pick charset) ;; ret (string_of_chars cs).

Definition generateRandomString (length : Z) : G string :=
  let charset := "abcdefghijklmnopqrstuvwxyzABCDEFGHIJKLMNOPQRSTUVWXYZ0123456789" in
  _ <- make_check 1 length ;;
  pick_many charset length.

Definition generateMixedPattern (pattern : string) : G string :=
  generateRandomString 8.

Definition extractNumericLength (pattern : string) : Z :=
  if Contains pattern "{" && Contains pattern "}" then
    let start := Index pattern "{" + 1 in
    let end_ := Index pattern "}" in
    if start <? end_ then
      match Atoi (slice pattern start end_) with
      | Some length => length
      | None => 6
      end
    else 6
  else 6.

Definition upper_letters : string := "ABCDEFGHIJKLMNOPQRSTUVWXYZ".
Definition upper_alnum : string := "ABCDEFGHIJKLMNOPQRSTUVWXYZ0123456789".
Definition digit_upper : string := "0123456789ABCDEFGHIJKLMNOPQRSTUVWXYZ".

(** [length := lo + rng.Intn(k)], then so many characters of [charset]. *)
Definition alnum_range (charset : string) (lo k : Z) : G string :=
  n <- Intn k ;;
  pick_many charset (lo + n).

(** The cases of the [switch] of [generateFromPattern], in its order: the
    pattern of a case and what the case returns. *)
Definition patternTable : list (string * G string) :=
  [ ("^[A-Z]{2}[0-9]{6}$",
      a <- pick upper_letters ;; b <- pick upper_letters ;;
      ds <- repeatG 6 digit_rune ;;
      ret (string_of_chars (a :: b :: ds)));
    ("^PRD[0-9]{8}$", s <- padded 8 100000000 ;; ret ("PRD" ++ s));
    ("^PRD-[0-9]{6}$", s <- padded 6 1000000 ;; ret ("PRD-" ++ s));
    ("^WH[0-9]{3}$", s <- padded 3 1000 ;; ret ("WH" ++ s));
    ("^SUP[0-9]{5}$", s <- padded 5 100000 ;; ret ("SUP" ++ s));
    ("^TXN-[0-9]{10}$", s <- padded 10 1000000000 ;; ret ("TXN-" ++ s));
    ("^[0-9]{10}$", padded 10 1000000000);
    ("^[0-9]{9}$", padded 9 1000000000);
    ("^[0-9]{4}$", padded 4 10000);
    ("^[0-9]{5}$", padded 5 100000);
    ("^[A-Z][0-9]{2}\.[0-9]{1,2}$",
      letter <- pick upper_letters ;;
      first <- padded 2 100 ;; second <- padded 2 100 ;;
      ret (str1 letter ++ first ++ "." ++ second));
    ("^[A-Z]{2}-[A-Z]{3}-[0-9]{3}$",
      a <- pick upper_letters ;; b <- pick upper_letters ;;
      c <- pick upper_letters ;; d <- pick upper_letters ;; e <- pick upper_letters ;;
      x <- digit_rune ;; y <- digit_rune ;; z <- digit_rune ;;
      ret (string_of_chars [a; b; "-"%char; c; d; e; "-"%char; x; y; z]));
    ("^PO[0-9]{8}$", s <- padded 8 100000000 ;; ret ("PO" ++ s));
    ("^[A-Z0-9]{2,15}$", alnum_range upper_alnum 2 14);
    ("^[A-Z0-9]{6,20}$", alnum_range upper_alnum 6 15);
    ("^MPN[A-Z0-9]{8,15}$", s <- alnum_range upper_alnum 8 8 ;; ret ("MPN" ++ s));
    ("^[A-Z]{2}$",
      a <- pick upper_letters ;; b <- pick upper_letters ;;
      ret (string_of_chars [a; b]));
    ("^[0-9]{5}(-[0-9]{4})?$",
      zip5 <- padded 5 100000 ;;
      f <- Float32 ;;
      if f64_lt f 0x1.333334p-2
      then zip4 <- padded 4 10000 ;; ret (zip5 ++ "-" ++ zip4)
      else ret zip5);
    ("^RX[0-9]{8}$", s <- padded 8 100000000 ;; ret ("RX" ++ s));
    ("^[0-9]{5}-[0-9]{4}-[0-9]{2}$",
      a <- padded 5 100000 ;; b <- padded 4 10000 ;; c <- padded 2 100 ;;
      ret (a ++ "-" ++ b ++ "-" ++ c));
    ("^[A-Z]{2}[0-9]{7}$",
      a <- pick upper_letters ;; b <- pick upper_letters ;;
      s <- padded 7 10000000 ;;
      ret (str1 a ++ str1 b ++ s));
    ("^PA[0-9]{8}$", s <- padded 8 100000000 ;; ret ("PA" ++ s));
    ("^INS[0-9]{6}$", s <- padded 6 1000000 ;; ret ("INS" ++ s));
    ("^CLM[0-9]{10}$", s <- padded 10 10000000000 ;; ret ("CLM" ++ s));
    ("^[A-Z0-9]{8,15}$", alnum_range upper_alnum 8 8);
    ("^[0-9]{2}-[0-9]{7}$",
      a <- padded 2 100 ;; b <- padded 7 10000000 ;; ret (a ++ "-" ++ b));
    ("^[A-Z0-9]{5,10}$", alnum_range upper_alnum 5 6);
    ("^[A-Z][0-9]{2}\.[0-9A-Z]{1,4}$",
      suffix <- alnum_range digit_upper 1 4 ;;
      l <- pick upper_letters ;;
      d1 <- pick "0123456789" ;; d2 <- pick "0123456789" ;;
      ret (string_of_chars [l; d1; d2; "."%char] ++ suffix));
    ("^[A-Z0-9]{6,12}$", alnum_range upper_alnum 6 7);
    ("^[0-9]{6}$", padded 6 1000000);
    ("^[A-Z0-9]{3,10}$", alnum_range upper_alnum 3 8) ].

(** The case of the [switch] a pattern selects, if any. *)
Definition lookupPattern (pattern : string) : option (G string) :=
  match List.find (fun entry => String.eqb (fst entry) pattern) patternTable with
  | Some entry => Some (snd entry)
  | None => None
  end.

Definition generateFromPattern (pattern : string) : G string :=
  match lookupPattern pattern with
  | Some gen => gen
  | None =>
    if Contains pattern "[0-9]" && Contains pattern "[A-Z]" then
      generateMixedPattern pattern
    else if Contains pattern "[0-9]" then
      let length := extractNumericLength pattern in
      v <- Intn (pow10_int length) ;;
      ret (pad0 length v)
    else if Contains pattern "[a-zA-Z]" || Contains pattern "[A-Z]" then
      generateRandomString 8
    else
      generateRandomString 10
  end.

(** *** The generators of formatted strings *)

(** [names[rng.Intn(len(names))]] on a slice of strings. *)
Definition choose (l : list string) : G string :=
  i <- Intn (Z.of_nat (length l)) ;; ret (nth (Z.to_nat i) l EmptyString).

Definition generateEmail : G string :=
  let domains := ["example.com"; "test.org"; "sample.net"; "demo.co"] in
  let names := ["user"; "test"; "demo"; "sample"; "john"; "jane"; "admin"] in
  name <- choose names ;;
  domain <- choose domains ;;
  suffix <- Intn 1000 ;;
  ret (name ++ itoa suffix ++ "@" ++ domain).

Definition generateUUID : G string :=
  b <- Read 16 ;;
  let b := <[6%nat := Z.lor (Z.land (nth 6 b 0) 0x0f) 0x40]> b in
  let b := <[8%nat := Z.lor (Z.land (nth 8 b 0) 0x3f) 0x80]> b in
  let part (i j : nat) := hex_bytes (firstn (j - i) (skipn i b)) in
  ret (part 0%nat 4%nat ++ "-" ++ part 4%nat 6%nat ++ "-" ++ part 6%nat 8%nat ++ "-"
       ++ part 8%nat 10%nat ++ "-" ++ part 10%nat 16%nat).

Definition generateDate (now : Time) : G string :=
  let start := time_AddDate (-5) 0 0 now in
  let days := int64_of_float64 (duration_Hours (time_Sub now start) / 24)%float in
  randomDays <- Intn days ;;
  let date := time_AddDate 0 0 randomDays start in
  ret (time_Format "2006-01-02" date).

Definition generateDateTime (now : Time) : G string :=
  let start := time_AddDate (-1) 0 0 now in
  let duration := time_Sub now start in
  randomDuration <- Int63n duration ;;
  let dateTime := time_Add randomDuration start in
  ret (time_Format "2006-01-02T15:04:05Z07:00" dateTime).

Definition generateURI : G string :=
  let schemes := ["http"; "https"] in
  let hosts := ["example.com"; "test.org"; "api.sample.net"] in
  let paths := ["/api/v1"; "/data"; "/users"; "/items"] in
  scheme <- choose schemes ;;
  host <- choose hosts ;;
  path <- choose paths ;;
  id <- Intn 10000 ;;
  ret (scheme ++ "://" ++ host ++ path ++ "/" ++ itoa id).

Definition generatePhone : G string :=
  a <- Intn 800 ;;
  e <- Intn 800 ;;
  number <- Intn 10000 ;;
  let area := 200 + a in
  let exchange := 200 + e in
  ret ("(" ++ pad0 3 area ++ ") " ++ pad0 3 exchange ++ "-" ++ pad0 4 number).

(** *** The generators by type *)

Definition generateString (rt : Runtime) (node : SchemaNode) : G string :=
  if String.eqb (Format node) "email" then generateEmail
  else if String.eqb (Format node) "uuid" then generateUUID
  else if String.eqb (Format node) "date" then generateDate (clockNow rt)
  else if String.eqb (Format node) "date-time" then generateDateTime (clockNow rt)
  else if String.eqb (Format node) "uri" then generateURI
  else if String.eqb (Format node) "phone" then generatePhone
  else if negb (String.eqb (Pattern node) "") then generateFromPattern (Pattern node)
  else
    let minLen := match MinLength node with Some m => m | None => 5 end in
    let maxLen :=
      match MaxLength node with
      | Some m => if m <? minLen then minLen else m
      | None => 20
      end in
    n <- Intn (wrap64 (wrap64 (maxLen - minLen) + 1)) ;;
    let length := wrap64 (minLen + n) in
    generateRandomString length.

Definition generateInteger (node : SchemaNode) : G Z :=
  let min := match Minimum node with Some m => int64_of_float64 m | None => 0 end in
  let max := match Maximum node with Some m => int64_of_float64 m | None => 1000 end in
  let max := if max <? min then min else max in
  n <- Int63n (wrap64 (wrap64 (max - min) + 1)) ;;
  let value := wrap64 (min + n) in
  match MultipleOf node with
  | Some m =>
    let multiple := int64_of_float64 m in
    if 0 <? multiple
    then ret (wrap64 (Z.quot value multiple * multiple))
    else ret value
  | None => ret value
  end.

(** [generateNumber]. Each operation is rounded on its own, as the
    compiler for amd64 does; Go allows an implementation to fuse
    [x*y + z], and the compiler for arm64 does. *)
Definition generateNumber (node : SchemaNode) : G float :=
  let min := match Minimum node with Some m => m | None => 0%float end in
  let max := match Maximum node with Some m => m | None => 1000%float end in
  let max := if f64_lt max min then min else max in
  f <- Float64 ;;
  let value := (min + f * (max - min))%float in
  match MultipleOf node with
  | Some m =>
    if f64_gt m 0
    then ret (math_Round (value / m) * m)%float
    else ret value
  | None => ret value
  end.

(** The loop of [generateArray]: the items at the positions [todo], in
    order, up to the first failure. *)
Fixpoint collect_items (item : nat -> outcome Value) (todo : list nat) : outcome (list Value) :=
  match todo with
  | [] => Ok []
  | i :: todo' =>
    match item i with
    | Ok v =>
      match collect_items item todo' with
      | Ok vs => Ok (v :: vs)
      | Err e => Err e
      | Panic p => Panic p
      end
    | Err e => Err e
    | Panic p => Panic p
    end
  end.

(** The body of that loop: the item at position [i], generated on a
    generator of its own, seeded from the path of the node, the
    position and the record index 0. *)
Definition generate_item_at (g : DeterministicGenerator) (node : SchemaNode)
    (generateItem : G Value) (i : nat) : outcome Value :=
  let itemSeed := deriveSeed (baseSeed g) (Path node ++ "[" ++ itoa (Z.of_nat i) ++ "]") 0 in
  let itemRng := NewRand itemSeed in
  match run_fresh generateItem itemRng with
  | Err e => Err ("failed to generate array item " ++ itoa (Z.of_nat i) ++ ": " ++ e)
  | other => other
  end.

(** [generateArray], given the generator of the items ([None] when the
    node has no item schema). *)
Definition generateArray_with (g : DeterministicGenerator) (node : SchemaNode)
    (items : option (G Value)) : G (list Value) :=
  match items with
  | None => ret []
  | Some generateItem =>
    let minItems := match MinItems node with Some m => m | None => 1 end in
    let maxItems :=
      match MaxItems node with
      | Some m => if m <? minItems then minItems else m
      | None => 5
      end in
    n <- Intn (wrap64 (wrap64 (maxItems - minItems) + 1)) ;;
    let length := wrap64 (minItems + n) in
    _ <- make_check 16 length ;;
    fun r =>
      match collect_items (generate_item_at g node generateItem) (seq 0 (Z.to_nat length)) with
      | Ok vs => Ok (vs, r)
      | Err e => Err e
      | Panic p => Panic p
      end
  end.

(** [generateObject], given for each property its inclusion probability
    and its generator ([None] when the map of properties is nil). The
    required properties come first, in the order of [Required]; then the
    [range] over the map visits the properties in the order the runtime
    chooses, and draws for each one that is not required. *)
Definition generateObject_with (rt : Runtime) (node : SchemaNode)
    (props : option (gmap string (float * G Value))) : G (gmap string Value) :=
  let result : gmap string Value := ∅ in
  match props with
  | None => ret result
  | Some properties =>
    result <-
      foldG (fun (result : gmap string Value) propName =>
               match properties !! propName with
               | Some (_, generateProp) =>
                 value <- wrap_error ("failed to generate required property " ++ propName)
                                     generateProp ;;
                 ret (<[propName := value]> result)
               | None => ret result
               end)
            (Required node) result ;;
    let requiredMap : gset string := list_to_set (Required node) in
    foldG (fun (result : gmap string Value) propName =>
             match properties !! propName with
             | Some (optionalProb, generateProp) =>
               if bool_decide (propName ∈ requiredMap) then ret result
               else
                 f <- Float64 ;;
                 if f64_lt f optionalProb then
                   value <- wrap_error ("failed to generate optional property " ++ propName)
                                       generateProp ;;
                   ret (<[propName := value]> result)
                 else ret result
             | None => ret result
             end)
          (rangeOrder rt (map fst (map_to_list properties))) result
  end.

Definition len {A : Type} (l : list A) : Z := Z.of_nat (length l).

(** [generateValue]: enum first, then examples with probability 0.7,
    then the type of the node. *)
Fixpoint generateValue (g : DeterministicGenerator) (rt : Runtime) (node : SchemaNode)
    {struct node} : G Value :=
  let by_type : G Value :=
    let as_string := s <- generateString rt node ;; ret (VString s) in
    if String.eqb (Type_ node) "string" then as_string
    else if String.eqb (Type_ node) "integer" then
      n <- generateInteger node ;; ret (VInt64 n)
    else if String.eqb (Type_ node) "number" then
      f <- generateNumber node ;; ret (VFloat64 f)
    else if String.eqb (Type_ node) "boolean" then
      f <- Float64 ;; ret (VBool (f64_lt f 0.5))
    else if String.eqb (Type_ node) "array" then
      l <- generateArray_with g node
             (match Items node with
              | Some items => Some (generateValue g rt items)
              | None => None
              end) ;;
      ret (VSlice l)
    else if String.eqb (Type_ node) "object" then
      m <- generateObject_with rt node
             (match Properties node with
              | Some properties =>
                Some ((fun prop => (OptionalProb prop, generateValue g rt prop)) <$> properties)
              | None => None
              end) ;;
      ret (VMap m)
    else if String.eqb (Type_ node) "null" then ret VNil
    else as_string in
  if 0 <? len (Enum node) then
    idx <- Intn (len (Enum node)) ;;
    ret (nth (Z.to_nat idx) (Enum node) VNil)
  else if 0 <? len (Examples node) then
    f <- Float64 ;;
    if f64_lt f 0.7 then
      idx <- Intn (len (Examples node)) ;;
      ret (nth (Z.to_nat idx) (Examples node) VNil)
    else by_type
  else by_type.

Definition generateArray (g : DeterministicGenerator) (rt : Runtime) (node : SchemaNode)
    : G (list Value) :=
  generateArray_with g node
    (match Items node with
     | Some items => Some (generateValue g rt items)
     | None => None
     end).

Definition generateObject (g : DeterministicGenerator) (rt : Runtime) (node : SchemaNode)
    : G (gmap string Value) :=
  generateObject_with rt node
    (match Properties node with
     | Some properties =>
       Some ((fun prop => (OptionalProb prop, generateValue g rt prop)) <$> properties)
     | None => None
     end).

(** [GenerateValue]: a generator seeded for the path of the node and the
    record index. *)
Definition GenerateValue (g : DeterministicGenerator) (rt : Runtime) (node : SchemaNode)
    (recordIndex : Z) : outcome Value :=
  let seed := deriveSeed (baseSeed g) (Path node) recordIndex in
  let rng := NewRand seed in
  run_fresh (generateValue g rt node) rng.

End Generator.

(** ** package validator: the rule engine and the patch engine *)

(** [strconv.ParseFloat(s, 64)], [None] for an error. *)
Class Strconv : Type := {
  ParseFloat : string -> option float }.

(** The records the engine works on are Go maps, which are references:
    a heap holds the map each reference designates. The values inside a
    record are never modified in place by the engine (a patch assigns or
    deletes a key of the record), so they are plain values. *)
Abbreviation loc := positive.
Abbreviation Heap := (gmap positive (gmap string Value)).

Definition heap_get (h : Heap) (l : loc) : gmap string Value :=
  match h !! l with
  | Some m => m
  | None => ∅
  end.

Definition heap_update (h : Heap) (l : loc) (f : gmap string Value -> gmap string Value) : Heap :=
  <[l := f (heap_get h l)]> h.

(** [make(map[string]interface{})]: a reference the heap does not hold. *)
Definition heap_alloc (h : Heap) : loc * Heap :=
  let l := fresh (dom h) in (l, <[l := ∅]> h).

Section Validator.

Context `{Strconv}.

(** A [Validator]; its parser validates nothing ([Parser.Validate]
    returns nil on every input), only the rules matter. *)
Record Validator : Type := mkValidator {
  rules : list CrossFieldRule }.

Definition parser_Validate (data : gmap string Value) : option string := None.

Definition getNumericValue (data : gmap string Value) (field : string) : float :=
  match data !! field with
  | Some (VFloat64 v) => v
  | Some (VInt v) => float64_of_int v
  | Some (VInt64 v) => float64_of_int v
  | Some (VString v) =>
    match ParseFloat v with
    | Some f => f
    | None => 0%float
    end
  | _ => 0%float
  end.

(** [isTruthy]. [reflect.Value.IsZero] on a float compares it with zero
    (since Go 1.22; before, it compared the bits, and the negative zero
    was not zero). *)
Definition isTruthy (val : Value) : bool :=
  match val with
  | VNil => false
  | VBool v => v
  | VString v => negb (String.eqb v "")
  | VInt v => negb (v =? 0)
  | VInt64 v => negb (v =? 0)
  | VFloat64 v => negb (f64_eq v 0)
  | _ => true
  end.

Definition ruleViolated (errors : list string) (ruleName : string) : bool :=
  existsb (fun err => Contains err ("rule '" ++ ruleName ++ "'")) errors.

Definition abs (x : float) : float :=
  if f64_lt x 0 then (- x)%float else x.

(** The comparison of strings of Go: that of their bytes. *)
Definition string_gt (a b : string) : bool :=
  match String.compare a b with Gt => true | _ => false end.

(** The first pair of neighbours out of order, with its position. *)
Fixpoint first_disorder (i : nat) (dates : list string) : option (nat * string * string) :=
  match dates with
  | a :: ((b :: _) as rest) =>
    if string_gt a b then Some (i, a, b) else first_disorder (S i) rest
  | _ => None
  end.

(** The loop that reads the dates: the zero value (the empty string) for
    a field the record does not hold, an error for one that is not a
    string. *)
Fixpoint read_dates (data : gmap string Value) (fields : list string) : string + list string :=
  match fields with
  | [] => inr []
  | field :: fields' =>
    let continue (d : string) :=
      match read_dates data fields' with
      | inl e => inl e
      | inr ds => inr (d :: ds)
      end in
    match data !! field with
    | Some (VString dateStr) => continue dateStr
    | Some _ => inl ("field " ++ field ++ " is not a string date")
    | None => continue ""
    end
  end.

Definition validateDateOrdering (data : gmap string Value) (fields : list string) : option string :=
  if len fields <? 2 then Some "date_ordering requires at least 2 fields"
  else
    match read_dates data fields with
    | inl e => Some e
    | inr dates =>
      match first_disorder 1 dates with
      | Some (i, a, b) =>
        Some ("date ordering violation: " ++ nth (i - 1) fields "" ++ " (" ++ a
              ++ ") should be <= " ++ nth i fields "" ++ " (" ++ b ++ ")")
      | None => None
      end
    end.

Definition validateAmountRange (data : gmap string Value) (fields : list string) : option string :=
  match fields with
  | [f0; f1; f2] =>
    let amount := getNumericValue data f0 in
    let min := getNumericValue data f1 in
    let max := getNumericValue data f2 in
    if f64_lt amount min || f64_gt amount max
    then Some ("amount " ++ fmt_f amount ++ " is outside range [" ++ fmt_f min ++ ", "
               ++ fmt_f max ++ "]")
    else None
  | _ => Some "amount_range requires exactly 3 fields: amount, min, max"
  end.

Definition validateConditionalRequired (data : gmap string Value) (fields : list string)
    : option string :=
  match fields with
  | [conditionField; requiredField] =>
    match data !! conditionField with
    | Some condVal =>
      if isTruthy condVal then
        match data !! requiredField with
        | Some _ => None
        | None =>
          Some ("field " ++ requiredField ++ " is required when " ++ conditionField
                ++ " is present")
        end
      else None
    | None => None
    end
  | _ => Some "conditional_required requires exactly 2 fields: condition, required"
  end.

Definition validateMutualExclusion (data : gmap string Value) (fields : list string)
    : option string :=
  let presentFields :=
    List.filter (fun field => match data !! field with Some _ => true | None => false end)
                fields in
  let presentCount := len presentFields in
  if 1 <? presentCount
  then Some ("mutually exclusive fields present: " ++ Join presentFields ", ")
  else None.

Definition validateSumConstraint (data : gmap string Value) (fields : list string)
    : option string :=
  if len fields <? 3
  then Some "sum_constraint requires at least 3 fields: field1, field2, ..., target_sum"
  else
    let targetField := nth (length fields - 1) fields "" in
    let sumFields := firstn (length fields - 1) fields in
    let sum :=
      fold_left (fun sum field => (sum + getNumericValue data field)%float) sumFields 0%float in
    let target := getNumericValue data targetField in
    let tolerance := 0.01%float in
    if f64_gt (abs (sum - target)) tolerance
    then Some ("sum constraint violation: sum of " ++ Join sumFields "+" ++ " = " ++ fmt_f sum
               ++ ", expected " ++ fmt_f target)
    else None.

(** A side of the form [left op right]: the value [f] gives of the two
    fields, when [op] occurs in the side and splits it in two parts. *)
Definition binary_on (data : gmap string Value) (expr op : string)
    (f : float -> float -> float) : option float :=
  if Contains expr op then
    match Split expr op with
    | [lhs; rhs] =>
      Some (f (getNumericValue data (TrimSpace lhs)) (getNumericValue data (TrimSpace rhs)))
    | _ => None
    end
  else None.

Definition evaluateExpression (data : gmap string Value) (expr : string) : float :=
  let expr := TrimSpace expr in
  if negb (Contains expr "+") && negb (Contains expr "-") && negb (Contains expr "*")
     && negb (Contains expr "/")
  then getNumericValue data expr
  else if Contains expr "+" then
    fold_left (fun result part => (result + getNumericValue data (TrimSpace part))%float)
              (Split expr "+") 0%float
  else
    match binary_on data expr "-" PrimFloat.sub with
    | Some difference => difference
    | None =>
      match binary_on data expr "*" PrimFloat.mul with
      | Some product => product
      | None => getNumericValue data expr
      end
    end.

(** The branch of [validateComparison] for one operator: the constraint
    split on it, both sides evaluated, a violation when [violated] holds
    of the two values. *)
Definition compare_on (data : gmap string Value) (constraint operator : string)
    (violated : float -> float -> bool) : option string :=
  match Split constraint operator with
  | [lhs; rhs] =>
    let leftSide := TrimSpace lhs in
    let rightSide := TrimSpace rhs in
    let leftValue := evaluateExpression data leftSide in
    let rightValue := evaluateExpression data rightSide in
    if violated leftValue rightValue
    then Some ("constraint violation: " ++ leftSide ++ " (" ++ fmt_f leftValue
               ++ ") should be " ++ operator ++ " " ++ rightSide ++ " ("
               ++ fmt_f rightValue ++ ")")
    else None
  | _ => Some ("invalid constraint format: " ++ constraint)
  end.

Definition validateComparison (data : gmap string Value) (fields : list string)
    (constraint : string) : option string :=
  if len fields <? 2 then Some "comparison rule requires at least 2 fields"
  else
    let constraint := TrimSpace constraint in
    if Contains constraint ">=" then compare_on data constraint ">=" f64_lt
    else if Contains constraint "<=" then compare_on data constraint "<=" f64_gt
    else if Contains constraint ">" then compare_on data constraint ">" f64_le
    else if Contains constraint "<" then compare_on data constraint "<" f64_ge
    else Some ("unsupported comparison operator in constraint: " ++ constraint).

Definition validateCrossFieldRule (data : gmap string Value) (rule : CrossFieldRule)
    : option string :=
  if String.eqb (Rule rule) "date_ordering" then validateDateOrdering data (Fields rule)
  else if String.eqb (Rule rule) "amount_range" then validateAmountRange data (Fields rule)
  else if String.eqb (Rule rule) "comparison" then
    validateComparison data (Fields rule) (Constraint rule)
  else if String.eqb (Rule rule) "conditional_required" then
    validateConditionalRequired data (Fields rule)
  else if String.eqb (Rule rule) "mutual_exclusion" then
    validateMutualExclusion data (Fields rule)
  else if String.eqb (Rule rule) "sum_constraint" then validateSumConstraint data (Fields rule)
  else Some ("unknown rule type: " ++ Rule rule).

Definition ValidateRecord (v : Validator) (data : gmap string Value) : list string :=
  let errors :=
    match parser_Validate data with
    | Some e => ["Schema validation failed: " ++ e]
    | None => []
    end in
  fold_left
    (fun errors rule =>
       match validateCrossFieldRule data rule with
       | Some e => app errors ["Cross-field rule '" ++ Name rule ++ "' failed: " ++ e]
       | None => errors
       end)
    (rules v) errors.

(** [adjustField] and [applyPatch] write into the map [data] designates. *)
Definition adjustField (h : Heap) (data : loc) (patch : PatchRule) : Heap * option string :=
  let currentVal := getNumericValue (heap_get h data) (Target patch) in
  match Params patch !! "adjustment" with
  | Some (VFloat64 adjustment) =>
    (heap_update h data (insert (Target patch) (VFloat64 (currentVal + adjustment))), None)
  | _ =>
    match Params patch !! "factor" with
    | Some (VFloat64 factor) =>
      (heap_update h data (insert (Target patch) (VFloat64 (currentVal * factor))), None)
    | _ => (h, Some "adjust_field requires 'adjustment' or 'factor' parameter")
    end
  end.

Definition applyPatch (h : Heap) (data : loc) (patch : PatchRule) : Heap * option string :=
  if String.eqb (Strategy patch) "set_value" then
    (heap_update h data (insert (Target patch) (PatchValue patch)), None)
  else if String.eqb (Strategy patch) "adjust_field" then adjustField h data patch
  else if String.eqb (Strategy patch) "remove_field" then
    (heap_update h data (delete (Target patch)), None)
  else (h, Some ("unknown patch strategy: " ++ Strategy patch)).

(** The loop of [PatchRecord] over the rules, on the copy [patched]. *)
Fixpoint patch_loop (h : Heap) (patched : loc) (errors : list string)
    (todo : list CrossFieldRule) : Heap * option string :=
  match todo with
  | [] => (h, None)
  | rule :: todo' =>
    match Patch rule with
    | Some patch =>
      if ruleViolated errors (Name rule) then
        match applyPatch h patched patch with
        | (h', Some err) =>
          (h', Some ("failed to apply patch for rule " ++ Name rule ++ ": " ++ err))
        | (h', None) => patch_loop h' patched errors todo'
        end
      else patch_loop h patched errors todo'
    | None => patch_loop h patched errors todo'
    end
  end.

(** [PatchRecord]: the result is the reference of the copy and no error,
    or nil and an error. *)
Definition PatchRecord (v : Validator) (h : Heap) (data : loc) (errors : list string)
    : Heap * (option loc * option string) :=
  let '(patched, h) := heap_alloc h in
  let h := heap_update h patched (fun _ => heap_get h data) in
  match patch_loop h patched errors (rules v) with
  | (h, Some err) => (h, (None, Some err))
  | (h, None) => (h, (Some patched, None))
  end.

(** The record of [generateRecord] and its last step, which validates
    the record and tries to patch it. *)
Record generatedRecord : Type := mkGeneratedRecord {
  Data : loc;
  RecordLLMEnhanced : bool;
  ValidationErrors : list string;
  Patched : bool }.

Definition validate_and_patch (v : Validator) (h : Heap) (record : generatedRecord)
    : Heap * generatedRecord :=
  let errors := ValidateRecord v (heap_get h (Data record)) in
  if 0 <? len errors then
    let record :=
      {| Data := Data record; RecordLLMEnhanced := RecordLLMEnhanced record;
         ValidationErrors := errors; Patched := Patched record |} in
    match PatchRecord v h (Data record) errors with
    | (h', (Some patched, None)) =>
      (h', {| Data := patched; RecordLLMEnhanced := RecordLLMEnhanced record;
              ValidationErrors := ValidationErrors record; Patched := true |})
    | (h', _) => (h', record)
    end
  else (h, record).

End Validator.

(** ** Instances of the library interfaces, to run the model

    The theorems below hold for every instance. The examples need one:
    a linear congruential generator in the place of the generator of
    [math/rand], a clock that counts seconds, and a parser of whole
    numbers. They stand for the Go libraries in examples only. *)

Module Examples.

Definition lcg_next (s : Z) : Z :=
  (s * 6364136223846793005 + 1442695040888963407) mod 2 ^ 64.

(** A draw advances the state and reads its high bits. *)
Definition lcg_Intn (n : Z) (s : Z) : Z * Z :=
  let s' := lcg_next s in ((s' / 2 ^ 33) mod n, s').

Definition lcg_Float (s : Z) : float * Z :=
  let s' := lcg_next s in ((float64_of_nonneg ((s' / 2 ^ 60) mod 16) / 16)%float, s').

Fixpoint lcg_bytes (k : nat) (s : Z) : list Z * Z :=
  match k with
  | O => ([], s)
  | S k' =>
    let '(bs, s') := lcg_bytes k' (lcg_next s) in
    ((lcg_next s / 2 ^ 56) mod 256 :: bs, s')
  end.

Definition lcg_Read (n : Z) (s : Z) : list Z * Z := lcg_bytes (Z.to_nat n) s.

Lemma lcg_Intn_range n s : 0 < n -> 0 <= fst (lcg_Intn n s) < n.
Proof. intros Hn. unfold lcg_Intn. simpl. apply Z.mod_pos_bound. exact Hn. Qed.

Lemma lcg_Float_range s :
  f64_le 0 (fst (lcg_Float s)) = true /\ f64_lt (fst (lcg_Float s)) 1 = true.
Proof.
  unfold lcg_Float. simpl.
  assert (Hk : 0 <= (lcg_next s / 2 ^ 60) mod 16 < 16) by (apply Z.mod_pos_bound; lia).
  set (k := (lcg_next s / 2 ^ 60) mod 16) in *. clearbody k.
  assert (Hcases : k = 0 \/ k = 1 \/ k = 2 \/ k = 3 \/ k = 4 \/ k = 5 \/ k = 6 \/ k = 7 \/
                   k = 8 \/ k = 9 \/ k = 10 \/ k = 11 \/ k = 12 \/ k = 13 \/ k = 14 \/ k = 15)
    by lia.
  repeat (destruct Hcases as [-> | Hcases]; [vm_compute; split; reflexivity |]).
  subst k. vm_compute. split; reflexivity.
Qed.

Lemma lcg_bytes_length k s : length (fst (lcg_bytes k s)) = k.
Proof.
  revert s. induction k as [| k IH]; intros s; simpl; [reflexivity |].
  specialize (IH (lcg_next s)). destruct (lcg_bytes k (lcg_next s)) as [bs s'].
  simpl in *. f_equal. exact IH.
Qed.

Lemma lcg_bytes_range k s : Forall (fun b => 0 <= b < 256) (fst (lcg_bytes k s)).
Proof.
  revert s. induction k as [| k IH]; intros s; simpl; [constructor |].
  specialize (IH (lcg_next s)). destruct (lcg_bytes k (lcg_next s)) as [bs s'].
  simpl in *. constructor; [apply Z.mod_pos_bound; lia | exact IH].
Qed.

Lemma lcg_Read_length n s : 0 <= n -> Z.of_nat (length (fst (lcg_Read n s))) = n.
Proof. intros Hn. unfold lcg_Read. rewrite lcg_bytes_length. lia. Qed.

#[export] Instance lcgRand : MathRand := {|
  Rand := Z;
  NewRand := fun seed => seed mod 2 ^ 64;
  rand_Int63n := lcg_Intn;
  rand_Intn := lcg_Intn;
  rand_Float64 := lcg_Float;
  rand_Float32 := lcg_Float;
  rand_Read := lcg_Read;
  rand_Int63n_range := lcg_Intn_range;
  rand_Intn_range := lcg_Intn_range;
  rand_Float64_range := lcg_Float_range;
  rand_Float32_range := lcg_Float_range;
  rand_Read_length := lcg_Read_length;
  rand_Read_bytes := fun n s => lcg_bytes_range (Z.to_nat n) s |}.

(** Seconds since an epoch, years of 365 days and months of 30. *)
#[export] Instance secondsClock : GoTime := {|
  Time := Z;
  time_AddDate := fun y m d t => t + ((365 * y + 30 * m + d) * 86400);
  time_Sub := fun t u => (t - u) * 1000000000;
  time_Add := fun d t => t + d / 1000000000;
  time_Format := fun layout t => itoa t |}.

(** Decimal whole numbers are parsed, and nothing else. *)
#[export] Instance wholeNumbers : Strconv := {|
  ParseFloat := fun s =>
    match Atoi s with
    | Some n => Some (float64_of_int n)
    | None => None
    end |}.

(** A node with the given type and path and nothing else; the parser
    gives every node the inclusion probability 0.9. *)
Definition node_of_type (type path : string) : SchemaNode :=
  mkSchemaNode type None None [] [] [] "" "" None None None None None None None
               "" false [] path false 0.9.

(** [{"type": "string", "minLength": 25}] *)
Definition string_min25 : SchemaNode :=
  mkSchemaNode "string" None None [] [] [] "" "" (Some 25) None None None None None None
               "" false [] "name" false 0.9.

(** [{"type": "integer", "minimum": 3, "maximum": 12, "multipleOf": 5}] *)
Definition integer_3_12_by5 : SchemaNode :=
  mkSchemaNode "integer" None None [] [] [] "" "" None None (Some 3%float) (Some 12%float)
               None None (Some 5%float) "" false [] "count" false 0.9.

(** [{"type": "object", "properties": {"a": {"type": "null"},
    "b": {"type": "null"}}}]: two properties, none required. *)
Definition two_optional : SchemaNode :=
  mkSchemaNode "object"
               (Some (<["a" := node_of_type "null" "a"]>
                        (<["b" := node_of_type "null" "b"]> ∅)))
               None [] [] [] "" "" None None None None None None None
               "" false [] "" false 0.9.

(** [{"type": "array", "items": {"type": "integer"}}] at path [tags]. *)
Definition integer_array : SchemaNode :=
  mkSchemaNode "array" None (Some (node_of_type "integer" "tags[]"))
               [] [] [] "" "" None None None None None None None
               "" false [] "tags" false 0.9.

Definition in_order : Runtime := {| rangeOrder := fun keys => keys; clockNow := 1700000000 |}.
Definition reversed : Runtime := {| rangeOrder := @rev string; clockNow := 1700000000 |}.

End Examples.

(** * Properties *)

(** ** Seed derivation *)

Lemma fnv1a64_from_fold h bs :
  SeedSpec.fnv1a64_from h bs =
  fold_left (fun hash c => (Z.lxor hash c * fnv.prime64) mod 2 ^ 64) bs h.
Proof.
  revert h. induction bs as [| b bs IH]; intros h; simpl; [reflexivity |].
  rewrite IH. reflexivity.
Qed.

(** A byte of the low 32 bits of [r], read on [r] itself. *)
Lemma low32_byte r a :
  0 <= a -> a + 8 <= 32 ->
  ((r mod 2 ^ 32) / 2 ^ a) mod 2 ^ 8 = (r / 2 ^ a) mod 2 ^ 8.
Proof.
  intros Ha Hle. apply Z.bits_inj'. intros i Hi.
  destruct (Z_lt_le_dec i 8) as [Hlt | Hge].
  - rewrite !Z.mod_pow2_bits_low by lia.
    rewrite !Z.div_pow2_bits by lia.
    rewrite Z.mod_pow2_bits_low by lia. reflexivity.
  - rewrite !Z.mod_pow2_bits_high by lia. reflexivity.
Qed.

Lemma index_bytes_reference r :
  [ byte_of_int r; byte_of_int (Z.shiftr r 8); byte_of_int (Z.shiftr r 16);
    byte_of_int (Z.shiftr r 24) ] = SeedSpec.le32 r.
Proof.
  unfold SeedSpec.le32, SeedSpec.le_byte, byte_of_int.
  rewrite !Z.shiftr_div_pow2 by lia.
  change 256 with (2 ^ 8).
  rewrite <- (Z.div_1_r r) at 1. change 1 with (2 ^ 0) at 1.
  rewrite <- (low32_byte r 0), <- (low32_byte r 8), <- (low32_byte r 16),
          <- (low32_byte r 24) by lia.
  reflexivity.
Qed.


Lemma deriveSeed_unfold b path r :
  deriveSeed b path r =
  Z.lxor b (Z.land (SeedSpec.fnv1a64 (bytes_of_string path ++ SeedSpec.le32 r))
                   0x7FFFFFFFFFFFFFFF).
Proof.
  unfold deriveSeed, fnv.Write, fnv.Sum64, fnv.New64a, SeedSpec.fnv1a64. cbv zeta.
  rewrite index_bytes_reference, fnv1a64_from_fold, fold_left_app. reflexivity.
Qed.

(** C2. [deriveSeed] is a total function of its three arguments (its two
    error branches are never taken), and it is the reference definition:
    the 64-bit FNV-1a hash of the bytes of the path followed by the four
    bytes of the record index in little-endian order, without its sign
    bit, combined by exclusive or with the base seed. The empty path and
    the record index 0 are inputs like the others. *)
Theorem deriveSeed_is_reference (b : Z) (path : string) (r : Z) :
  deriveSeed b path r = SeedSpec.deriveSeed_reference b path r.
Proof.
  rewrite deriveSeed_unfold. unfold SeedSpec.deriveSeed_reference, SeedSpec.mask_sign.
  rewrite Z.lxor_comm. f_equal.
  change 0x7FFFFFFFFFFFFFFF with (Z.ones 63).
  apply Z.land_ones. lia.
Qed.



(** The derived seed of a 64-bit base seed is a 64-bit integer. *)
Lemma deriveSeed_in_int64 b path r : in_int64 b -> in_int64 (deriveSeed b path r).
Proof.
  unfold in_int64, minInt64, maxInt64. intros Hb.
  rewrite deriveSeed_unfold. change 0x7FFFFFFFFFFFFFFF with (Z.ones 63).
  rewrite Z.land_ones by lia.
  set (m := SeedSpec.fnv1a64 _ mod 2 ^ 63).
  assert (Hm : 0 <= m < 2 ^ 63) by (apply Z.mod_pos_bound; lia).
  clearbody m.
  destruct (Z_lt_le_dec b 0) as [Hneg | Hpos].
  - assert (Hx : Z.lxor b m < 0) by (pose proof (Z.lxor_nonneg b m); lia).
    split; [| lia].
    assert (Hbits : forall i, 63 <= i -> Z.testbit (Z.lxor b m) i = true).
    { intros i Hi. rewrite Z.lxor_spec.
      assert (Z.testbit m i = false) as ->.
      { destruct (Z.eq_dec m 0) as [-> | Hne]; [apply Z.bits_0 |].
        apply Z.bits_above_log2; [lia |].
        assert (Z.log2 m < 63) by (apply Z.log2_lt_pow2; lia). lia. }
      assert (Z.testbit b i = true) as ->; [| reflexivity].
      destruct (Z.eq_dec b (-1)) as [-> | Hne]; [apply Z.bits_m1; lia |].
      apply Z.bits_above_log2_neg; [lia |].
      assert (Z.log2 (Z.pred (- b)) < 63) by (apply Z.log2_lt_pow2; lia). lia. }
    destruct (Z_lt_le_dec (Z.lxor b m) (- 2 ^ 63)) as [Hlow | Hok]; [| lia].
    exfalso.
    set (x := Z.lxor b m) in *.
    assert (Hl : 63 <= Z.log2 (Z.pred (- x))).
    { apply Z.log2_le_pow2; lia. }
    assert (Z.testbit x (Z.log2 (Z.pred (- x))) = false).
    { apply Z.bit_log2_neg. lia. }
    rewrite Hbits in H by lia. discriminate.
  - assert (Hx : 0 <= Z.lxor b m) by (apply Z.lxor_nonneg; lia).
    split; [lia |].
    destruct (Z.eq_dec (Z.lxor b m) 0) as [-> | Hne]; [lia |].
    assert (Z.log2 (Z.lxor b m) < 63); [| apply Z.log2_lt_pow2 in H; lia].
    eapply Z.le_lt_trans; [apply Z.log2_lxor; lia |].
    apply Z.max_lub_lt.
    + destruct (Z.eq_dec b 0) as [-> | Hb0]; [simpl; lia |]. apply Z.log2_lt_pow2; lia.
    + destruct (Z.eq_dec m 0) as [-> | Hm0]; [simpl; lia |]. apply Z.log2_lt_pow2; lia.
Qed.

(** ** Machine arithmetic *)

Lemma wrap64_id z : in_int64 z -> wrap64 z = z.
Proof.
  unfold in_int64, wrap64, minInt64, maxInt64. intros Hz.
  rewrite Z.mod_small by lia. lia.
Qed.

Lemma int64_of_float64_range f : in_int64 (int64_of_float64 f).
Proof.
  unfold int64_of_float64, in_int64.
  destruct (float_trunc f) as [z |]; [| unfold minInt64, maxInt64; lia].
  destruct ((minInt64 <=? z) && (z <=? maxInt64)) eqn:Hin.
  - apply andb_prop in Hin as [Hlo Hhi]. lia.
  - unfold minInt64, maxInt64. lia.
Qed.

(** Division of Go truncates toward zero: the multiple of [m] it gives
    lies between the dividend and zero, less than [m] away. *)
Lemma quot_multiple s m :
  0 < m ->
  let v := Z.quot s m * m in
  v mod m = 0 /\ Z.abs (s - v) < m /\ Z.min s 0 <= v <= Z.max s 0.
Proof.
  intros Hm v. subst v.
  split; [apply Z.mod_mul; lia |].
  pose proof (Z.quot_rem' s m) as Hqr.
  destruct (Z_lt_le_dec s 0) as [Hneg | Hpos].
  - pose proof (Z.rem_bound_pos (- s) m ltac:(lia) ltac:(lia)) as Hr.
    pose proof (Z.rem_opp_l (- s) m ltac:(lia)) as Hopp.
    rewrite Z.opp_involutive in Hopp.
    pose proof (Z.rem_le (- s) m ltac:(lia) ltac:(lia)) as Hle.
    set (q := Z.quot s m) in *. set (t := Z.rem (- s) m) in *.
    set (u := Z.rem s m) in *. clearbody q t u. lia.
  - pose proof (Z.rem_bound_pos s m ltac:(lia) ltac:(lia)) as Hr.
    pose proof (Z.rem_le s m ltac:(lia) ltac:(lia)) as Hle.
    set (q := Z.quot s m) in *. set (u := Z.rem s m) in *. clearbody q u. lia.
Qed.

(** ** The generator *)

Section GeneratorProperties.

Context `{MathRand} `{GoTime}.

(** The bounds [generateInteger] samples between: the bounds of the node
    truncated to integers, 0 and 1000 when absent, the upper one raised
    to the lower one when it is smaller. *)
Definition integer_lo (node : SchemaNode) : Z :=
  match Minimum node with Some m => int64_of_float64 m | None => 0 end.

Definition integer_hi (node : SchemaNode) : Z :=
  Z.max (integer_lo node)
        (match Maximum node with Some m => int64_of_float64 m | None => 1000 end).

(** The value [generateInteger] samples before it applies [multipleOf]. *)
Definition integer_sample (node : SchemaNode) (r : Rand) : Z :=
  integer_lo node + fst (rand_Int63n (integer_hi node - integer_lo node + 1) r).

(** The integer [multipleOf] truncates to, when it is at least 1. *)
Definition integer_multiple (node : SchemaNode) : option Z :=
  match MultipleOf node with
  | Some m => if 0 <? int64_of_float64 m then Some (int64_of_float64 m) else None
  | None => None
  end.

Lemma integer_lo_range node : in_int64 (integer_lo node).
Proof.
  unfold integer_lo. destruct (Minimum node); [apply int64_of_float64_range |].
  unfold in_int64, minInt64, maxInt64. lia.
Qed.

Lemma integer_hi_range node : in_int64 (integer_hi node).
Proof.
  unfold integer_hi. pose proof (integer_lo_range node) as Hlo.
  assert (Hm : in_int64 (match Maximum node with
                         | Some m => int64_of_float64 m
                         | None => 1000
                         end)).
  { destruct (Maximum node); [apply int64_of_float64_range |].
    unfold in_int64, minInt64, maxInt64. lia. }
  unfold in_int64 in *. lia.
Qed.

Lemma generateInteger_unfold node r :
  integer_hi node - integer_lo node < maxInt64 ->
  generateInteger node r =
  Ok (match integer_multiple node with
      | Some m => Z.quot (integer_sample node r) m * m
      | None => integer_sample node r
      end,
      snd (rand_Int63n (integer_hi node - integer_lo node + 1) r)).
Proof.
  intros Hwidth.
  pose proof (integer_lo_range node) as Hlo.
  pose proof (integer_hi_range node) as Hhi.
  assert (Hle : integer_lo node <= integer_hi node) by (unfold integer_hi; lia).
  pose proof (rand_Int63n_range (integer_hi node - integer_lo node + 1) r ltac:(lia)) as Hn.
  unfold generateInteger.
  fold (integer_lo node).
  set (max0 := match Maximum node with Some m => int64_of_float64 m | None => 1000 end).
  assert (Hmax : (if max0 <? integer_lo node then integer_lo node else max0) = integer_hi node).
  { unfold integer_hi. fold max0. destruct (Z.ltb_spec max0 (integer_lo node)); lia. }
  rewrite Hmax.
  unfold in_int64, minInt64, maxInt64 in *.
  rewrite (wrap64_id (integer_hi node - integer_lo node))
    by (unfold in_int64, minInt64, maxInt64; lia).
  rewrite (wrap64_id (integer_hi node - integer_lo node + 1))
    by (unfold in_int64, minInt64, maxInt64; lia).
  unfold gbind, Int63n.
  destruct (Z.leb_spec (integer_hi node - integer_lo node + 1) 0) as [Hbad | _]; [lia |].
  destruct (rand_Int63n (integer_hi node - integer_lo node + 1) r) as [n r'] eqn:Hdraw.
  simpl in Hn.
  assert (Hs : integer_sample node r = integer_lo node + n).
  { unfold integer_sample. rewrite Hdraw. reflexivity. }
  rewrite (wrap64_id (integer_lo node + n))
    by (unfold in_int64, minInt64, maxInt64; lia).
  rewrite Hs. unfold integer_multiple, ret. simpl.
  destruct (MultipleOf node) as [m |]; [| reflexivity].
  destruct (Z.ltb_spec 0 (int64_of_float64 m)) as [Hpos | Hnon]; [| reflexivity].
  rewrite wrap64_id; [reflexivity |].
  pose proof (quot_multiple (integer_lo node + n) (int64_of_float64 m) Hpos) as (_ & _ & Hb).
  unfold in_int64, minInt64, maxInt64. lia.
Qed.

(** C3, amended. With [lo] and [hi] the integer bounds of the node (the
    truncated minimum, default 0, and the truncated maximum, default
    1000, raised to [lo] when smaller), of width below [2^63 - 1]:
    [generateInteger] succeeds; the value it samples lies in [[lo, hi]];
    with no [multipleOf] of at least 1 that value is the result; with a
    [multipleOf] truncating to [m >= 1] the result is the sampled value
    rounded toward zero to a multiple of [m], so it is divisible by
    [m], less than [m] away from the sample, and between the sample and
    zero (which may be outside [[lo, hi]]). *)
Theorem generateInteger_bounds (node : SchemaNode) (r : Rand) :
  integer_hi node - integer_lo node < maxInt64 ->
  exists v r',
    generateInteger node r = Ok (v, r') /\
    let s := integer_sample node r in
    integer_lo node <= s <= integer_hi node /\
    match integer_multiple node with
    | None => v = s
    | Some m =>
      v = Z.quot s m * m /\ v mod m = 0 /\ Z.abs (s - v) < m /\
      Z.min s 0 <= v <= Z.max s 0
    end.
Proof.
  intros Hwidth.
  rewrite (generateInteger_unfold node r Hwidth).
  eexists _, _. split; [reflexivity |].
  assert (Hle : integer_lo node <= integer_hi node) by (unfold integer_hi; lia).
  pose proof (rand_Int63n_range (integer_hi node - integer_lo node + 1) r ltac:(lia)) as Hn.
  cbv zeta. split; [unfold integer_sample; lia |].
  destruct (integer_multiple node) as [m |] eqn:Hm; [| reflexivity].
  assert (Hpos : 0 < m).
  { unfold integer_multiple in Hm. destruct (MultipleOf node) as [f |]; [| discriminate].
    destruct (Z.ltb_spec 0 (int64_of_float64 f)); [| discriminate].
    injection Hm as <-. assumption. }
  split; [reflexivity |].
  apply (quot_multiple (integer_sample node r) m Hpos).
Qed.

(** The last branch of [generateString], taken by a node with neither
    format nor pattern. *)
Lemma generateString_plain (rt : Runtime) (node : SchemaNode) :
  Format node = "" -> Pattern node = "" ->
  generateString rt node =
  (let minLen := match MinLength node with Some m => m | None => 5 end in
   let maxLen :=
     match MaxLength node with
     | Some m => if m <? minLen then minLen else m
     | None => 20
     end in
   n <- Intn (wrap64 (wrap64 (maxLen - minLen) + 1)) ;;
   generateRandomString (wrap64 (minLen + n))).
Proof.
  intros Hformat Hpattern. unfold generateString. rewrite Hformat, Hpattern. reflexivity.
Qed.

(** C4, at the inputs on which it fails. A string node with neither
    format nor pattern, a [minLength] above 20 and no [maxLength]: the
    default upper bound 20 is not raised to the lower one, the bound
    handed to [Intn] is [20 - minLength + 1 <= 0], and [generateString]
    panics. *)
Theorem generateString_panics_without_maxLength
    (rt : Runtime) (node : SchemaNode) (r : Rand) (m : Z) :
  Format node = "" -> Pattern node = "" ->
  MinLength node = Some m -> MaxLength node = None ->
  20 < m <= maxInt64 ->
  generateString rt node r = Panic "invalid argument to Intn".
Proof.
  intros Hformat Hpattern Hmin Hmax Hm.
  rewrite (generateString_plain rt node Hformat Hpattern). rewrite Hmin, Hmax. cbv zeta.
  unfold maxInt64 in Hm.
  rewrite (wrap64_id (20 - m)) by (unfold in_int64, minInt64, maxInt64; lia).
  rewrite (wrap64_id (20 - m + 1)) by (unfold in_int64, minInt64, maxInt64; lia).
  unfold gbind, Intn.
  destruct (Z.leb_spec (20 - m + 1) 0) as [_ | Hbad]; [reflexivity | lia].
Qed.

(** *** Strings of drawn characters *)

Definition drawn_from (charset : string) (c : ascii) : Prop :=
  exists i, 0 <= i < strlen charset /\ c = char_at charset i.

Lemma pick_ok charset r :
  0 < strlen charset ->
  pick charset r =
  Ok (char_at charset (fst (rand_Intn (strlen charset) r)), snd (rand_Intn (strlen charset) r)).
Proof.
  intros Hpos. unfold pick, gbind, Intn, ret.
  destruct (Z.leb_spec (strlen charset) 0) as [Hbad | _]; [lia |].
  destruct (rand_Intn (strlen charset) r). reflexivity.
Qed.

Lemma repeatG_pick_ok charset n r :
  0 < strlen charset ->
  exists cs r',
    repeatG n (pick charset) r = Ok (cs, r') /\ length cs = n /\
    Forall (drawn_from charset) cs.
Proof.
  intros Hpos. revert r. induction n as [| n IH]; intros r.
  - exists [], r. repeat split. constructor.
  - simpl. unfold gbind at 1. rewrite (pick_ok charset r Hpos).
    destruct (IH (snd (rand_Intn (strlen charset) r))) as (cs & r' & Hrun & Hlen & Hall).
    unfold gbind at 1. rewrite Hrun. unfold ret.
    eexists _, _. split; [reflexivity |]. split; [simpl; congruence |].
    constructor; [| exact Hall].
    exists (fst (rand_Intn (strlen charset) r)). split; [| reflexivity].
    apply rand_Intn_range. exact Hpos.
Qed.

Lemma string_of_chars_length cs : String.length (string_of_chars cs) = length cs.
Proof. induction cs as [| c cs IH]; simpl; congruence. Qed.

(** Every character of the 62-character set at a position from 52 on is
    a decimal digit. *)
Lemma charset62_digit i :
  52 <= i < 62 ->
  is_digit (char_at "abcdefghijklmnopqrstuvwxyzABCDEFGHIJKLMNOPQRSTUVWXYZ0123456789" i) = true.
Proof.
  intros Hi.
  assert (Hcases : i = 52 \/ i = 53 \/ i = 54 \/ i = 55 \/ i = 56 \/ i = 57 \/
                   i = 58 \/ i = 59 \/ i = 60 \/ i = 61) by lia.
  repeat (destruct Hcases as [-> | Hcases]; [reflexivity |]).
  subst i. reflexivity.
Qed.

Lemma generateRandomString_ok (n : Z) (r : Rand) :
  0 <= n <= 2 ^ 48 ->
  exists cs r',
    generateRandomString n r = Ok (string_of_chars cs, r') /\
    len cs = n /\
    Forall (drawn_from "abcdefghijklmnopqrstuvwxyzABCDEFGHIJKLMNOPQRSTUVWXYZ0123456789") cs.
Proof.
  intros Hn. unfold generateRandomString, make_check.
  change (2 ^ 48 / 1) with (2 ^ 48).
  destruct (Z.ltb_spec n 0) as [Hneg | _]; [lia |].
  destruct (Z.ltb_spec (2 ^ 48) n) as [Hbig | _]; [lia |].
  simpl orb. cbv iota. unfold gbind at 1. unfold ret at 1. unfold pick_many.
  destruct (repeatG_pick_ok
              "abcdefghijklmnopqrstuvwxyzABCDEFGHIJKLMNOPQRSTUVWXYZ0123456789"
              (Z.to_nat n) r ltac:(reflexivity)) as (cs & r' & Hrun & Hlen & Hall).
  unfold gbind. rewrite Hrun. unfold ret.
  exists cs, r'. split; [reflexivity |]. split; [unfold len; lia | exact Hall].
Qed.

(** X9. Where the claim C4 holds: with a [maxLength], or with a [minLength]
    of at most 20, and a lower bound that is not negative, the plain
    string has a length within the bounds (the upper one raised to the
    lower one when it is smaller) and characters of the 62-character
    set. *)
Lemma generateString_plain_in_bounds (rt : Runtime) (node : SchemaNode) (r : Rand) :
  Format node = "" -> Pattern node = "" ->
  let lo := match MinLength node with Some m => m | None => 5 end in
  let hi := match MaxLength node with Some m => Z.max m lo | None => 20 end in
  0 <= lo <= hi -> hi <= 2 ^ 48 ->
  exists cs r',
    generateString rt node r = Ok (string_of_chars cs, r') /\
    lo <= len cs <= hi /\
    Forall (drawn_from "abcdefghijklmnopqrstuvwxyzABCDEFGHIJKLMNOPQRSTUVWXYZ0123456789") cs.
Proof.
  intros Hformat Hpattern lo hi Hlo Hhi.
  rewrite (generateString_plain rt node Hformat Hpattern). cbv zeta. fold lo.
  assert (Hmax : match MaxLength node with
                 | Some m => if m <? lo then lo else m
                 | None => 20
                 end = hi).
  { unfold hi. destruct (MaxLength node) as [m |]; [| reflexivity].
    destruct (Z.ltb_spec m lo); lia. }
  rewrite Hmax.
  assert (H248 : 2 ^ 48 < maxInt64) by reflexivity.
  rewrite (wrap64_id (hi - lo)) by (unfold in_int64, minInt64, maxInt64 in *; lia).
  rewrite (wrap64_id (hi - lo + 1)) by (unfold in_int64, minInt64, maxInt64 in *; lia).
  unfold gbind at 1. unfold Intn.
  destruct (Z.leb_spec (hi - lo + 1) 0) as [Hbad | _]; [lia |].
  pose proof (rand_Intn_range (hi - lo + 1) r ltac:(lia)) as Hn.
  destruct (rand_Intn (hi - lo + 1) r) as [n r1]. simpl in Hn.
  rewrite (wrap64_id (lo + n)) by (unfold in_int64, minInt64, maxInt64 in *; lia).
  destruct (generateRandomString_ok (lo + n) r1 ltac:(lia)) as (cs & r' & Hrun & Hlen & Hall).
  exists cs, r'. split; [exact Hrun |]. split; [lia | exact Hall].
Qed.

(** C8, at the inputs on which it fails. For a pattern outside the
    table, with a letter class and no digit class, [generateFromPattern]
    is [generateRandomString(8)], whose 62 characters include the ten
    digits: whenever the first draw is 52 or more, the string of eight
    characters it returns starts with a digit, and is not alphabetic. *)
Theorem letter_pattern_yields_digit (pattern : string) (r : Rand) :
  lookupPattern pattern = None ->
  Contains pattern "[0-9]" = false ->
  Contains pattern "[a-zA-Z]" || Contains pattern "[A-Z]" = true ->
  52 <= fst (rand_Intn 62 r) ->
  exists c rest r',
    generateFromPattern pattern r = Ok (String c rest, r') /\
    String.length rest = 7%nat /\ is_digit c = true.
Proof.
  intros Hlookup Hdigit Hletter Hdraw.
  unfold generateFromPattern. rewrite Hlookup, Hdigit, Hletter.
  rewrite andb_false_l. cbv iota.
  unfold generateRandomString.
  set (charset := "abcdefghijklmnopqrstuvwxyzABCDEFGHIJKLMNOPQRSTUVWXYZ0123456789").
  assert (Hlen : strlen charset = 62) by reflexivity.
  unfold gbind at 1.
  replace (make_check 1 8 r) with (Ok (tt, r)) by reflexivity.
  unfold pick_many. change (Z.to_nat 8) with 8%nat.
  change (repeatG 8 (pick charset))
    with (gbind (pick charset) (fun x => gbind (repeatG 7 (pick charset))
            (fun xs => ret (x :: xs)))).
  unfold gbind at 1. unfold gbind at 1.
  rewrite (pick_ok charset r) by lia. rewrite Hlen.
  destruct (repeatG_pick_ok charset 7 (snd (rand_Intn 62 r)) ltac:(lia))
    as (cs & r' & Hrun & Hcs & _).
  unfold gbind at 1. rewrite Hrun. unfold ret.
  eexists _, _, _. split; [reflexivity |].
  split; [rewrite string_of_chars_length; exact Hcs |].
  apply charset62_digit.
  pose proof (rand_Intn_range 62 r ltac:(lia)). lia.
Qed.

(** *** Arrays *)


(** The item of the array of [node] at position [i], as the claim
    describes it: the item schema generated on a generator seeded with
    [deriveSeed(baseSeed, path + "[" + i + "]", 0)]. *)
Definition array_item (g : DeterministicGenerator) (rt : Runtime) (node items : SchemaNode)
    (i : nat) : outcome Value :=
  run_fresh (generateValue g rt items)
            (NewRand (deriveSeed (baseSeed g) (Path node ++ "[" ++ itoa (Z.of_nat i) ++ "]") 0)).



Lemma GenerateValue_array g rt node r v :
  Type_ node = "array" -> Enum node = [] -> Examples node = [] ->
  GenerateValue g rt node r = Ok v ->
  exists l r',
    v = VSlice l /\
    generateArray g rt node (NewRand (deriveSeed (baseSeed g) (Path node) r)) = Ok (l, r').
Proof.
  intros Htype Henum Hexamples. unfold GenerateValue, run_fresh.
  destruct node; simpl in *. subst. simpl.
  unfold gbind, generateArray. simpl.
  destruct (generateArray_with _ _ _ _) as [[l r'] | |]; try discriminate.
  unfold ret. intros [= <-]. eauto.
Qed.

(** *** Objects and the order of [range] *)

Lemma generateValue_null g rt path r :
  generateValue g rt (Examples.node_of_type "null" path) r = Ok (VNil, r).
Proof. reflexivity. Qed.

(** One turn of the loop over the optional properties, for a property
    of type null with the inclusion probability 0.9. *)
Lemma optional_null_step g rt (properties : gmap string (float * G Value))
    (result : gmap string Value) name path r :
  properties !! name = Some (0.9%float, generateValue g rt (Examples.node_of_type "null" path)) ->
  (let requiredMap : gset string := ∅ in
   match properties !! name with
   | Some (optionalProb, generateProp) =>
     if bool_decide (name ∈ requiredMap) then ret result
     else
       f <- Float64 ;;
       if f64_lt f optionalProb then
         value <- wrap_error ("failed to generate optional property " ++ name) generateProp ;;
         ret (<[name := value]> result)
       else ret result
   | None => ret result
   end) r =
  Ok (if f64_lt (fst (rand_Float64 r)) 0.9 then <[name := VNil]> result else result,
      snd (rand_Float64 r)).
Proof.
  intros Hlookup. cbv zeta. rewrite Hlookup.
  rewrite bool_decide_eq_false_2 by set_solver.
  unfold gbind, Float64. destruct (rand_Float64 r) as [f r1]. simpl fst. simpl snd.
  destruct (f64_lt f 0.9); [| reflexivity].
  unfold wrap_error. rewrite generateValue_null. reflexivity.
Qed.

(** The object of [Examples.two_optional], generated from any state of
    the generator: a draw for each of the two properties, in the order
    the runtime visits them. *)
Lemma two_optional_generated g (order : list string -> list string) now r first second :
  order ["a"; "b"] = [first; second] ->
  (first = "a" /\ second = "b") \/ (first = "b" /\ second = "a") ->
  generateValue g {| rangeOrder := order; clockNow := now |} Examples.two_optional r =
  let r1 := snd (rand_Float64 r) in
  let m1 : gmap string Value :=
    if f64_lt (fst (rand_Float64 r)) 0.9 then <[first := VNil]> ∅ else ∅ in
  let m2 : gmap string Value :=
    if f64_lt (fst (rand_Float64 r1)) 0.9 then <[second := VNil]> m1 else m1 in
  Ok (VMap m2, snd (rand_Float64 r1)).
Proof.
  intros Horder Hcases.
  unfold Examples.two_optional. simpl generateValue.
  set (rt := {| rangeOrder := order; clockNow := now |}).
  set (properties := (fun prop : SchemaNode => (OptionalProb prop, generateValue g rt prop)) <$> _).
  assert (Hkeys : map fst (map_to_list properties) = ["a"; "b"]) by (vm_compute; reflexivity).
  assert (Ha : properties !! "a" =
               Some (0.9%float, generateValue g rt (Examples.node_of_type "null" "a")))
    by (unfold properties; rewrite lookup_fmap; reflexivity).
  assert (Hb : properties !! "b" =
               Some (0.9%float, generateValue g rt (Examples.node_of_type "null" "b")))
    by (unfold properties; rewrite lookup_fmap; reflexivity).
  rewrite Hkeys. simpl rangeOrder. rewrite Horder.
  clearbody properties.
  unfold gbind at 1. unfold gbind at 1. unfold ret at 1.
  change (list_to_set [] : gset string) with (∅ : gset string).
  simpl foldG. unfold gbind at 1.
  destruct Hcases as [[-> ->] | [-> ->]].
  - rewrite (optional_null_step g rt properties ∅ "a" "a" r Ha).
    unfold gbind at 1.
    rewrite (optional_null_step g rt properties _ "b" "b" _ Hb).
    reflexivity.
  - rewrite (optional_null_step g rt properties ∅ "b" "b" r Hb).
    unfold gbind at 1.
    rewrite (optional_null_step g rt properties _ "a" "a" _ Ha).
    reflexivity.
Qed.

(** C1, at the inputs on which it fails. The object of
    [Examples.two_optional] has two properties that are not required;
    [generateObject] visits them with a [range] over a Go map, whose
    order the runtime chooses. When the first draw of the generator
    seeded for the record is below the inclusion probability 0.9 and
    the second is not, the object generated holds the property visited
    first and not the other: two calls with the same base seed, schema
    and record index return different objects when the runtime visits
    the properties in different orders. No date is involved. *)
Theorem GenerateValue_depends_on_range_order
    (g : DeterministicGenerator) (now : Time) (recordIndex : Z) :
  let rng0 := NewRand (deriveSeed (baseSeed g) "" recordIndex) in
  f64_lt (fst (rand_Float64 rng0)) 0.9 = true ->
  f64_lt (fst (rand_Float64 (snd (rand_Float64 rng0)))) 0.9 = false ->
  let forward := {| rangeOrder := fun keys => keys; clockNow := now |} in
  let backward := {| rangeOrder := @rev string; clockNow := now |} in
  range_valid (rangeOrder forward) /\ range_valid (rangeOrder backward) /\
  GenerateValue g forward Examples.two_optional recordIndex = Ok (VMap {[ "a" := VNil ]}) /\
  GenerateValue g backward Examples.two_optional recordIndex = Ok (VMap {[ "b" := VNil ]}) /\
  GenerateValue g forward Examples.two_optional recordIndex <>
  GenerateValue g backward Examples.two_optional recordIndex.
Proof.
  intros rng0 Hfirst Hsecond forward backward.
  assert (Hforward : GenerateValue g forward Examples.two_optional recordIndex =
                     Ok (VMap {[ "a" := VNil ]})).
  { unfold GenerateValue, run_fresh, forward.
    change (Path Examples.two_optional) with "". fold rng0.
    rewrite (two_optional_generated g (fun keys => keys) now rng0 "a" "b")
      by (first [reflexivity | left; split; reflexivity]).
    cbv zeta. rewrite Hfirst, Hsecond. reflexivity. }
  assert (Hbackward : GenerateValue g backward Examples.two_optional recordIndex =
                      Ok (VMap {[ "b" := VNil ]})).
  { unfold GenerateValue, run_fresh, backward.
    change (Path Examples.two_optional) with "". fold rng0.
    rewrite (two_optional_generated g (@rev string) now rng0 "b" "a")
      by (first [reflexivity | right; split; reflexivity]).
    cbv zeta. rewrite Hfirst, Hsecond. reflexivity. }
  split; [intros keys; reflexivity |].
  split; [intros keys; symmetry; apply Permutation_rev |].
  split; [exact Hforward |]. split; [exact Hbackward |].
  rewrite Hforward, Hbackward. intros Heq.
  assert (Hmap : ({[ "a" := VNil ]} : gmap string Value) = {[ "b" := VNil ]}) by congruence.
  apply (f_equal (fun m : gmap string Value => m !! "a")) in Hmap.
  rewrite lookup_singleton_eq, lookup_singleton_ne in Hmap by discriminate.
  discriminate.
Qed.

End GeneratorProperties.

(** *** The generator on the example inputs *)

Import Examples.

(** C1, on an instance: base seed 12345, record index 49. *)
Lemma GenerateValue_depends_on_range_order_example :
  (f64_lt (fst (rand_Float64 (NewRand (deriveSeed 12345 "" 49)))) 0.9 = true /\
   f64_lt (fst (rand_Float64 (snd (rand_Float64 (NewRand (deriveSeed 12345 "" 49)))))) 0.9
   = false) /\
  GenerateValue (NewDeterministicGenerator 12345) Examples.in_order Examples.two_optional 49 <>
  GenerateValue (NewDeterministicGenerator 12345) Examples.reversed Examples.two_optional 49.
Proof.
  split; [split; vm_compute; reflexivity |].
  apply (@GenerateValue_depends_on_range_order lcgRand secondsClock
           (NewDeterministicGenerator 12345) 1700000000 49);
    vm_compute; reflexivity.
Defined.

(** C3, a counterexample to the claim as stated: minimum 3, maximum 12
    and multipleOf 5 admit the values 5 and 10; for record 6 the value
    sampled in [[3, 12]] is 4, and the value generated is
    [(4 / 5) * 5 = 0], below the minimum. *)
Lemma integer_below_minimum :
  Minimum Examples.integer_3_12_by5 = Some 3%float /\
  Maximum Examples.integer_3_12_by5 = Some 12%float /\
  MultipleOf Examples.integer_3_12_by5 = Some 5%float /\
  integer_sample Examples.integer_3_12_by5 (NewRand (deriveSeed 12345 "count" 6)) = 4 /\
  GenerateValue (NewDeterministicGenerator 12345) Examples.in_order
                Examples.integer_3_12_by5 6 = Ok (VInt64 0) /\
  ~ (3 <= 0 <= 12).
Proof.
  repeat split; try (vm_compute; reflexivity). lia.
Qed.

(** C3, the amended claim on an instance. *)
Lemma generateInteger_bounds_example :
  integer_hi Examples.integer_3_12_by5 - integer_lo Examples.integer_3_12_by5 < maxInt64 /\
  exists v r',
    @generateInteger lcgRand Examples.integer_3_12_by5 0 = Ok (v, r') /\
    3 <= @integer_sample lcgRand Examples.integer_3_12_by5 0 <= 12 /\
    v mod 5 = 0.
Proof.
  assert (Hwidth : integer_hi Examples.integer_3_12_by5
                   - integer_lo Examples.integer_3_12_by5 < maxInt64)
    by (vm_compute; reflexivity).
  split; [exact Hwidth |].
  destruct (@generateInteger_bounds lcgRand Examples.integer_3_12_by5 0 Hwidth)
    as (v & r' & Hrun & Hsample & Hmultiple).
  exists v, r'. split; [exact Hrun |]. split; [exact Hsample |].
  change (integer_multiple Examples.integer_3_12_by5) with (Some 5) in Hmultiple.
  destruct Hmultiple as (_ & Hmod & _). exact Hmod.
Defined.

(** C4, on an instance: a minimum length of 25 and no maximum. *)
Lemma generateString_panics_without_maxLength_example :
  (Format Examples.string_min25 = "" /\ Pattern Examples.string_min25 = "" /\
   MinLength Examples.string_min25 = Some 25 /\ MaxLength Examples.string_min25 = None /\
   20 < 25 <= maxInt64) /\
  @generateString lcgRand secondsClock Examples.in_order Examples.string_min25 0 =
  Panic "invalid argument to Intn".
Proof.
  split; [repeat split; vm_compute; congruence |].
  apply (@generateString_panics_without_maxLength lcgRand secondsClock
           Examples.in_order Examples.string_min25 0 25);
    first [reflexivity | vm_compute; split; congruence].
Defined.

(** C8, on an instance: the pattern [^[A-Z]+$] and a state of the
    generator whose first draw is 57. *)
Lemma letter_pattern_yields_digit_example :
  (lookupPattern "^[A-Z]+$" = None /\
   Contains "^[A-Z]+$" "[0-9]" = false /\
   Contains "^[A-Z]+$" "[a-zA-Z]" || Contains "^[A-Z]+$" "[A-Z]" = true /\
   52 <= fst (@rand_Intn lcgRand 62 3)) /\
  exists c rest r',
    @generateFromPattern lcgRand "^[A-Z]+$" 3 = Ok (String c rest, r') /\
    String.length rest = 7%nat /\ is_digit c = true.
Proof.
  split; [repeat split; vm_compute; congruence |].
  apply (@letter_pattern_yields_digit lcgRand "^[A-Z]+$" 3);
    first [reflexivity | vm_compute; congruence].
Defined.

(** ** The rule engine and the patch engine *)

Lemma filter_has_one {A : Type} (P : A -> bool) (l : list A) (j : nat) y :
  l !! j = Some y -> P y = true -> (1 <= length (List.filter P l))%nat.
Proof.
  revert j. induction l as [| a l IH]; intros j Hj Hy; [discriminate |].
  simpl. destruct j as [| j]; simpl in Hj.
  - injection Hj as ->. rewrite Hy. simpl. lia.
  - specialize (IH j Hj Hy). destruct (P a); simpl; lia.
Qed.

Lemma filter_has_two {A : Type} (P : A -> bool) (l : list A) (i j : nat) x y :
  (i < j)%nat -> l !! i = Some x -> l !! j = Some y -> P x = true -> P y = true ->
  (2 <= length (List.filter P l))%nat.
Proof.
  revert i j. induction l as [| a l IH]; intros i j Hij Hi Hj Hx Hy; [discriminate |].
  simpl. destruct j as [| j]; [lia |]. simpl in Hj.
  destruct i as [| i]; simpl in Hi.
  - injection Hi as ->. rewrite Hx. simpl.
    pose proof (filter_has_one P l j y Hj Hy). lia.
  - assert (Hlt : (i < j)%nat) by lia.
    specialize (IH i j Hlt Hi Hj Hx Hy). destruct (P a); simpl; lia.
Qed.

Section ValidatorProperties.

Context `{Strconv}.

Lemma validateMutualExclusion_two data fields (i j : nat) f1 f2 v1 v2 :
  i <> j -> fields !! i = Some f1 -> fields !! j = Some f2 ->
  data !! f1 = Some v1 -> data !! f2 = Some v2 ->
  exists msg, validateMutualExclusion data fields = Some msg.
Proof.
  intros Hij Hi Hj H1 H2. unfold validateMutualExclusion.
  set (P := fun field : string => match data !! field with Some _ => true | None => false end).
  assert (Hx : P f1 = true) by (unfold P; rewrite H1; reflexivity).
  assert (Hy : P f2 = true) by (unfold P; rewrite H2; reflexivity).
  assert (Hcount : (2 <= length (List.filter P fields))%nat).
  { destruct (Nat.lt_ge_cases i j) as [Hlt | Hge].
    - exact (filter_has_two P fields i j f1 f2 Hlt Hi Hj Hx Hy).
    - assert (Hlt : (j < i)%nat) by lia.
      exact (filter_has_two P fields j i f2 f1 Hlt Hj Hi Hy Hx). }
  unfold len. destruct (Z.ltb_spec 1 (Z.of_nat (length (List.filter P fields)))) as [_ | Hbad].
  - eexists. reflexivity.
  - lia.
Qed.

(** C10. The rules test the presence of a field by the existence of its
    key, whatever its value, null included: [mutual_exclusion] reports
    a violation as soon as two of the listed fields are keys of the
    record; [conditional_required] is satisfied when the required field
    is a key of the record, and reports a violation when it is not and
    the condition is truthy; a null condition is not truthy and asks
    for nothing. *)
Theorem presence_is_key_existence :
  (forall (data : gmap string Value) fields (i j : nat) f1 f2 v1 v2,
     i <> j -> fields !! i = Some f1 -> fields !! j = Some f2 ->
     data !! f1 = Some v1 -> data !! f2 = Some v2 ->
     exists msg, validateMutualExclusion data fields = Some msg) /\
  (forall (data : gmap string Value) condition required v,
     data !! required = Some v ->
     validateConditionalRequired data [condition; required] = None) /\
  (forall (data : gmap string Value) condition required v,
     data !! condition = Some v -> isTruthy v = true -> data !! required = None ->
     exists msg, validateConditionalRequired data [condition; required] = Some msg) /\
  isTruthy VNil = false /\
  (forall (data : gmap string Value) condition required,
     data !! condition = Some VNil ->
     validateConditionalRequired data [condition; required] = None).
Proof.
  split; [exact validateMutualExclusion_two |].
  split.
  { intros data condition required v Hreq. unfold validateConditionalRequired.
    rewrite Hreq. destruct (data !! condition) as [c |]; [| reflexivity].
    destruct (isTruthy c); reflexivity. }
  split.
  { intros data condition required v Hcond Htruthy Hreq. unfold validateConditionalRequired.
    rewrite Hcond, Htruthy, Hreq. eexists. reflexivity. }
  split; [reflexivity |].
  intros data condition required Hcond. unfold validateConditionalRequired.
  rewrite Hcond. reflexivity.
Qed.

(** *** Patching *)

(** What a patch does to a record, [None] when it fails: the three
    strategies of the specification. *)
Definition repair (patch : PatchRule) (record : gmap string Value) : option (gmap string Value) :=
  if String.eqb (Strategy patch) "set_value" then
    Some (<[Target patch := PatchValue patch]> record)
  else if String.eqb (Strategy patch) "adjust_field" then
    let current := getNumericValue record (Target patch) in
    match Params patch !! "adjustment" with
    | Some (VFloat64 adjustment) => Some (<[Target patch := VFloat64 (current + adjustment)]> record)
    | _ =>
      match Params patch !! "factor" with
      | Some (VFloat64 factor) => Some (<[Target patch := VFloat64 (current * factor)]> record)
      | _ => None
      end
    end
  else if String.eqb (Strategy patch) "remove_field" then Some (delete (Target patch) record)
  else None.

(** The patches of the rules that declare one and are named among the
    violated rules, in the order of the rules. *)
Definition repairs_due (v : Validator) (errors : list string) : list PatchRule :=
  flat_map (fun rule =>
              match Patch rule with
              | Some patch => if ruleViolated errors (Name rule) then [patch] else []
              | None => []
              end)
           (rules v).

(** The repairs applied one after the other, [None] when one fails. *)
Fixpoint repair_all (patches : list PatchRule) (record : gmap string Value)
    : option (gmap string Value) :=
  match patches with
  | [] => Some record
  | patch :: patches' =>
    match repair patch record with
    | Some record' => repair_all patches' record'
    | None => None
    end
  end.

Lemma heap_get_insert_eq (h : Heap) l m : heap_get (<[l := m]> h) l = m.
Proof. unfold heap_get. rewrite lookup_insert_eq. reflexivity. Qed.

Lemma heap_get_insert_ne (h : Heap) l l' m : l <> l' -> heap_get (<[l := m]> h) l' = heap_get h l'.
Proof. intros Hne. unfold heap_get. rewrite lookup_insert_ne by exact Hne. reflexivity. Qed.

(** [applyPatch] on the map at [p]: the repair, written at [p] and
    nowhere else; a failure leaves the heap as it is. *)
Lemma applyPatch_repair (h : Heap) p patch :
  applyPatch h p patch =
  match repair patch (heap_get h p) with
  | Some m' => (<[p := m']> h, None)
  | None =>
    (h, Some (if String.eqb (Strategy patch) "adjust_field"
              then "adjust_field requires 'adjustment' or 'factor' parameter"
              else "unknown patch strategy: " ++ Strategy patch))
  end.
Proof.
  unfold applyPatch, repair, adjustField, heap_update.
  destruct (String.eqb (Strategy patch) "set_value"); [reflexivity |].
  destruct (String.eqb (Strategy patch) "adjust_field").
  - destruct (Params patch !! "adjustment") as [[] |];
      try reflexivity;
      destruct (Params patch !! "factor") as [[] |]; reflexivity.
  - destruct (String.eqb (Strategy patch) "remove_field"); reflexivity.
Qed.

Lemma patch_loop_repairs (errors : list string) p (todo : list CrossFieldRule) (h : Heap) :
  let due :=
    flat_map (fun rule =>
                match Patch rule with
                | Some patch => if ruleViolated errors (Name rule) then [patch] else []
                | None => []
                end) todo in
  match repair_all due (heap_get h p) with
  | Some m' =>
    exists h', patch_loop h p errors todo = (h', None) /\
               heap_get h' p = m' /\ forall l, l <> p -> h' !! l = h !! l
  | None =>
    exists h' err, patch_loop h p errors todo = (h', Some err) /\
                   forall l, l <> p -> h' !! l = h !! l
  end.
Proof.
  revert h. induction todo as [| rule todo IH]; intros h; simpl.
  - exists h. repeat split.
  - destruct (Patch rule) as [patch |]; [| apply IH].
    destruct (ruleViolated errors (Name rule)); [| apply IH].
    simpl. rewrite applyPatch_repair.
    destruct (repair patch (heap_get h p)) as [m1 |] eqn:Hrepair.
    + specialize (IH (<[p := m1]> h)). cbv zeta in IH.
      rewrite heap_get_insert_eq in IH.
      destruct (repair_all _ m1) as [m' |].
      * destruct IH as (h' & Hrun & Hget & Hother).
        exists h'. split; [exact Hrun |]. split; [exact Hget |].
        intros l Hl. rewrite (Hother l Hl). apply lookup_insert_ne. congruence.
      * destruct IH as (h' & err & Hrun & Hother).
        exists h', err. split; [exact Hrun |].
        intros l Hl. rewrite (Hother l Hl). apply lookup_insert_ne. congruence.
    + eexists _, _. split; [reflexivity |]. intros l Hl. reflexivity.
Qed.

(** [PatchRecord] on a record of the heap: the copy is a new map, the
    repairs go to the copy, every map the heap held is left as it was. *)
Lemma PatchRecord_repairs (v : Validator) (h : Heap) (data : loc) (errors : list string) :
  is_Some (h !! data) ->
  match repair_all (repairs_due v errors) (heap_get h data) with
  | Some m' =>
    exists h' patched,
      PatchRecord v h data errors = (h', (Some patched, None)) /\
      h !! patched = None /\ h' !! patched = Some m' /\
      forall l, l <> patched -> h' !! l = h !! l
  | None =>
    exists h' err,
      PatchRecord v h data errors = (h', (None, Some err)) /\
      forall l, is_Some (h !! l) -> h' !! l = h !! l
  end.
Proof.
  intros Hdata. unfold PatchRecord, heap_alloc, heap_update. cbv beta iota zeta.
  set (p := fresh (dom h)).
  assert (Hfresh : h !! p = None).
  { apply not_elem_of_dom. apply is_fresh. }
  assert (Hne : p <> data).
  { intros ->. rewrite Hfresh in Hdata. destruct Hdata as [? ?]. discriminate. }
  rewrite insert_insert_eq.
  rewrite (heap_get_insert_ne h p data ∅ Hne).
  pose proof (patch_loop_repairs errors p (rules v) (<[p := heap_get h data]> h)) as Hloop.
  cbv zeta in Hloop. rewrite heap_get_insert_eq in Hloop. fold (repairs_due v errors) in Hloop.
  destruct (repair_all (repairs_due v errors) (heap_get h data)) as [m' |].
  - destruct Hloop as (h' & Hrun & Hget & Hother).
    exists h', p. rewrite Hrun. split; [reflexivity |]. split; [exact Hfresh |].
    split.
    + unfold heap_get in Hget.
      destruct (h' !! p) as [m |] eqn:Hp; [congruence |].
      (* the copy is in the heap: the loop only writes at [p] *)
      exfalso. clear Hget.
      assert (Hin : forall todo h0, is_Some (h0 !! p) ->
                    is_Some ((patch_loop h0 p errors todo).1 !! p)).
      { induction todo as [| rule todo IHt]; intros h0 Hh0; simpl; [exact Hh0 |].
        destruct (Patch rule) as [patch |]; [| apply IHt; exact Hh0].
        destruct (ruleViolated errors (Name rule)); [| apply IHt; exact Hh0].
        rewrite applyPatch_repair.
        destruct (repair patch (heap_get h0 p)); simpl; [| exact Hh0].
        apply IHt. rewrite lookup_insert_eq. eauto. }
      specialize (Hin (rules v) (<[p := heap_get h data]> h)).
      rewrite Hrun in Hin. simpl in Hin. rewrite Hp in Hin.
      destruct Hin as [? Habs]; [rewrite lookup_insert_eq; eauto | discriminate].
    + intros l Hl. rewrite (Hother l Hl). apply lookup_insert_ne. congruence.
  - destruct Hloop as (h' & err & Hrun & Hother).
    exists h', err. rewrite Hrun. split; [reflexivity |].
    intros l Hl.
    assert (Hlp : l <> p) by (intros ->; rewrite Hfresh in Hl; destruct Hl; discriminate).
    rewrite (Hother l Hlp). apply lookup_insert_ne. congruence.
Qed.

(** The message [ValidateRecord] makes for a rule that fails names the
    rule in the way [ruleViolated] looks for. *)
Lemma prefix_append (a b : string) : String.prefix a (a ++ b) = true.
Proof.
  induction a as [| c a IH]; simpl; [destruct b; reflexivity |].
  destruct (ascii_dec c c) as [_ | Hne]; [exact IH | contradiction].
Qed.

Lemma Contains_prefix (s sub : string) : String.prefix sub s = true -> Contains s sub = true.
Proof.
  intros Hpre. destruct s as [| c s].
  - change (String.prefix sub "" || false = true). rewrite Hpre. reflexivity.
  - change (String.prefix sub (String c s) || Contains s sub = true).
    rewrite Hpre. reflexivity.
Qed.

Lemma Contains_middle (pre mid post : string) : Contains (pre ++ (mid ++ post)) mid = true.
Proof.
  induction pre as [| c pre IH].
  - change (Contains (mid ++ post) mid = true).
    apply Contains_prefix, prefix_append.
  - change (String.prefix mid (String c (pre ++ (mid ++ post)))
            || Contains (pre ++ (mid ++ post)) mid = true).
    rewrite IH. apply orb_true_r.
Qed.

Lemma append_assoc3 (a b c : string) : (a ++ b) ++ c = a ++ (b ++ c).
Proof.
  induction a as [| x a IH]; [reflexivity |].
  change (String x ((a ++ b) ++ c) = String x (a ++ (b ++ c))).
  rewrite IH. reflexivity.
Qed.

Lemma failure_names_rule (name e : string) :
  Contains ("Cross-field rule '" ++ name ++ "' failed: " ++ e) ("rule '" ++ name ++ "'") = true.
Proof.
  replace ("Cross-field rule '" ++ name ++ "' failed: " ++ e)
    with ("Cross-field " ++ (("rule '" ++ name ++ "'") ++ (" failed: " ++ e))).
  - apply Contains_middle.
  - rewrite !append_assoc3. reflexivity.
Qed.

Lemma ValidateRecord_keeps (data : gmap string Value) (todo : list CrossFieldRule)
    (acc : list string) (x : string) :
  In x acc ->
  In x (fold_left
          (fun errors rule =>
             match validateCrossFieldRule data rule with
             | Some e => app errors ["Cross-field rule '" ++ Name rule ++ "' failed: " ++ e]
             | None => errors
             end) todo acc).
Proof.
  revert acc. induction todo as [| rule todo IH]; intros acc Hin; simpl; [exact Hin |].
  apply IH. destruct (validateCrossFieldRule data rule); [| exact Hin].
  apply in_or_app. left. exact Hin.
Qed.

Lemma ValidateRecord_reports (v : Validator) (data : gmap string Value) rule e :
  In rule (rules v) -> validateCrossFieldRule data rule = Some e ->
  In ("Cross-field rule '" ++ Name rule ++ "' failed: " ++ e) (ValidateRecord v data).
Proof.
  unfold ValidateRecord. generalize (match parser_Validate data with
                                     | Some e0 => ["Schema validation failed: " ++ e0]
                                     | None => []
                                     end).
  induction (rules v) as [| rule0 todo IH]; intros acc Hin Hfail; [destruct Hin |].
  simpl. destruct Hin as [-> | Hin].
  - rewrite Hfail. apply ValidateRecord_keeps. apply in_or_app. right. left. reflexivity.
  - apply IH; assumption.
Qed.

(** C7. On a record of the heap, [PatchRecord] makes a new map, copies
    the record into it and applies to the copy the patch of every rule
    that declares one and is named among the violated rules (a rule
    that failed in [ValidateRecord] is). When every patch applies, it
    returns the copy; when one fails, as an [adjust_field] patch with
    neither an [adjustment] nor a [factor] does, it returns an error and
    no record. In both cases the record it was given is left as it was,
    and after a failure [generateRecord] keeps that record and does not
    mark it patched. *)
Theorem PatchRecord_contract (v : Validator) (h : Heap) (data : loc) (errors : list string) :
  is_Some (h !! data) ->
  (forall m',
     repair_all (repairs_due v errors) (heap_get h data) = Some m' ->
     exists h' patched,
       PatchRecord v h data errors = (h', (Some patched, None)) /\
       patched <> data /\ h' !! patched = Some m' /\ h' !! data = h !! data) /\
  (repair_all (repairs_due v errors) (heap_get h data) = None ->
     (exists h' err,
        PatchRecord v h data errors = (h', (None, Some err)) /\ h' !! data = h !! data) /\
     (forall record,
        Data record = data -> errors = ValidateRecord v (heap_get h data) ->
        Data (snd (validate_and_patch v h record)) = data /\
        Patched (snd (validate_and_patch v h record)) = Patched record /\
        fst (validate_and_patch v h record) !! data = h !! data)) /\
  (forall patch m,
     Strategy patch = "adjust_field" ->
     Params patch !! "adjustment" = None -> Params patch !! "factor" = None ->
     repair patch m = None) /\
  (forall rule e,
     In rule (rules v) -> validateCrossFieldRule (heap_get h data) rule = Some e ->
     ruleViolated (ValidateRecord v (heap_get h data)) (Name rule) = true).
Proof.
  intros Hdata.
  pose proof (PatchRecord_repairs v h data errors Hdata) as Hpatch.
  split.
  { intros m' Hall. rewrite Hall in Hpatch.
    destruct Hpatch as (h' & patched & Hrun & Hfresh & Hcopy & Hother).
    assert (Hne : patched <> data).
    { intros ->. rewrite Hfresh in Hdata. destruct Hdata; discriminate. }
    exists h', patched. repeat split; try assumption.
    apply Hother. congruence. }
  split.
  { intros Hall. rewrite Hall in Hpatch.
    destruct Hpatch as (h' & err & Hrun & Hkept).
    split; [exists h', err; split; [exact Hrun | exact (Hkept data Hdata)] |].
    intros record Hrecord Herrors.
    unfold validate_and_patch. rewrite Hrecord, <- Herrors.
    destruct (0 <? len errors); simpl; [| repeat split; assumption].
    rewrite Hrun. simpl. repeat split; try reflexivity. exact (Hkept data Hdata). }
  split.
  { intros patch m Hstrategy Hadj Hfactor. unfold repair.
    rewrite Hstrategy, Hadj, Hfactor. reflexivity. }
  intros rule e Hin Hfail. unfold ruleViolated.
  apply existsb_exists.
  exists ("Cross-field rule '" ++ Name rule ++ "' failed: " ++ e).
  split; [apply ValidateRecord_reports; assumption | apply failure_names_rule].
Qed.

(** *** Comparison rules *)

(** The operator [validateComparison] splits on: the first one the
    constraint contains, in the order [>=], [<=], [>], [<]. *)
Definition selectOperator (constraint : string) : option string :=
  if Contains constraint ">=" then Some ">="
  else if Contains constraint "<=" then Some "<="
  else if Contains constraint ">" then Some ">"
  else if Contains constraint "<" then Some "<"
  else None.

(** The comparison an operator stands for. *)
Definition comparison_holds (operator : string) (l r : float) : bool :=
  if String.eqb operator ">=" then f64_ge l r
  else if String.eqb operator "<=" then f64_le l r
  else if String.eqb operator ">" then f64_gt l r
  else f64_lt l r.

Lemma compare_on_split data constraint operator violated lhs rhs :
  Split constraint operator = [lhs; rhs] ->
  (compare_on data constraint operator violated = None <->
   violated (evaluateExpression data (TrimSpace lhs)) (evaluateExpression data (TrimSpace rhs))
   = false).
Proof.
  intros Hsplit. unfold compare_on. rewrite Hsplit.
  destruct (violated _ _); split; intros Hx; congruence.
Qed.

Lemma comparable_negations l r :
  f64_comparable l r = true ->
  f64_lt l r = negb (f64_ge l r) /\ f64_gt l r = negb (f64_le l r) /\
  f64_le l r = negb (f64_gt l r) /\ f64_ge l r = negb (f64_lt l r).
Proof.
  unfold f64_comparable, f64_lt, f64_le, f64_gt, f64_ge.
  destruct (PrimFloat.compare l r); intros Hc; try discriminate; repeat split.
Qed.

Lemma validateComparison_iff data fields constraint operator lhs rhs :
  2 <= len fields ->
  selectOperator (TrimSpace constraint) = Some operator ->
  Split (TrimSpace constraint) operator = [lhs; rhs] ->
  f64_comparable (evaluateExpression data (TrimSpace lhs))
                 (evaluateExpression data (TrimSpace rhs)) = true ->
  (validateComparison data fields constraint = None <->
   comparison_holds operator (evaluateExpression data (TrimSpace lhs))
                             (evaluateExpression data (TrimSpace rhs)) = true).
Proof.
  intros Hlen Hop Hsplit Hcmp.
  destruct (comparable_negations _ _ Hcmp) as (Hlt & Hgt & Hle & Hge).
  unfold validateComparison.
  destruct (Z.ltb_spec (len fields) 2) as [Hbad | _]; [lia |].
  unfold selectOperator in Hop.
  destruct (Contains (TrimSpace constraint) ">=").
  { injection Hop as <-. rewrite (compare_on_split _ _ _ _ _ _ Hsplit).
    unfold comparison_holds. simpl. rewrite Hlt.
    destruct (f64_ge _ _); simpl; split; congruence. }
  destruct (Contains (TrimSpace constraint) "<=").
  { injection Hop as <-. rewrite (compare_on_split _ _ _ _ _ _ Hsplit).
    unfold comparison_holds. simpl. rewrite Hgt.
    destruct (f64_le _ _); simpl; split; congruence. }
  destruct (Contains (TrimSpace constraint) ">").
  { injection Hop as <-. rewrite (compare_on_split _ _ _ _ _ _ Hsplit).
    unfold comparison_holds. simpl. rewrite Hle.
    destruct (f64_gt _ _); simpl; split; congruence. }
  destruct (Contains (TrimSpace constraint) "<"); [| discriminate].
  injection Hop as <-. rewrite (compare_on_split _ _ _ _ _ _ Hsplit).
  unfold comparison_holds. simpl. rewrite Hge.
  destruct (f64_lt _ _); simpl; split; congruence.
Qed.

(** The three forms of a side. *)
Lemma evaluateExpression_forms (data : gmap string Value) (expr : string) :
  let e := TrimSpace expr in
  (Contains e "+" = false -> Contains e "-" = false -> Contains e "*" = false ->
   Contains e "/" = false ->
   evaluateExpression data expr = getNumericValue data e) /\
  (Contains e "+" = true ->
   evaluateExpression data expr =
   fold_left (fun result part => (result + getNumericValue data (TrimSpace part))%float)
             (Split e "+") 0%float) /\
  (forall a b,
     Contains e "+" = false -> Contains e "-" = true -> Split e "-" = [a; b] ->
     evaluateExpression data expr =
     (getNumericValue data (TrimSpace a) - getNumericValue data (TrimSpace b))%float) /\
  (forall a b,
     Contains e "+" = false -> Contains e "-" = false -> Contains e "*" = true ->
     Split e "*" = [a; b] ->
     evaluateExpression data expr =
     (getNumericValue data (TrimSpace a) * getNumericValue data (TrimSpace b))%float).
Proof.
  intros e. unfold evaluateExpression. fold e. unfold binary_on.
  split; [intros -> -> -> ->; reflexivity |].
  split; [intros ->; simpl; reflexivity |].
  split.
  - intros a b -> -> ->. simpl. reflexivity.
  - intros a b -> -> -> ->. simpl. reflexivity.
Qed.

(** The two records of the example of the specification, their numbers
    held as [int], as [int64] or as [float64]. *)
Definition pressure (number : Z -> Value) (systolic diastolic : Z) : gmap string Value :=
  <["systolic" := number systolic]> (<["diastolic" := number diastolic]> ∅).

Definition number_kinds : list (Z -> Value) :=
  [VInt; VInt64; fun n => VFloat64 (float64_of_int n)].

Lemma pressure_example :
  Forall (fun number =>
            validateComparison (pressure number 120 80) ["diastolic"; "systolic"]
                               "diastolic < systolic" = None /\
            exists msg,
              validateComparison (pressure number 80 120) ["diastolic"; "systolic"]
                                 "diastolic < systolic" = Some msg)
         number_kinds.
Proof.
  unfold number_kinds.
  repeat (constructor; [split; [vm_compute; reflexivity | eexists; vm_compute; reflexivity] |]).
  constructor.
Qed.

(** C6, amended. With at least two fields declared, a constraint that
    the operator it is split on (the first it contains among [>=],
    [<=], [>], [<]) cuts in exactly two sides, and sides whose values
    can be compared (neither is NaN): [validateComparison] reports a
    violation exactly when the comparison is false. A side is a field
    reference, a sum of field references joined by [+], or two field
    references joined by [-] or by [*]. With fewer than two fields
    declared it reports an error whatever the constraint. For the
    expression [diastolic < systolic], the record with systolic 120 and
    diastolic 80 has no violation and the one with systolic 80 and
    diastolic 120 has one. *)
Theorem validateComparison_amended :
  (forall (data : gmap string Value) fields constraint operator lhs rhs,
     2 <= len fields ->
     selectOperator (TrimSpace constraint) = Some operator ->
     Split (TrimSpace constraint) operator = [lhs; rhs] ->
     f64_comparable (evaluateExpression data (TrimSpace lhs))
                    (evaluateExpression data (TrimSpace rhs)) = true ->
     (validateComparison data fields constraint = None <->
      comparison_holds operator (evaluateExpression data (TrimSpace lhs))
                                (evaluateExpression data (TrimSpace rhs)) = true)) /\
  (forall (data : gmap string Value) fields constraint,
     len fields < 2 ->
     validateComparison data fields constraint =
     Some "comparison rule requires at least 2 fields") /\
  (forall (data : gmap string Value) expr,
     let e := TrimSpace expr in
     (Contains e "+" = false -> Contains e "-" = false -> Contains e "*" = false ->
      Contains e "/" = false ->
      evaluateExpression data expr = getNumericValue data e) /\
     (Contains e "+" = true ->
      evaluateExpression data expr =
      fold_left (fun result part => (result + getNumericValue data (TrimSpace part))%float)
                (Split e "+") 0%float) /\
     (forall a b,
        Contains e "+" = false -> Contains e "-" = true -> Split e "-" = [a; b] ->
        evaluateExpression data expr =
        (getNumericValue data (TrimSpace a) - getNumericValue data (TrimSpace b))%float) /\
     (forall a b,
        Contains e "+" = false -> Contains e "-" = false -> Contains e "*" = true ->
        Split e "*" = [a; b] ->
        evaluateExpression data expr =
        (getNumericValue data (TrimSpace a) * getNumericValue data (TrimSpace b))%float)) /\
  Forall (fun number =>
            validateComparison (pressure number 120 80) ["diastolic"; "systolic"]
                               "diastolic < systolic" = None /\
            exists msg,
              validateComparison (pressure number 80 120) ["diastolic"; "systolic"]
                                 "diastolic < systolic" = Some msg)
         number_kinds.
Proof.
  split; [exact validateComparison_iff |].
  split.
  { intros data fields constraint Hlen. unfold validateComparison.
    destruct (Z.ltb_spec (len fields) 2) as [_ | Hbad]; [reflexivity | lia]. }
  split; [exact evaluateExpression_forms | exact pressure_example].
Qed.

End ValidatorProperties.

(** *** The rule engine on example inputs *)

(** C6, a counterexample to the claim as stated: one field declared,
    the comparison [diastolic < systolic] true of the record, and a
    failure reported. *)
Lemma comparison_true_and_reported :
  f64_lt (getNumericValue (pressure VInt 120 80) "diastolic")
         (getNumericValue (pressure VInt 120 80) "systolic") = true /\
  validateComparison (pressure VInt 120 80) ["diastolic"] "diastolic < systolic" =
  Some "comparison rule requires at least 2 fields".
Proof. split; vm_compute; reflexivity. Qed.

(** A comparison that is false and not reported: an operand is NaN. *)
Lemma comparison_false_and_not_reported :
  let data : gmap string Value := <["a" := VFloat64 nan]> (<["b" := VFloat64 1]> ∅) in
  f64_lt (getNumericValue data "a") (getNumericValue data "b") = false /\
  validateComparison data ["a"; "b"] "a < b" = None.
Proof. split; vm_compute; reflexivity. Qed.

(** C6, the amended claim on an instance: [a + b >= c]. *)
Lemma validateComparison_amended_example :
  let data : gmap string Value :=
    <["a" := VInt 1]> (<["b" := VInt 2]> (<["c" := VInt 3]> ∅)) in
  (2 <= len ["a"; "b"; "c"] /\
   selectOperator (TrimSpace "a + b >= c") = Some ">=" /\
   Split (TrimSpace "a + b >= c") ">=" = ["a + b "; " c"] /\
   f64_comparable (evaluateExpression data (TrimSpace "a + b "))
                  (evaluateExpression data (TrimSpace " c")) = true) /\
  (validateComparison data ["a"; "b"; "c"] "a + b >= c" = None <->
   comparison_holds ">=" (evaluateExpression data (TrimSpace "a + b "))
                         (evaluateExpression data (TrimSpace " c")) = true).
Proof.
  intros data.
  split; [repeat split; vm_compute; congruence |].
  apply (proj1 (@validateComparison_amended wholeNumbers) data ["a"; "b"; "c"] "a + b >= c"
               ">=" "a + b " " c");
    vm_compute; congruence.
Defined.

(** C10 on an instance: two fields present with null values. *)
Lemma presence_is_key_existence_example :
  let data : gmap string Value := <["card" := VNil]> (<["iban" := VNil]> ∅) in
  exists msg, validateMutualExclusion data ["card"; "iban"] = Some msg.
Proof.
  intros data.
  apply (proj1 presence_is_key_existence data ["card"; "iban"]
               0%nat 1%nat "card" "iban" VNil VNil);
    first [discriminate | reflexivity].
Defined.

(** C7 on an instance: a rule that fails, whose patch has no parameter. *)
Definition no_parameter_rule : CrossFieldRule :=
  {| Name := "total_positive"; Description := ""; Fields := ["total"; "floor"];
     Rule := "comparison"; Constraint := "total >= floor"; Severity := "error";
     Patch := Some {| Strategy := "adjust_field"; Target := "total"; PatchValue := VNil;
                      Params := ∅ |} |}.

Definition below_floor : Heap :=
  <[1%positive := <["total" := VInt 1]> (<["floor" := VInt 5]> ∅)]> ∅.

Lemma PatchRecord_contract_example :
  let v := {| rules := [no_parameter_rule] |} in
  let errors := ValidateRecord v (heap_get below_floor 1%positive) in
  is_Some (below_floor !! 1%positive) /\
  repair_all (repairs_due v errors) (heap_get below_floor 1%positive) = None /\
  exists h' err,
    PatchRecord v below_floor 1%positive errors = (h', (None, Some err)) /\
    h' !! 1%positive = below_floor !! 1%positive.
Proof.
  intros v errors.
  assert (Hdata : is_Some (below_floor !! 1%positive)) by (eexists; reflexivity).
  assert (Hfail : repair_all (repairs_due v errors) (heap_get below_floor 1%positive) = None)
    by (vm_compute; reflexivity).
  split; [exact Hdata |]. split; [exact Hfail |].
  exact (proj1 (proj1 (proj2 (@PatchRecord_contract wholeNumbers v below_floor 1%positive
                                                     errors Hdata)) Hfail)).
Defined.

(** * Further properties of the code *)

(** ** The derived seed and the base seed *)

(** X1. The seed of a path and a record index is the base seed combined by
    exclusive or with a hash of 63 bits that does not depend on it: the
    seed has the sign of the base seed, it is a 64-bit integer when the
    base seed is one, and two base seeds never give the same seed. *)
Theorem deriveSeed_base_seed (b : Z) (path : string) (r : Z) :
  deriveSeed b path r = Z.lxor b (deriveSeed 0 path r) /\
  0 <= deriveSeed 0 path r < 2 ^ 63 /\
  (deriveSeed b path r < 0 <-> b < 0) /\
  (in_int64 b -> in_int64 (deriveSeed b path r)) /\
  (forall b', deriveSeed b path r = deriveSeed b' path r -> b = b').
Proof.
  rewrite !deriveSeed_unfold.
  set (x := Z.land _ _).
  assert (Hx : 0 <= x < 2 ^ 63).
  { unfold x. change 0x7FFFFFFFFFFFFFFF with (Z.ones 63).
    rewrite Z.land_ones by lia. apply Z.mod_pos_bound. lia. }
  rewrite Z.lxor_0_l.
  split; [reflexivity |]. split; [exact Hx |].
  split; [pose proof (Z.lxor_nonneg b x); lia |].
  split.
  { intros Hb. pose proof (deriveSeed_in_int64 b path r Hb) as Hin.
    rewrite deriveSeed_unfold in Hin. exact Hin. }
  intros b' Heq. rewrite deriveSeed_unfold in Heq. fold x in Heq.
  apply (f_equal (fun y => Z.lxor y x)) in Heq.
  rewrite !Z.lxor_assoc, Z.lxor_nilpotent, !Z.lxor_0_r in Heq. exact Heq.
Qed.

(** ** More of the generator *)

Section GeneratorFurther.

Context `{MathRand} `{GoTime}.

(** The dispatch of [generateValue] on the type of the node. *)
Definition generateValue_by_type (g : DeterministicGenerator) (rt : Runtime)
    (node : SchemaNode) : G Value :=
  let as_string := s <- generateString rt node ;; ret (VString s) in
  if String.eqb (Type_ node) "string" then as_string
  else if String.eqb (Type_ node) "integer" then
    n <- generateInteger node ;; ret (VInt64 n)
  else if String.eqb (Type_ node) "number" then
    f <- generateNumber node ;; ret (VFloat64 f)
  else if String.eqb (Type_ node) "boolean" then
    f <- Float64 ;; ret (VBool (f64_lt f 0.5))
  else if String.eqb (Type_ node) "array" then
    l <- generateArray g rt node ;; ret (VSlice l)
  else if String.eqb (Type_ node) "object" then
    m <- generateObject g rt node ;; ret (VMap m)
  else if String.eqb (Type_ node) "null" then ret VNil
  else as_string.

Lemma generateValue_unfold g rt node :
  generateValue g rt node =
  if 0 <? len (Enum node) then
    idx <- Intn (len (Enum node)) ;;
    ret (nth (Z.to_nat idx) (Enum node) VNil)
  else if 0 <? len (Examples node) then
    f <- Float64 ;;
    if f64_lt f 0.7 then
      idx <- Intn (len (Examples node)) ;;
      ret (nth (Z.to_nat idx) (Examples node) VNil)
    else generateValue_by_type g rt node
  else generateValue_by_type g rt node.
Proof. destruct node. reflexivity. Qed.

Lemma len_pos {A : Type} (l : list A) : l <> [] -> 0 < len l.
Proof. destruct l; [congruence | unfold len; simpl; lia]. Qed.


(** [values[rng.Intn(len(values))]], with the index drawn. *)
Lemma draw_element_at (values : list Value) (r : Rand) :
  values <> [] ->
  exists v,
    values !! Z.to_nat (fst (rand_Intn (len values) r)) = Some v /\
    (idx <- Intn (len values) ;; ret (nth (Z.to_nat idx) values VNil)) r =
    Ok (v, snd (rand_Intn (len values) r)).
Proof.
  intros Hne. pose proof (len_pos values Hne) as Hpos.
  unfold gbind, Intn, ret.
  destruct (Z.leb_spec (len values) 0) as [Hbad | _]; [lia |].
  pose proof (rand_Intn_range (len values) r Hpos) as Hidx.
  destruct (rand_Intn (len values) r) as [idx r']. simpl in *.
  destruct (values !! Z.to_nat idx) as [v |] eqn:Hat.
  - exists v. split; [reflexivity |].
    rewrite (nth_lookup_Some values (Z.to_nat idx) VNil v Hat). reflexivity.
  - apply lookup_ge_None in Hat. unfold len in Hidx. lia.
Qed.

(** X2. A node with an enum: whatever its type, its other constraints and
    the seed, the value generated is the element of the enum at the
    index that one draw below the length of the enum gives, at the
    price of that draw; the generation cannot fail. *)
Theorem enum_value_is_drawn (g : DeterministicGenerator) (rt : Runtime) (node : SchemaNode) :
  Enum node <> [] ->
  (forall r, exists v,
     Enum node !! Z.to_nat (fst (rand_Intn (len (Enum node)) r)) = Some v /\
     generateValue g rt node r = Ok (v, snd (rand_Intn (len (Enum node)) r)) /\
     In v (Enum node)) /\
  (forall recordIndex, exists v,
     Enum node !! Z.to_nat (fst (rand_Intn (len (Enum node))
                                   (NewRand (deriveSeed (baseSeed g) (Path node) recordIndex))))
     = Some v /\
     GenerateValue g rt node recordIndex = Ok v /\ In v (Enum node)).
Proof.
  intros Hne.
  assert (Hgen : forall r, exists v,
             Enum node !! Z.to_nat (fst (rand_Intn (len (Enum node)) r)) = Some v /\
             generateValue g rt node r = Ok (v, snd (rand_Intn (len (Enum node)) r)) /\
             In v (Enum node)).
  { intros r. rewrite generateValue_unfold.
    destruct (Z.ltb_spec 0 (len (Enum node))) as [_ | Hbad];
      [| pose proof (len_pos _ Hne); lia].
    destruct (draw_element_at (Enum node) r Hne) as (v & Hat & Hrun).
    exists v. split; [exact Hat |]. split; [exact Hrun |].
    apply list_elem_of_In. exact (list_elem_of_lookup_2 _ _ _ Hat). }
  split; [exact Hgen |].
  intros recordIndex. unfold GenerateValue, run_fresh.
  destruct (Hgen (NewRand (deriveSeed (baseSeed g) (Path node) recordIndex)))
    as (v & Hat & Hrun & Hin).
  rewrite Hrun. exists v. split; [exact Hat |]. split; [reflexivity | exact Hin].
Qed.


(** *** The length of an array *)

(** The bounds [generateArray] draws the length between: 1 and 5 when
    absent, the upper one raised to the lower one when it is given and
    smaller. *)
Definition array_lo (node : SchemaNode) : Z :=
  match MinItems node with Some m => m | None => 1 end.

Definition array_hi (node : SchemaNode) : Z :=
  match MaxItems node with Some m => Z.max m (array_lo node) | None => 5 end.

Lemma collect_items_all (item : nat -> outcome Value) (todo : list nat) :
  (forall i, In i todo -> exists v, item i = Ok v) ->
  exists vs, collect_items item todo = Ok vs /\ length vs = length todo.
Proof.
  induction todo as [| i todo IH]; intros Hall.
  - exists []. split; reflexivity.
  - destruct (Hall i (or_introl eq_refl)) as (v & Hv).
    destruct IH as (vs & Hvs & Hlen); [intros j Hj; apply Hall; right; exact Hj |].
    exists (v :: vs). simpl. rewrite Hv, Hvs. split; [reflexivity | simpl; congruence].
Qed.

Lemma generate_item_at_item g rt node items i v :
  array_item g rt node items i = Ok v ->
  generate_item_at g node (generateValue g rt items) i = Ok v.
Proof.
  unfold generate_item_at, array_item. intros ->. reflexivity.
Qed.

(** X4. An array node with an item schema and consistent bounds whose items
    can be generated: the length is the lower bound plus one draw below
    the width of the bounds, so it lies between the bounds, and the
    stream of the caller advances by that draw only, whatever the
    items are. *)
Theorem generateArray_length (g : DeterministicGenerator) (rt : Runtime)
    (node items : SchemaNode) (r : Rand) :
  Items node = Some items ->
  0 <= array_lo node <= array_hi node -> array_hi node <= 2 ^ 44 ->
  (forall i : nat, Z.of_nat i < array_hi node ->
                   exists v, array_item g rt node items i = Ok v) ->
  exists l,
    generateArray g rt node r =
    Ok (l, snd (rand_Intn (array_hi node - array_lo node + 1) r)) /\
    len l = array_lo node + fst (rand_Intn (array_hi node - array_lo node + 1) r) /\
    array_lo node <= len l <= array_hi node.
Proof.
  intros Hitems Hbounds Hcap Hall.
  unfold generateArray, generateArray_with. rewrite Hitems.
  fold (array_lo node).
  assert (Hhi : match MaxItems node with
                | Some m => if m <? array_lo node then array_lo node else m
                | None => 5
                end = array_hi node).
  { unfold array_hi. destruct (MaxItems node) as [m |]; [| reflexivity].
    destruct (Z.ltb_spec m (array_lo node)); lia. }
  rewrite Hhi.
  set (width := array_hi node - array_lo node + 1).
  assert (Hwidth : wrap64 (wrap64 (array_hi node - array_lo node) + 1) = width).
  { rewrite (wrap64_id (array_hi node - array_lo node))
      by (unfold in_int64, minInt64, maxInt64; lia).
    apply wrap64_id. unfold in_int64, minInt64, maxInt64, width. lia. }
  rewrite Hwidth.
  pose proof (rand_Intn_range width r ltac:(unfold width; lia)) as Hn.
  unfold gbind at 1. unfold Intn.
  destruct (Z.leb_spec width 0) as [Hbad | _]; [unfold width in Hbad; lia |].
  destruct (rand_Intn width r) as [n r1]. cbn [fst snd] in *.
  rewrite (wrap64_id (array_lo node + n))
    by (unfold in_int64, minInt64, maxInt64, width in *; lia).
  unfold gbind at 1. unfold make_check.
  change (2 ^ 48 / 16) with (2 ^ 44).
  destruct (Z.ltb_spec (array_lo node + n) 0) as [Hneg | _]; [lia |].
  destruct (Z.ltb_spec (2 ^ 44) (array_lo node + n)) as [Hbig | _];
    [unfold width in Hn; lia |].
  cbn [orb]. unfold ret at 1.
  destruct (collect_items_all (generate_item_at g node (generateValue g rt items))
              (seq 0 (Z.to_nat (array_lo node + n)))) as (vs & Hvs & Hlen).
  { intros i Hi. apply in_seq in Hi.
    destruct (Hall i) as (v & Hv); [unfold width in Hn; lia |].
    exists v. apply generate_item_at_item. exact Hv. }
  rewrite Hvs. exists vs. split; [reflexivity |].
  rewrite length_seq in Hlen.
  assert (Hl : len vs = array_lo node + n) by (unfold len; lia).
  split; [exact Hl |]. unfold width in Hn. lia.
Qed.

(** X5. [minItems] above 5 without [maxItems]: the upper bound stays 5, the
    width of the bounds is not positive and the draw of the length
    panics, before any item is generated. *)
Theorem generateArray_panics_without_maxItems (g : DeterministicGenerator) (rt : Runtime)
    (node items : SchemaNode) (m : Z) (r : Rand) :
  Items node = Some items -> MinItems node = Some m -> MaxItems node = None ->
  5 < m <= maxInt64 ->
  generateArray g rt node r = Panic "invalid argument to Intn".
Proof.
  intros Hitems Hmin Hmax Hm.
  unfold generateArray, generateArray_with. rewrite Hitems, Hmin, Hmax.
  unfold maxInt64 in Hm.
  rewrite (wrap64_id (5 - m)) by (unfold in_int64, minInt64, maxInt64; lia).
  rewrite (wrap64_id (5 - m + 1)) by (unfold in_int64, minInt64, maxInt64; lia).
  unfold gbind at 1. unfold Intn.
  destruct (Z.leb_spec (5 - m + 1) 0) as [_ | Hbad]; [reflexivity | lia].
Qed.

(** *** The width of an integer range *)

(** X6. [generateInteger] panics exactly when the bounds are [2^63 - 1] or
    more apart: the width [max - min + 1] the draw is asked for has
    then wrapped around to a value that is not positive. *)
Theorem generateInteger_panics_iff_wide (node : SchemaNode) (r : Rand) :
  generateInteger node r = Panic "invalid argument to Int63n" <->
  maxInt64 <= integer_hi node - integer_lo node.
Proof.
  split.
  - intros Hpanic.
    destruct (Z.lt_ge_cases (integer_hi node - integer_lo node) maxInt64) as [Hlt | Hge];
      [| exact Hge].
    rewrite (generateInteger_unfold node r Hlt) in Hpanic. discriminate.
  - intros Hwide.
    pose proof (integer_lo_range node) as Hlo.
    pose proof (integer_hi_range node) as Hhi.
    unfold generateInteger. fold (integer_lo node).
    set (max0 := match Maximum node with Some m => int64_of_float64 m | None => 1000 end).
    assert (Hmax : (if max0 <? integer_lo node then integer_lo node else max0)
                   = integer_hi node).
    { unfold integer_hi. fold max0. destruct (Z.ltb_spec max0 (integer_lo node)); lia. }
    rewrite Hmax.
    set (d := integer_hi node - integer_lo node) in *.
    assert (Hw : wrap64 (wrap64 d + 1) <= 0).
    { unfold in_int64, minInt64, maxInt64 in *.
      destruct (Z.eq_dec d (2 ^ 63 - 1)) as [-> | Hne].
      - vm_compute. discriminate.
      - assert (Hd : wrap64 d = d - 2 ^ 64).
        { unfold wrap64.
          replace (d + 2 ^ 63) with (d - 2 ^ 63 + 1 * 2 ^ 64) by lia.
          rewrite Z.mod_add by lia. rewrite Z.mod_small by lia. lia. }
        rewrite Hd. rewrite wrap64_id by (unfold in_int64, minInt64, maxInt64; lia).
        lia. }
    unfold gbind at 1. unfold Int63n.
    destruct (Z.leb_spec (wrap64 (wrap64 d + 1)) 0) as [_ | Hbad]; [reflexivity | lia].
Qed.

(** *** The keys of an object *)





(** An item schema of type integer, without enum or examples and with
    bounds less than [2^63 - 1] apart, can be generated at every
    position. *)
Lemma array_item_integer g rt node items (i : nat) :
  Type_ items = "integer" -> Enum items = [] -> Examples items = [] ->
  integer_hi items - integer_lo items < maxInt64 ->
  exists v, array_item g rt node items i = Ok v.
Proof.
  intros Htype Henum Hexamples Hwidth.
  unfold array_item, run_fresh.
  rewrite generateValue_unfold, Henum, Hexamples.
  change (0 <? len []) with false. cbv iota.
  unfold generateValue_by_type. rewrite Htype.
  change ("integer" =? "string")%string with false.
  change ("integer" =? "integer")%string with true. cbv iota.
  unfold gbind. rewrite (generateInteger_unfold items _ Hwidth).
  eexists. reflexivity.
Qed.

End GeneratorFurther.

(** [{"enum": ["red", "green", "blue"], "type": "integer", "minimum": 5}] *)
Definition colour_enum : SchemaNode :=
  mkSchemaNode "integer" None None [] [VString "red"; VString "green"; VString "blue"] []
               "" "" None None (Some 5%float) None None None None
               "" false [] "colour" false 0.9.


(** [{"type": "array", "minItems": 8, "items": {"type": "integer"}}] *)
Definition array_min8 : SchemaNode :=
  mkSchemaNode "array" None (Some (Examples.node_of_type "integer" "tags[]"))
               [] [] [] "" "" None None None None (Some 8) None None
               "" false [] "tags" false 0.9.


(** An enum of three colours on a node of type integer: the colour at
    the index drawn is generated for the record 7. *)
Lemma enum_value_is_drawn_example :
  exists v,
    [VString "red"; VString "green"; VString "blue"]
      !! Z.to_nat (fst (@rand_Intn lcgRand 3 (NewRand (deriveSeed 42 "colour" 7)))) = Some v /\
    @GenerateValue lcgRand secondsClock (NewDeterministicGenerator 42) Examples.in_order
                   colour_enum 7 = Ok v /\
    In v [VString "red"; VString "green"; VString "blue"].
Proof.
  exact (proj2 (@enum_value_is_drawn lcgRand secondsClock (NewDeterministicGenerator 42)
                  Examples.in_order colour_enum ltac:(discriminate)) 7).
Defined.


(** An array of integers without bounds on its length has from 1 to 5
    elements. *)
Lemma generateArray_length_example :
  exists l,
    @generateArray lcgRand secondsClock (NewDeterministicGenerator 12345) Examples.in_order
                   Examples.integer_array 0 =
    Ok (l, snd (@rand_Intn lcgRand 5 0)) /\
    1 <= len l <= 5.
Proof.
  destruct (@generateArray_length lcgRand secondsClock (NewDeterministicGenerator 12345)
              Examples.in_order Examples.integer_array
              (Examples.node_of_type "integer" "tags[]") 0 eq_refl
              ltac:(vm_compute; split; discriminate) ltac:(vm_compute; discriminate)
              (fun i _ =>
                 @array_item_integer lcgRand secondsClock (NewDeterministicGenerator 12345)
                   Examples.in_order Examples.integer_array
                   (Examples.node_of_type "integer" "tags[]") i
                   eq_refl eq_refl eq_refl ltac:(vm_compute; reflexivity)))
    as (l & Hrun & _ & Hlen).
  exists l. split; [exact Hrun | exact Hlen].
Defined.

(** At least 8 items and no upper bound. *)
Lemma generateArray_panics_without_maxItems_example :
  @generateArray lcgRand secondsClock (NewDeterministicGenerator 12345) Examples.in_order
                 array_min8 0 = Panic "invalid argument to Intn".
Proof.
  apply (@generateArray_panics_without_maxItems lcgRand secondsClock
           (NewDeterministicGenerator 12345) Examples.in_order array_min8
           (Examples.node_of_type "integer" "tags[]") 8 0 eq_refl eq_refl eq_refl).
  vm_compute. split; [reflexivity | discriminate].
Defined.


(** ** Decimal digits: what [%0wd] writes *)

Fixpoint all_digits (s : string) : bool :=
  match s with
  | EmptyString => true
  | String c s' => is_digit c && all_digits s'
  end.

(** A string of exactly [w] decimal digits. *)
Definition digit_string (w : Z) (s : string) : Prop :=
  strlen s = w /\ all_digits s = true.

(** The number the digits of [d] denote after those of [acc]. *)
Fixpoint uint_value (d : Decimal.uint) (acc : Z) : Z :=
  match d with
  | Decimal.Nil => acc
  | Decimal.D0 d => uint_value d (10 * acc)
  | Decimal.D1 d => uint_value d (10 * acc + 1)
  | Decimal.D2 d => uint_value d (10 * acc + 2)
  | Decimal.D3 d => uint_value d (10 * acc + 3)
  | Decimal.D4 d => uint_value d (10 * acc + 4)
  | Decimal.D5 d => uint_value d (10 * acc + 5)
  | Decimal.D6 d => uint_value d (10 * acc + 6)
  | Decimal.D7 d => uint_value d (10 * acc + 7)
  | Decimal.D8 d => uint_value d (10 * acc + 8)
  | Decimal.D9 d => uint_value d (10 * acc + 9)
  end.

Lemma string_of_uint_digits (d : Decimal.uint) :
  all_digits (NilEmpty.string_of_uint d) = true /\
  String.length (NilEmpty.string_of_uint d) = Decimal.nb_digits d.
Proof.
  induction d as [| d [IH1 IH2] | d [IH1 IH2] | d [IH1 IH2] | d [IH1 IH2] | d [IH1 IH2]
                  | d [IH1 IH2] | d [IH1 IH2] | d [IH1 IH2] | d [IH1 IH2] | d [IH1 IH2]];
    simpl; [split; reflexivity | ..]; rewrite IH1, IH2; split; reflexivity.
Qed.

Lemma string_of_uint_value (d : Decimal.uint) (acc : Z) :
  digits_value acc (NilEmpty.string_of_uint d) = Some (uint_value d acc).
Proof.
  revert acc. induction d; intros acc; simpl; [reflexivity | ..];
    rewrite IHd; f_equal; f_equal; vm_compute byte_of_ascii; lia.
Qed.

Lemma uint_value_acc (d : Decimal.uint) (acc : positive) :
  uint_value d (Z.pos acc) = Z.pos (Pos.of_uint_acc d acc).
Proof.
  revert acc. induction d; intros acc; simpl; [reflexivity | ..];
    rewrite <- IHd; f_equal; lia.
Qed.

Lemma uint_value_of_uint (d : Decimal.uint) :
  uint_value d 0 = Z.of_N (Pos.of_uint d).
Proof.
  induction d; simpl; [reflexivity | exact IHd | ..];
    rewrite <- uint_value_acc; reflexivity.
Qed.

Lemma uint_value_lower (d : Decimal.uint) (acc : Z) :
  0 <= acc -> acc * 10 ^ Z.of_nat (Decimal.nb_digits d) <= uint_value d acc.
Proof.
  revert acc. induction d; intros acc Hacc; simpl Decimal.nb_digits; simpl uint_value;
    [simpl; lia | ..];
    rewrite Nat2Z.inj_succ, Z.pow_succ_r by lia;
    (etransitivity; [| apply IHd; lia]);
    pose proof (Z.pow_pos_nonneg 10 (Z.of_nat (Decimal.nb_digits d)) ltac:(lia) ltac:(lia));
    nia.
Qed.

(** The decimal notation of a positive number below [10^w] has at most
    [w] digits. *)
Lemma to_uint_digits (p : positive) (w : Z) :
  Z.pos p < 10 ^ w -> Z.of_nat (Decimal.nb_digits (Pos.to_uint p)) <= w.
Proof.
  intros Hp.
  assert (Hw : 0 <= w).
  { destruct (Z.lt_ge_cases w 0) as [Hneg | Hpos]; [| exact Hpos].
    rewrite Z.pow_neg_r in Hp by exact Hneg. lia. }
  pose proof (DecimalPos.Unsigned.of_to p) as Hof.
  pose proof (DecimalPos.Unsigned.to_of (Pos.to_uint p)) as Hnorm.
  rewrite Hof in Hnorm. simpl in Hnorm.
  pose proof (DecimalPos.Unsigned.to_uint_nonzero p) as Hnonzero.
  pose proof (uint_value_of_uint (Pos.to_uint p)) as Hvalue.
  rewrite Hof in Hvalue. simpl in Hvalue.
  set (d := Pos.to_uint p) in *. clearbody d.
  assert (Hlead : forall l i, 1 <= i ->
            uint_value l i = Z.pos p -> Z.of_nat (S (Decimal.nb_digits l)) <= w).
  { intros l i Hi Hl.
    pose proof (uint_value_lower l i ltac:(lia)) as Hlow.
    rewrite Hl in Hlow.
    assert (Hpow : 10 ^ Z.of_nat (Decimal.nb_digits l) < 10 ^ w).
    { pose proof (Z.pow_pos_nonneg 10 (Z.of_nat (Decimal.nb_digits l)) ltac:(lia) ltac:(lia)).
      nia. }
    apply Z.pow_lt_mono_r_iff in Hpow; lia. }
  destruct d; simpl in Hvalue; simpl Decimal.nb_digits;
    try (eapply Hlead; [| exact Hvalue]; lia).
  - lia.
  - exfalso. unfold Decimal.unorm in Hnorm. simpl in Hnorm.
    destruct (Decimal.nzhead d) eqn:Hhead;
      try discriminate Hnorm;
      try exact (DecimalFacts.nzhead_nonzero _ _ Hhead).
    apply Hnonzero. exact Hnorm.
Qed.

Lemma all_digits_app (s t : string) :
  all_digits (s ++ t) = all_digits s && all_digits t.
Proof.
  induction s as [| c s IH]; [reflexivity |].
  change (String c s ++ t) with (String c (s ++ t)). simpl. rewrite IH.
  apply andb_assoc.
Qed.

Lemma length_app (s t : string) :
  String.length (s ++ t) = (String.length s + String.length t)%nat.
Proof.
  induction s as [| c s IH]; [reflexivity |].
  change (String c s ++ t) with (String c (s ++ t)). simpl. congruence.
Qed.

Lemma zeros_digits (n : nat) :
  all_digits (repeat_char "0" n) = true /\ String.length (repeat_char "0" n) = n.
Proof.
  induction n as [| n [IH1 IH2]]; [split; reflexivity |].
  simpl. rewrite IH1, IH2. split; reflexivity.
Qed.

Lemma zeros_value (n : nat) (s : string) :
  digits_value 0 (repeat_char "0" n ++ s) = digits_value 0 s.
Proof.
  induction n as [| n IH]; [reflexivity |].
  change (repeat_char "0" (S n) ++ s) with (String "0" (repeat_char "0" n ++ s)).
  simpl. exact IH.
Qed.

(** [itoa] of a natural number: its digits, as many as its size needs. *)
Lemma itoa_digits (v w : Z) :
  0 < w -> 0 <= v < 10 ^ w ->
  all_digits (itoa v) = true /\ strlen (itoa v) <= w /\ digits_value 0 (itoa v) = Some v.
Proof.
  intros Hw Hv. unfold itoa, strlen.
  destruct v as [| p | p]; [| | lia].
  - simpl. repeat split. lia.
  - change (NilEmpty.string_of_int (Z.to_int (Z.pos p)))
      with (NilEmpty.string_of_uint (Pos.to_uint p)).
    destruct (string_of_uint_digits (Pos.to_uint p)) as [Hall Hlen].
    split; [exact Hall |]. split.
    + rewrite Hlen. apply to_uint_digits. lia.
    + rewrite string_of_uint_value, uint_value_of_uint, DecimalPos.Unsigned.of_to.
      reflexivity.
Qed.

(** [%0wd] of a natural number below [10^w]: exactly [w] digits, which
    read back as the number. *)
Lemma pad0_digits (w v : Z) :
  0 < w -> 0 <= v < 10 ^ w ->
  digit_string w (pad0 w v) /\ digits_value 0 (pad0 w v) = Some v.
Proof.
  intros Hw Hv. destruct (itoa_digits v w Hw Hv) as (Hall & Hlen & Hvalue).
  unfold pad0. rewrite Z.abs_eq by lia.
  destruct (Z.ltb_spec v 0) as [Hneg | _]; [lia |].
  destruct (zeros_digits (Z.to_nat (w - strlen (itoa v)))) as [Hzeros Hcount].
  unfold digit_string, strlen in *.
  rewrite length_app, all_digits_app, Hzeros, Hall, Hcount, zeros_value.
  repeat split; [lia | exact Hvalue].
Qed.

(** ** package regexp: the anchored patterns of the repository

    Every pattern the repository compiles has the form [^...$] over
    literal characters, character classes of ASCII ranges, the escapes
    [\d], [\.] and [\-], groups, and the repetitions [{n}], [{n,m}] and
    [?]. That part of the syntax of Go is modelled; [compile] returns
    [None] on every other pattern. Without flags [^] and [$] match at
    the two ends of the text only, and [\d] is an ASCII digit. A class
    of ASCII ranges accepts no byte of a character outside ASCII, so the
    match can be decided byte by byte. *)

Module regexp.

Inductive Regexp : Type :=
| EmptyMatch
| CharClass (ranges : list (ascii * ascii))
| Concat (a b : Regexp)
| Repeat (lo hi : nat) (a : Regexp).

Definition in_class (ranges : list (ascii * ascii)) (c : ascii) : bool :=
  existsb (fun range =>
             (byte_of_ascii (fst range) <=? byte_of_ascii c)
             && (byte_of_ascii c <=? byte_of_ascii (snd range)))
          ranges.

(** *** The parser *)

Definition is_special (c : ascii) : bool :=
  existsb (Ascii.eqb c) (list_ascii_of_string "\.+*?()|[]{}^$") || (127 <? byte_of_ascii c).

Fixpoint take_digits (l : list ascii) (acc : list ascii) : list ascii * list ascii :=
  match l with
  | c :: l' => if is_digit c then take_digits l' (c :: acc) else (rev acc, l)
  | [] => (rev acc, [])
  end.

(** A repetition count: decimal digits, at most 1000. *)
Definition take_number (l : list ascii) : option (nat * list ascii) :=
  let '(ds, rest) := take_digits l [] in
  match ds with
  | [] => None
  | _ =>
    match digits_value 0 (string_of_chars ds) with
    | Some n => if n <=? 1000 then Some (Z.to_nat n, rest) else None
    | None => None
    end
  end.

(** The escapes: a class for [\d], the character itself for an escaped
    punctuation character. *)
Definition escape (c : ascii) : option (list (ascii * ascii)) :=
  if Ascii.eqb c "d" then Some [("0"%char, "9"%char)]
  else if Ascii.eqb c "." || Ascii.eqb c "-" then Some [(c, c)]
  else None.

(** The items of a class after [[], up to the closing bracket. *)
Fixpoint class_items (l : list ascii) (acc : list (ascii * ascii))
    : option (list (ascii * ascii) * list ascii) :=
  match l with
  | [] => None
  | c :: rest =>
    if Ascii.eqb c "]" then
      match acc with
      | [] => None
      | _ => Some (rev acc, rest)
      end
    else if Ascii.eqb c "\" then
      match rest with
      | e :: rest' =>
        match escape e with
        | Some ranges => class_items rest' (app (rev ranges) acc)
        | None => None
        end
      | [] => None
      end
    else if is_special c || Ascii.eqb c "-" then None
    else
      match rest with
      | dash :: hi :: rest' =>
        if Ascii.eqb dash "-" then
          if is_special hi || Ascii.eqb hi "-" then None
          else if byte_of_ascii hi <? byte_of_ascii c then None
          else class_items rest' ((c, hi) :: acc)
        else class_items rest ((c, c) :: acc)
      | _ => class_items rest ((c, c) :: acc)
      end
  end.

(** The repetition after an atom, if any. *)
Definition parse_quantifier (l : list ascii) : option (option (nat * nat) * list ascii) :=
  match l with
  | c :: rest =>
    if Ascii.eqb c "?" then Some (Some (0, 1)%nat, rest)
    else if Ascii.eqb c "*" || Ascii.eqb c "+" then None
    else if Ascii.eqb c "{" then
      match take_number rest with
      | Some (n, c' :: rest') =>
        if Ascii.eqb c' "}" then Some (Some (n, n), rest')
        else if Ascii.eqb c' "," then
          match take_number rest' with
          | Some (m, c'' :: rest'') =>
            if Ascii.eqb c'' "}" && (n <=? m)%nat then Some (Some (n, m), rest'') else None
          | _ => None
          end
        else None
      | _ => None
      end
    else Some (None, l)
  | [] => Some (None, l)
  end.

Definition starts_quantifier (l : list ascii) : bool :=
  match l with
  | c :: _ => Ascii.eqb c "?" || Ascii.eqb c "*" || Ascii.eqb c "+" || Ascii.eqb c "{"
  | [] => false
  end.

(** A sequence of atoms with their repetitions, up to a closing
    parenthesis, the final [$] or the end. Every call reads a
    character, so the length of the pattern is fuel enough. *)
Fixpoint parse_seq (fuel : nat) (l : list ascii) : option (Regexp * list ascii) :=
  match fuel with
  | O => None
  | S fuel' =>
    match l with
    | [] => Some (EmptyMatch, [])
    | c :: rest =>
      if Ascii.eqb c ")" || Ascii.eqb c "$" then Some (EmptyMatch, l)
      else
        let atom :=
          if Ascii.eqb c "[" then
            match class_items rest [] with
            | Some (ranges, rest') => Some (CharClass ranges, rest')
            | None => None
            end
          else if Ascii.eqb c "(" then
            match parse_seq fuel' rest with
            | Some (group, close :: rest') =>
              if Ascii.eqb close ")" then Some (group, rest') else None
            | _ => None
            end
          else if Ascii.eqb c "\" then
            match rest with
            | e :: rest' =>
              match escape e with
              | Some ranges => Some (CharClass ranges, rest')
              | None => None
              end
            | [] => None
            end
          else if is_special c then None
          else Some (CharClass [(c, c)], rest) in
        match atom with
        | Some (a, rest1) =>
          match parse_quantifier rest1 with
          | Some (quantifier, rest2) =>
            if starts_quantifier rest2 && match quantifier with Some _ => true | None => false end
            then None
            else
              match parse_seq fuel' rest2 with
              | Some (tail, rest3) =>
                Some (Concat (match quantifier with
                              | Some (lo, hi) => Repeat lo hi a
                              | None => a
                              end) tail, rest3)
              | None => None
              end
          | None => None
          end
        | None => None
        end
    end
  end.

(** [regexp.Compile] on the patterns of the modelled syntax. *)
Definition compile (pattern : string) : option Regexp :=
  match list_ascii_of_string pattern with
  | c :: l =>
    if Ascii.eqb c "^" then
      match parse_seq (S (length l)) l with
      | Some (re, [dollar]) => if Ascii.eqb dollar "$" then Some re else None
      | _ => None
      end
    else None
  | [] => None
  end.

(** *** The matcher *)

(** Up to [n] more rounds of [step]: what can be left of [s]. *)
Fixpoint at_most (step : string -> list string) (n : nat) (s : string) : list string :=
  match n with
  | O => [s]
  | S n' => s :: flat_map (at_most step n') (step s)
  end.

(** [n] rounds of [step], then [rest]. *)
Fixpoint exactly (step : string -> list string) (n : nat) (rest : string -> list string)
    (s : string) : list string :=
  match n with
  | O => rest s
  | S n' => flat_map (exactly step n' rest) (step s)
  end.

(** What a match of [re] at the start of [s] can leave of [s]. *)
Fixpoint residuals (re : Regexp) (s : string) : list string :=
  match re with
  | EmptyMatch => [s]
  | CharClass ranges =>
    match s with
    | String c s' => if in_class ranges c then [s'] else []
    | EmptyString => []
    end
  | Concat a b => flat_map (residuals b) (residuals a s)
  | Repeat lo hi a => exactly (residuals a) lo (at_most (residuals a) (hi - lo)) s
  end.

Definition is_empty (s : string) : bool :=
  match s with
  | EmptyString => true
  | String _ _ => false
  end.

Definition matches (re : Regexp) (s : string) : bool := existsb is_empty (residuals re s).

(** [regexp.MatchString(pattern, s)], and [MatchString] of a compiled
    pattern; [None] for a pattern outside the modelled syntax. *)
Definition MatchString (pattern s : string) : option bool :=
  match compile pattern with
  | Some re => Some (matches re s)
  | None => None
  end.

End regexp.

(** ** Strings the patterns accept *)

Section Languages.

Import regexp.

(** [x] is in the language of [re]: a match of [re] can read [x] at the
    start of any text and leave the rest. *)
Definition Lang (re : Regexp) (x : string) : Prop :=
  forall t, In t (residuals re (x ++ t)).

Fixpoint class_string (ranges : list (ascii * ascii)) (s : string) : bool :=
  match s with
  | EmptyString => true
  | String c s' => in_class ranges c && class_string ranges s'
  end.

(** Between [lo] and [hi] characters of a class. *)
Definition piece (ranges : list (ascii * ascii)) (lo hi : Z) (x : string) : Prop :=
  lo <= strlen x <= hi /\ class_string ranges x = true.

Definition digits : list (ascii * ascii) := [("0"%char, "9"%char)].

Lemma append_nil_r (s : string) : s ++ "" = s.
Proof.
  induction s as [| c s IH]; [reflexivity |].
  change (String c (s ++ "") = String c s). rewrite IH. reflexivity.
Qed.

Lemma append_cons (c : ascii) (s t : string) : String c s ++ t = String c (s ++ t).
Proof. reflexivity. Qed.

Lemma append_nil_l (t : string) : "" ++ t = t.
Proof. reflexivity. Qed.

Lemma Lang_matches re x : Lang re x -> matches re x = true.
Proof.
  intros Hx. unfold matches. apply existsb_exists. exists "".
  split; [| reflexivity]. specialize (Hx ""). rewrite append_nil_r in Hx. exact Hx.
Qed.

Lemma MatchString_intro pattern re s :
  compile pattern = Some re -> Lang re s -> MatchString pattern s = Some true.
Proof.
  intros Hre Hs. unfold MatchString. rewrite Hre, (Lang_matches re s Hs). reflexivity.
Qed.

Lemma Lang_nil : Lang EmptyMatch "".
Proof. intros t. left. reflexivity. Qed.

Lemma Lang_piece a rest x y : Lang a x -> Lang rest y -> Lang (Concat a rest) (x ++ y).
Proof.
  intros Hx Hy t. simpl. apply in_flat_map. exists (y ++ t).
  split; [rewrite append_assoc3; apply Hx | apply Hy].
Qed.

Lemma Lang_piece_end a x : Lang a x -> Lang (Concat a EmptyMatch) x.
Proof.
  intros Hx. rewrite <- (append_nil_r x). apply Lang_piece; [exact Hx | apply Lang_nil].
Qed.

Lemma Lang_one ranges c : in_class ranges c = true -> Lang (CharClass ranges) (String c "").
Proof. intros Hc t. simpl. rewrite Hc. left. reflexivity. Qed.

Lemma Lang_char ranges rest c s :
  in_class ranges c = true -> Lang rest s -> Lang (Concat (CharClass ranges) rest) (String c s).
Proof.
  intros Hc Hs. change (String c s) with (String c "" ++ s).
  apply Lang_piece; [apply Lang_one; exact Hc | exact Hs].
Qed.

Lemma at_most_here step n s : In s (at_most step n s).
Proof. destruct n; left; reflexivity. Qed.

Lemma at_most_class ranges n x t :
  class_string ranges x = true -> (String.length x <= n)%nat ->
  In t (at_most (residuals (CharClass ranges)) n (x ++ t)).
Proof.
  revert n. induction x as [| c x IH]; intros n Hx Hn.
  - apply at_most_here.
  - destruct n as [| n]; [simpl in Hn; lia |].
    simpl in Hx. apply andb_prop in Hx as [Hc Hx].
    change (String c x ++ t) with (String c (x ++ t)).
    right. simpl. rewrite Hc. simpl. rewrite app_nil_r.
    apply IH; [exact Hx | simpl in Hn; lia].
Qed.

Lemma exactly_class ranges lo extra x t :
  class_string ranges x = true -> (lo <= String.length x <= lo + extra)%nat ->
  In t (exactly (residuals (CharClass ranges)) lo
          (at_most (residuals (CharClass ranges)) extra) (x ++ t)).
Proof.
  revert x. induction lo as [| lo IH]; intros x Hx Hn.
  - simpl. apply at_most_class; [exact Hx | lia].
  - destruct x as [| c x]; [simpl in Hn; lia |].
    simpl in Hx. apply andb_prop in Hx as [Hc Hx].
    change (String c x ++ t) with (String c (x ++ t)).
    simpl. rewrite Hc. simpl. rewrite app_nil_r.
    apply IH; [exact Hx | simpl in Hn; lia].
Qed.

Lemma Lang_repeat_class ranges (lo hi : nat) (lo' hi' : Z) x :
  piece ranges lo' hi' x -> Z.of_nat lo <= lo' -> hi' <= Z.of_nat hi ->
  Lang (Repeat lo hi (CharClass ranges)) x.
Proof.
  intros [Hlen Hx] Hlo Hhi t. unfold strlen in Hlen. simpl.
  apply exactly_class; [exact Hx | lia].
Qed.

Lemma Lang_repeat_cons ranges (lo hi : nat) rest c s :
  in_class ranges c = true ->
  Lang (Concat (Repeat lo hi (CharClass ranges)) rest) s ->
  Lang (Concat (Repeat (S lo) (S hi) (CharClass ranges)) rest) (String c s).
Proof.
  intros Hc Hs t. specialize (Hs t).
  change (String c s ++ t) with (String c (s ++ t)).
  simpl in *. rewrite Hc. simpl. rewrite app_nil_r. exact Hs.
Qed.

Lemma Lang_repeat_zero a (hi : nat) rest s :
  Lang rest s -> Lang (Concat (Repeat 0 hi a) rest) s.
Proof.
  intros Hs t. simpl. apply in_flat_map. exists (s ++ t).
  split; [apply at_most_here | apply Hs].
Qed.

Lemma Lang_optional a x : Lang a x -> Lang (Repeat 0 1 a) x.
Proof.
  intros Hx t. simpl. right. apply in_flat_map. exists t.
  split; [apply Hx | left; reflexivity].
Qed.

Lemma is_digit_class c : is_digit c = in_class digits c.
Proof.
  unfold is_digit, in_class, digits. simpl. rewrite orb_false_r. reflexivity.
Qed.

Lemma all_digits_class s : all_digits s = class_string digits s.
Proof.
  induction s as [| c s IH]; [reflexivity |].
  simpl. rewrite IH, is_digit_class. reflexivity.
Qed.

Lemma digit_string_piece w s : digit_string w s <-> piece digits w w s.
Proof.
  unfold digit_string, piece. rewrite all_digits_class. split; intros [Hlen Hall].
  - split; [lia | exact Hall].
  - split; [lia | exact Hall].
Qed.

Lemma class_string_chars ranges cs :
  class_string ranges (string_of_chars cs) = true <->
  Forall (fun c => in_class ranges c = true) cs.
Proof.
  induction cs as [| c cs IH]; simpl.
  - split; [constructor | reflexivity].
  - rewrite andb_true_iff, IH. split.
    + intros [Hc Hcs]. constructor; assumption.
    + intros Hall. inversion Hall; subst. split; assumption.
Qed.

End Languages.

(** ** The pattern synthesizer *)

Section Patterns.

Context `{MathRand} `{GoTime}.

Import regexp.

(** A computation that succeeds from every state of the generator,
    with a result that satisfies [P]. *)
Definition yields {A : Type} (m : G A) (P : A -> Prop) : Prop :=
  forall r, exists a r', m r = Ok (a, r') /\ P a.

Lemma yields_ret {A : Type} (a : A) (P : A -> Prop) : P a -> yields (ret a) P.
Proof. intros Ha r. exists a, r. split; [reflexivity | exact Ha]. Qed.

Lemma yields_bind {A B : Type} (m : G A) (k : A -> G B) (P : A -> Prop) (Q : B -> Prop) :
  yields m P -> (forall a, P a -> yields (k a) Q) -> yields (gbind m k) Q.
Proof.
  intros Hm Hk r. destruct (Hm r) as (a & r1 & Hrun & Ha).
  destruct (Hk a Ha r1) as (b & r2 & Hrun2 & Hb).
  exists b, r2. unfold gbind. rewrite Hrun. split; [exact Hrun2 | exact Hb].
Qed.

Lemma yields_weaken {A : Type} (m : G A) (P Q : A -> Prop) :
  yields m P -> (forall a, P a -> Q a) -> yields m Q.
Proof.
  intros Hm HPQ r. destruct (Hm r) as (a & r1 & Hrun & Ha).
  exists a, r1. split; [exact Hrun | apply HPQ; exact Ha].
Qed.

Lemma yields_Intn (n : Z) : 0 < n -> yields (Intn n) (fun v => 0 <= v < n).
Proof.
  intros Hn r. unfold Intn.
  destruct (Z.leb_spec n 0) as [Hbad | _]; [lia |].
  pose proof (rand_Intn_range n r Hn) as Hv.
  destruct (rand_Intn n r) as [v r']. exists v, r'. split; [reflexivity | exact Hv].
Qed.

Lemma yields_Float32 : yields Float32 (fun _ => True).
Proof.
  intros r. unfold Float32. destruct (rand_Float32 r) as [f r'].
  exists f, r'. split; [reflexivity | exact I].
Qed.

Lemma char_at_class ranges charset i :
  class_string ranges charset = true -> 0 <= i < strlen charset ->
  in_class ranges (char_at charset i) = true.
Proof.
  unfold char_at, strlen. intros Hall Hi.
  assert (Hget : forall (s : string) (n : nat),
            class_string ranges s = true -> (n < String.length s)%nat ->
            exists c, String.get n s = Some c /\ in_class ranges c = true).
  { induction s as [| c s IH]; intros n Hs Hn; [simpl in Hn; lia |].
    simpl in Hs. apply andb_prop in Hs as [Hc Hs].
    destruct n as [| n]; [exists c; split; [reflexivity | exact Hc] |].
    simpl. apply IH; [exact Hs | simpl in Hn; lia]. }
  destruct (Hget charset (Z.to_nat i) Hall ltac:(lia)) as (c & Hc & Hin).
  rewrite Hc. exact Hin.
Qed.

Lemma yields_pick ranges charset :
  class_string ranges charset = true -> 0 < strlen charset ->
  yields (pick charset) (fun c => in_class ranges c = true).
Proof.
  intros Hall Hlen. unfold pick.
  eapply yields_bind; [apply yields_Intn; exact Hlen |].
  intros i Hi. cbv beta in Hi. apply yields_ret. apply char_at_class; assumption.
Qed.

Lemma yields_digit_rune : yields digit_rune (fun c => in_class digits c = true).
Proof.
  unfold digit_rune.
  eapply yields_bind; [apply yields_Intn; lia |].
  intros d Hd. cbv beta in Hd. apply yields_ret.
  assert (Hcases : d = 0 \/ d = 1 \/ d = 2 \/ d = 3 \/ d = 4 \/ d = 5 \/ d = 6 \/ d = 7 \/
                   d = 8 \/ d = 9) by lia.
  repeat (destruct Hcases as [-> | Hcases]; [reflexivity |]).
  subst d. reflexivity.
Qed.

Lemma yields_repeatG {A : Type} (n : nat) (m : G A) (P : A -> Prop) :
  yields m P -> yields (repeatG n m) (fun l => length l = n /\ Forall P l).
Proof.
  intros Hm. induction n as [| n IH].
  - apply yields_ret. split; [reflexivity | constructor].
  - simpl. eapply yields_bind; [exact Hm |]. intros x Hx.
    eapply yields_bind; [exact IH |]. intros xs [Hlen Hxs].
    apply yields_ret. split; [simpl; congruence | constructor; assumption].
Qed.

Lemma piece_of_chars ranges (n : nat) cs :
  length cs = n /\ Forall (fun c => in_class ranges c = true) cs ->
  piece ranges (Z.of_nat n) (Z.of_nat n) (string_of_chars cs).
Proof.
  intros [Hlen Hall]. unfold piece, strlen.
  rewrite string_of_chars_length, Hlen. split; [lia |].
  apply class_string_chars. exact Hall.
Qed.

Lemma yields_padded (w n : Z) :
  0 < w -> 0 < n <= 10 ^ w -> yields (padded w n) (piece digits w w).
Proof.
  intros Hw Hn. unfold padded.
  eapply yields_bind; [apply yields_Intn; lia |].
  intros v Hv. cbv beta in Hv. apply yields_ret. apply digit_string_piece.
  apply pad0_digits; lia.
Qed.

Lemma yields_pick_many ranges charset (n : Z) :
  class_string ranges charset = true -> 0 < strlen charset -> 0 <= n ->
  yields (pick_many charset n) (piece ranges n n).
Proof.
  intros Hall Hlen Hn. unfold pick_many.
  eapply yields_bind; [apply yields_repeatG, (yields_pick ranges); assumption |].
  intros cs Hcs. apply yields_ret.
  rewrite <- (Z2Nat.id n Hn). apply piece_of_chars. exact Hcs.
Qed.

Lemma yields_alnum_range ranges charset (lo k : Z) :
  class_string ranges charset = true -> 0 < strlen charset -> 0 <= lo -> 0 < k ->
  yields (alnum_range charset lo k) (piece ranges lo (lo + k - 1)).
Proof.
  intros Hall Hlen Hlo Hk. unfold alnum_range.
  eapply yields_bind; [apply yields_Intn; exact Hk |].
  intros n Hn. cbv beta in Hn.
  eapply yields_weaken; [apply (yields_pick_many ranges); [assumption .. | lia] |].
  intros s [Hs Hclass]. split; [lia | exact Hclass].
Qed.

Definition upper : list (ascii * ascii) := [("A"%char, "Z"%char)].
Definition upper_digit : list (ascii * ascii) := [("A"%char, "Z"%char); ("0"%char, "9"%char)].
Definition digit_or_upper : list (ascii * ascii) := [("0"%char, "9"%char); ("A"%char, "Z"%char)].

Lemma yields_letter : yields (pick upper_letters) (fun c => in_class upper c = true).
Proof. apply yields_pick; [reflexivity | unfold strlen; simpl; lia]. Qed.

Lemma yields_digit : yields (pick "0123456789") (fun c => in_class digits c = true).
Proof. apply yields_pick; [reflexivity | unfold strlen; simpl; lia]. Qed.

Lemma yields_digit_runes (n : nat) :
  yields (repeatG n digit_rune)
         (fun ds => piece digits (Z.of_nat n) (Z.of_nat n) (string_of_chars ds)).
Proof.
  eapply yields_weaken; [apply yields_repeatG, yields_digit_rune |].
  intros ds Hds. apply piece_of_chars. exact Hds.
Qed.

Lemma yields_upper_digit (lo k : Z) :
  0 <= lo -> 0 < k -> yields (alnum_range upper_alnum lo k) (piece upper_digit lo (lo + k - 1)).
Proof.
  intros Hlo Hk. apply yields_alnum_range; [reflexivity | unfold strlen; simpl; lia | lia ..].
Qed.

Lemma yields_digit_or_upper (lo k : Z) :
  0 <= lo -> 0 < k ->
  yields (alnum_range digit_upper lo k) (piece digit_or_upper lo (lo + k - 1)).
Proof.
  intros Hlo Hk. apply yields_alnum_range; [reflexivity | unfold strlen; simpl; lia | lia ..].
Qed.

End Patterns.

(** One step of a computation of the table, with what it yields. *)
Ltac yield_step :=
  lazymatch goal with
  | |- yields (gbind (pick upper_letters) _) _ =>
    eapply yields_bind; [apply yields_letter | intros ? ?; cbv beta in *]
  | |- yields (gbind (pick "0123456789") _) _ =>
    eapply yields_bind; [apply yields_digit | intros ? ?; cbv beta in *]
  | |- yields (gbind digit_rune _) _ =>
    eapply yields_bind; [apply yields_digit_rune | intros ? ?; cbv beta in *]
  | |- yields (gbind (repeatG _ digit_rune) _) _ =>
    eapply yields_bind; [apply yields_digit_runes | intros ? ?; cbv beta in *]
  | |- yields (gbind (padded _ _) _) _ =>
    eapply yields_bind; [apply yields_padded; lia | intros ? ?; cbv beta in *]
  | |- yields (gbind (alnum_range upper_alnum _ _) _) _ =>
    eapply yields_bind; [apply yields_upper_digit; lia | intros ? ?; cbv beta in *]
  | |- yields (gbind (alnum_range digit_upper _ _) _) _ =>
    eapply yields_bind; [apply yields_digit_or_upper; lia | intros ? ?; cbv beta in *]
  | |- yields (gbind Float32 _) _ =>
    eapply yields_bind; [apply yields_Float32 | intros ? _]
  | |- yields (padded _ _) _ =>
    eapply yields_weaken; [apply yields_padded; lia | intros ? ?; cbv beta in *]
  | |- yields (alnum_range upper_alnum _ _) _ =>
    eapply yields_weaken; [apply yields_upper_digit; lia | intros ? ?; cbv beta in *]
  | |- yields (ret _) _ => apply yields_ret
  | |- yields (if ?b then _ else _) _ => destruct b
  end.

(** A string built from characters and pieces read against a pattern. *)
Ltac lang :=
  lazymatch goal with
  | |- Lang regexp.EmptyMatch "" => apply Lang_nil
  | |- Lang (regexp.Concat (regexp.CharClass _) _) (String _ _) =>
    apply Lang_char; [first [assumption | reflexivity] | lang]
  | |- Lang (regexp.Concat (regexp.Repeat (S _) (S _) (regexp.CharClass _)) _) (String _ _) =>
    apply Lang_repeat_cons; [first [assumption | reflexivity] | lang]
  | |- Lang (regexp.Concat (regexp.Repeat 0 0 _) _) _ => apply Lang_repeat_zero; lang
  | |- Lang (regexp.Concat (regexp.Repeat 0 _ _) _) "" => apply Lang_repeat_zero; lang
  | |- Lang (regexp.Concat (regexp.Repeat _ _ (regexp.CharClass _)) _) (_ ++ _) =>
    apply Lang_piece; [eapply Lang_repeat_class; [eassumption | simpl; lia ..] | lang]
  | |- Lang (regexp.Concat (regexp.Repeat _ _ (regexp.CharClass _)) regexp.EmptyMatch) _ =>
    apply Lang_piece_end; eapply Lang_repeat_class; [eassumption | simpl; lia ..]
  | |- Lang (regexp.Concat (regexp.Repeat 0 1 _) regexp.EmptyMatch) _ =>
    apply Lang_piece_end, Lang_optional; lang
  | |- Lang (regexp.Concat (regexp.Repeat _ _ (regexp.CharClass _)) _) ?x =>
    is_var x; rewrite <- (append_nil_r x); lang
  end.

Ltac conform :=
  cbn [fst snd]; repeat yield_step;
  (eapply MatchString_intro; [vm_compute; reflexivity |]);
  unfold str1; cbn [string_of_chars]; rewrite ?append_cons, ?append_nil_l;
  lang.

Section PatternCases.

Context `{MathRand} `{GoTime}.

Import regexp.

(** Every case of the [switch] of [generateFromPattern] succeeds from
    every state of the generator, and the string it returns matches the
    pattern of the case. *)
Theorem pattern_cases_conform :
  Forall (fun entry => yields (snd entry) (fun s => MatchString (fst entry) s = Some true))
         patternTable.
Proof.
  unfold patternTable.
  repeat (constructor; [conform |]).
  constructor.
Qed.

Lemma lookupPattern_case pattern gen :
  lookupPattern pattern = Some gen -> In (pattern, gen) patternTable.
Proof.
  unfold lookupPattern. intros Hfound.
  destruct (find _ patternTable) as [[p g] |] eqn:Hfind; [| discriminate].
  injection Hfound as <-.
  apply find_some in Hfind as [Hin Heq]. simpl in Heq.
  apply String.eqb_eq in Heq. subst p. exact Hin.
Qed.

(** X10. A pattern that is one of the cases of the [switch]: generation
    succeeds from every state of the generator and the string matches
    the pattern. *)
Theorem generateFromPattern_conforms (pattern : string) :
  lookupPattern pattern <> None ->
  yields (generateFromPattern pattern) (fun s => MatchString pattern s = Some true).
Proof.
  intros Hcase. unfold generateFromPattern.
  destruct (lookupPattern pattern) as [gen |] eqn:Hfound; [| congruence].
  apply lookupPattern_case in Hfound.
  pose proof pattern_cases_conform as Hall.
  rewrite List.Forall_forall in Hall. exact (Hall _ Hfound).
Qed.


End PatternCases.

(** The case of a stock-keeping unit, on the example generator. *)
Lemma generateFromPattern_conforms_example :
  exists s r',
    @generateFromPattern lcgRand "^[A-Z]{2}[0-9]{6}$" 0 = Ok (s, r') /\
    regexp.MatchString "^[A-Z]{2}[0-9]{6}$" s = Some true.
Proof.
  apply (@generateFromPattern_conforms lcgRand "^[A-Z]{2}[0-9]{6}$").
  unfold lookupPattern, patternTable. cbn [find fst].
  rewrite String.eqb_refl. discriminate.
Defined.


(** ** package validator: the rules for healthcare identifiers

    [HL7ValidationRules] and its methods. An [error] is an
    [option string]: [None] is [nil]. *)

Module hl7.

Import regexp.

(** [regexp.MustCompile] *)
Definition MustCompile (pattern : string) : outcome Regexp :=
  match compile pattern with
  | Some re => Ok re
  | None => Panic ("regexp: Compile(" ++ pattern ++ ")")
  end.

Record HL7ValidationRules : Type := mkHL7ValidationRules {
  icd10Regex : Regexp;
  cptRegex : Regexp;
  npiRegex : Regexp;
  ssnRegex : Regexp;
  phoneRegex : Regexp;
  zipRegex : Regexp;
  hl7DateRegex : Regexp }.

Definition and_then {A B : Type} (m : outcome A) (k : A -> outcome B) : outcome B :=
  match m with
  | Ok a => k a
  | Err e => Err e
  | Panic p => Panic p
  end.

Definition NewHL7ValidationRules : outcome HL7ValidationRules :=
  and_then (MustCompile "^[A-TV-Z]\d{2}(\.\d{1,3})?$") (fun icd10 =>
  and_then (MustCompile "^\d{5}$") (fun cpt =>
  and_then (MustCompile "^\d{10}$") (fun npi =>
  and_then (MustCompile "^\d{9}$") (fun ssn =>
  and_then (MustCompile "^\d{10}$") (fun phone =>
  and_then (MustCompile "^\d{5}(-\d{4})?$") (fun zip =>
  and_then (MustCompile "^\d{8,14}$") (fun hl7Date =>
  Ok (mkHL7ValidationRules icd10 cpt npi ssn phone zip hl7Date)))))))).

(** [strings.HasPrefix] and [strings.HasSuffix] *)
Definition HasPrefix (s prefix : string) : bool := String.prefix prefix s.

Definition HasSuffix (s suffix : string) : bool :=
  (String.length suffix <=? String.length s)%nat
  && String.eqb (String.substring (String.length s - String.length suffix)
                                  (String.length suffix) s) suffix.

Definition ValidateICD10Code (h : HL7ValidationRules) (code : string) : option string :=
  if negb (matches (icd10Regex h) code) then Some ("invalid ICD-10 code format: " ++ code)
  else if HasPrefix code "U" then Some ("U codes are reserved for WHO use: " ++ code)
  else None.

Definition ValidateCPTCode (h : HL7ValidationRules) (code : string) : option string :=
  if negb (matches (cptRegex h) code) then Some ("invalid CPT code format: " ++ code)
  else
    match Atoi code with
    | None => Some ("CPT code must be numeric: " ++ code)
    | Some codeNum =>
      if (100 <=? codeNum) && (codeNum <=? 99499) then None
      else if HasSuffix code "F" then None
      else if HasSuffix code "T" then None
      else Some ("CPT code outside valid ranges: " ++ code)
    end.

(** The loop of [validateLuhnChecksum] over the bytes of the number
    from the last one to the first one; [None] when one of them is not
    a digit. *)
Fixpoint luhn_loop (bytes : list ascii) (sum : Z) (alternate : bool) : option Z :=
  match bytes with
  | [] => Some sum
  | c :: rest =>
    match Atoi (String c EmptyString) with
    | None => None
    | Some digit =>
      let digit :=
        if alternate then
          let digit := wrap64 (digit * 2) in
          if 9 <? digit then Z.rem digit 10 + Z.quot digit 10 else digit
        else digit in
      luhn_loop rest (wrap64 (sum + digit)) (negb alternate)
    end
  end.

Definition validateLuhnChecksum (number : string) : option string :=
  match luhn_loop (rev (list_ascii_of_string number)) 0 false with
  | None => Some ("non-numeric character in number: " ++ number)
  | Some sum =>
    if negb (Z.rem sum 10 =? 0) then Some ("invalid checksum for number: " ++ number)
    else None
  end.

Definition ValidateNPI (h : HL7ValidationRules) (npi : string) : option string :=
  if negb (matches (npiRegex h) npi) then Some ("invalid NPI format: " ++ npi)
  else validateLuhnChecksum npi.

Definition string_le (a b : string) : bool :=
  match String.compare a b with Gt => false | _ => true end.

Definition ValidateSSN (h : HL7ValidationRules) (ssn : string) : option string :=
  if negb (matches (ssnRegex h) ssn) then Some ("invalid SSN format: " ++ ssn)
  else if String.eqb ssn "000000000" || String.eqb ssn "123456789"
  then Some ("invalid SSN pattern: " ++ ssn)
  else
    let area := slice ssn 0 3 in
    if String.eqb area "000" || String.eqb area "666"
       || (string_le "900" area && string_le area "999")
    then Some ("invalid SSN area number: " ++ area)
    else None.

Definition ValidatePhoneNumber (h : HL7ValidationRules) (phone : string) : option string :=
  if negb (matches (phoneRegex h) phone) then Some ("invalid phone number format: " ++ phone)
  else if String.eqb phone "0000000000" || String.eqb phone "1111111111"
  then Some ("invalid phone number pattern: " ++ phone)
  else None.

Definition ValidateZipCode (h : HL7ValidationRules) (zip : string) : option string :=
  if negb (matches (zipRegex h) zip) then Some ("invalid ZIP code format: " ++ zip)
  else None.

End hl7.

(** ** Properties of the healthcare rules *)

Section HL7Properties.

Import regexp hl7.

(** The pattern [^\d{n}$] compiled. *)
Definition digits_exactly (n : nat) : Regexp :=
  Concat (Repeat n n (CharClass digits)) EmptyMatch.

Lemma exactly_class_inv ranges n s t :
  In t (exactly (residuals (CharClass ranges)) n
          (at_most (residuals (CharClass ranges)) 0) s) ->
  exists x, s = x ++ t /\ String.length x = n /\ class_string ranges x = true.
Proof.
  revert s. induction n as [| n IH]; intros s Hin.
  - simpl in Hin. destruct Hin as [<- | []]. exists "". repeat split.
  - simpl in Hin. destruct s as [| c s]; [destruct Hin |].
    destruct (in_class ranges c) eqn:Hc; [| destruct Hin].
    simpl in Hin. rewrite app_nil_r in Hin.
    destruct (IH s Hin) as (x & -> & Hlen & Hx).
    exists (String c x). repeat split; [simpl; congruence | simpl; rewrite Hc, Hx; reflexivity].
Qed.

(** [^\d{n}$] accepts the strings of exactly [n] digits. *)
Lemma matches_digits_exactly (n : nat) (s : string) :
  matches (digits_exactly n) s = true <-> digit_string (Z.of_nat n) s.
Proof.
  split.
  - intros Hm. unfold matches in Hm. apply existsb_exists in Hm as (t & Hin & Ht).
    destruct t; [| discriminate].
    unfold digits_exactly in Hin.
    change (In "" (flat_map (residuals EmptyMatch)
                     (exactly (residuals (CharClass digits)) n
                        (at_most (residuals (CharClass digits)) (n - n)) s))) in Hin.
    apply in_flat_map in Hin as (u & Hu & [Heq | []]). subst u.
    rewrite Nat.sub_diag in Hu.
    apply exactly_class_inv in Hu as (x & -> & Hlen & Hx).
    rewrite append_nil_r. apply digit_string_piece.
    unfold piece, strlen. rewrite Hlen. split; [lia | exact Hx].
  - intros Hs. apply Lang_matches, Lang_piece_end.
    apply (Lang_repeat_class digits n n (Z.of_nat n) (Z.of_nat n)); [| lia | lia].
    apply digit_string_piece. exact Hs.
Qed.

Lemma New_patterns (h : HL7ValidationRules) :
  NewHL7ValidationRules = Ok h ->
  cptRegex h = digits_exactly 5 /\ npiRegex h = digits_exactly 10 /\
  ssnRegex h = digits_exactly 9 /\ phoneRegex h = digits_exactly 10 /\
  compile "^[A-TV-Z]\d{2}(\.\d{1,3})?$" = Some (icd10Regex h).
Proof.
  intros Hnew. vm_compute in Hnew. injection Hnew as <-.
  repeat split.
Qed.

Lemma NewHL7ValidationRules_ok : exists h, NewHL7ValidationRules = Ok h.
Proof. vm_compute. eexists. reflexivity. Qed.

(** *** Decimal digits and [strconv.Atoi] *)

Lemma is_digit_byte (c : ascii) :
  is_digit c = true -> 0 <= byte_of_ascii c - 48 <= 9.
Proof. unfold is_digit. intros Hc. apply andb_prop in Hc as [Hlo Hhi]. lia. Qed.

Lemma byte_of_ascii_inj (a b : ascii) : byte_of_ascii a = byte_of_ascii b -> a = b.
Proof.
  unfold byte_of_ascii. intros Heq. apply N2Z.inj in Heq.
  rewrite <- (ascii_N_embedding a), <- (ascii_N_embedding b), Heq. reflexivity.
Qed.

Lemma digits_value_bounds (s : string) (acc : Z) :
  0 <= acc -> all_digits s = true ->
  exists n, digits_value acc s = Some n /\
            acc * 10 ^ strlen s <= n < (acc + 1) * 10 ^ strlen s.
Proof.
  revert acc. induction s as [| c s IH]; intros acc Hacc Hall.
  - exists acc. split; [reflexivity |]. unfold strlen. simpl. lia.
  - simpl in Hall. apply andb_prop in Hall as [Hc Hall].
    pose proof (is_digit_byte c Hc) as Hd.
    destruct (IH (10 * acc + (byte_of_ascii c - 48)) ltac:(lia) Hall) as (n & Hn & Hbounds).
    exists n. simpl. rewrite Hc. split; [exact Hn |].
    unfold strlen in *. simpl String.length. rewrite Nat2Z.inj_succ, Z.pow_succ_r by lia.
    pose proof (Z.pow_pos_nonneg 10 (Z.of_nat (String.length s)) ltac:(lia) ltac:(lia)).
    nia.
Qed.

(** On a string that starts with a digit, [Atoi] reads no sign. *)
Lemma Atoi_unsigned (c : ascii) (s : string) :
  is_digit c = true ->
  Atoi (String c s) =
  match digits_value 0 (String c s) with
  | Some v => if (minInt64 <=? v) && (v <=? maxInt64) then Some v else None
  | None => None
  end.
Proof.
  intros Hc.
  destruct c as [[] [] [] [] [] [] [] []]; try discriminate Hc; reflexivity.
Qed.

Lemma Atoi_digit_string (w : Z) (s : string) :
  0 < w <= 18 -> digit_string w s ->
  exists n, digits_value 0 s = Some n /\ 0 <= n < 10 ^ w /\ Atoi s = Some n.
Proof.
  intros Hw [Hlen Hall].
  destruct (digits_value_bounds s 0 ltac:(lia) Hall) as (n & Hn & Hbounds).
  rewrite Hlen in Hbounds. exists n. split; [exact Hn |]. split; [lia |].
  destruct s as [| c s]; [unfold strlen in Hlen; simpl in Hlen; lia |].
  pose proof Hall as Hc. simpl in Hc. apply andb_prop in Hc as [Hc _].
  rewrite (Atoi_unsigned c s Hc), Hn.
  assert (Hpow : 10 ^ w <= 10 ^ 18) by (apply Z.pow_le_mono_r; lia).
  unfold minInt64, maxInt64.
  destruct (Z.leb_spec (- 2 ^ 63) n); [| lia].
  destruct (Z.leb_spec n (2 ^ 63 - 1)); [reflexivity | lia].
Qed.

Lemma Atoi_char (c : ascii) :
  Atoi (String c EmptyString) = if is_digit c then Some (byte_of_ascii c - 48) else None.
Proof. destruct c as [[] [] [] [] [] [] [] []]; reflexivity. Qed.

Lemma HasSuffix_last (s : string) (c : ascii) :
  HasSuffix s (String c EmptyString) = true -> exists pre, s = pre ++ String c EmptyString.
Proof.
  unfold HasSuffix. induction s as [| a s IH]; intros Hs; [discriminate |].
  apply andb_prop in Hs as [_ Hs].
  destruct s as [| b s].
  - simpl in Hs. destruct (Ascii.eqb_spec a c) as [-> | Hne]; [| discriminate].
    exists "". reflexivity.
  - destruct IH as (pre & Hpre).
    + apply andb_true_intro. split; [reflexivity |].
      simpl String.length in *. rewrite Nat.sub_succ, Nat.sub_0_r in *. exact Hs.
    + exists (String a pre). rewrite Hpre. reflexivity.
Qed.

Lemma digit_string_suffix (s : string) (c : ascii) :
  all_digits s = true -> is_digit c = false -> HasSuffix s (String c EmptyString) = false.
Proof.
  intros Hall Hc. destruct (HasSuffix s (String c "")) eqn:Hs; [| reflexivity].
  apply HasSuffix_last in Hs as (pre & ->).
  rewrite all_digits_app in Hall. apply andb_prop in Hall as [_ Hall].
  simpl in Hall. rewrite Hc in Hall. discriminate.
Qed.

(** *** The checksum of Luhn *)

(** What a digit adds to the sum, doubled at every other position. *)
Definition luhn_digit (alternate : bool) (d : Z) : Z :=
  if alternate
  then if 9 <? d * 2 then Z.rem (d * 2) 10 + Z.quot (d * 2) 10 else d * 2
  else d.

Fixpoint luhn_plain (bytes : list ascii) (alternate : bool) : option Z :=
  match bytes with
  | [] => Some 0
  | c :: rest =>
    if is_digit c
    then option_map (Z.add (luhn_digit alternate (byte_of_ascii c - 48)))
                    (luhn_plain rest (negb alternate))
    else None
  end.

Ltac digit_cases d :=
  let Hcases := fresh "Hcases" in
  assert (Hcases : d = 0 \/ d = 1 \/ d = 2 \/ d = 3 \/ d = 4 \/ d = 5 \/ d = 6 \/ d = 7 \/
                   d = 8 \/ d = 9) by lia;
  repeat (destruct Hcases as [-> | Hcases]; [| ]); [.. | subst d].

Lemma luhn_digit_bounds (alternate : bool) (d : Z) :
  0 <= d <= 9 -> 0 <= luhn_digit alternate d <= 9.
Proof.
  intros Hd. destruct alternate; [| exact Hd].
  digit_cases d; vm_compute; split; discriminate.
Qed.

Lemma luhn_digit_differs (alternate : bool) (d d' : Z) :
  0 <= d <= 9 -> 0 <= d' <= 9 -> d <> d' ->
  (luhn_digit alternate d - luhn_digit alternate d') mod 10 <> 0.
Proof.
  intros Hd Hd' Hne. destruct alternate.
  - digit_cases d; digit_cases d'; try (exfalso; apply Hne; reflexivity);
      vm_compute; discriminate.
  - unfold luhn_digit. rewrite Z.mod_divide by lia. intros [q Hq]. lia.
Qed.

Lemma luhn_loop_plain (bytes : list ascii) (sum : Z) (alternate : bool) :
  0 <= sum -> sum + 9 * len bytes <= maxInt64 ->
  luhn_loop bytes sum alternate = option_map (Z.add sum) (luhn_plain bytes alternate).
Proof.
  revert sum alternate. induction bytes as [| c bytes IH]; intros sum alternate Hsum Hroom.
  - simpl. f_equal. lia.
  - unfold len in *. simpl length in Hroom. rewrite Nat2Z.inj_succ in Hroom.
    unfold maxInt64 in Hroom.
    cbn [luhn_loop luhn_plain]. rewrite Atoi_char.
    destruct (is_digit c) eqn:Hc; [| reflexivity].
    pose proof (is_digit_byte c Hc) as Hd.
    set (d := byte_of_ascii c - 48) in *.
    pose proof (luhn_digit_bounds alternate d Hd) as Hdigit.
    assert (Hstep : (if alternate
                     then if 9 <? wrap64 (d * 2)
                          then Z.rem (wrap64 (d * 2)) 10 + Z.quot (wrap64 (d * 2)) 10
                          else wrap64 (d * 2)
                     else d) = luhn_digit alternate d).
    { unfold luhn_digit.
      rewrite (wrap64_id (d * 2)) by (unfold in_int64, minInt64, maxInt64; lia).
      reflexivity. }
    rewrite Hstep.
    rewrite wrap64_id by (unfold in_int64, minInt64, maxInt64; lia).
    rewrite IH by (unfold maxInt64; lia).
    destruct (luhn_plain bytes (negb alternate)) as [t |]; simpl; [f_equal; lia | reflexivity].
Qed.

Lemma luhn_plain_change (l1 l2 : list ascii) (c c' : ascii) (alternate : bool) (t t' : Z) :
  luhn_plain (app l1 (c :: l2)) alternate = Some t ->
  luhn_plain (app l1 (c' :: l2)) alternate = Some t' ->
  c <> c' -> (t - t') mod 10 <> 0.
Proof.
  revert alternate t t'. induction l1 as [| x l1 IH]; intros alternate t t' Ht Ht' Hne.
  - simpl in Ht, Ht'.
    destruct (is_digit c) eqn:Hc; [| discriminate].
    destruct (is_digit c') eqn:Hc'; [| discriminate].
    destruct (luhn_plain l2 (negb alternate)) as [u |]; [| discriminate].
    injection Ht as <-. injection Ht' as <-.
    pose proof (luhn_digit_differs alternate (byte_of_ascii c - 48) (byte_of_ascii c' - 48)
                  (is_digit_byte c Hc) (is_digit_byte c' Hc')
                  ltac:(intros Heq; apply Hne, byte_of_ascii_inj; lia)) as Hdiff.
    replace (luhn_digit alternate (byte_of_ascii c - 48) + u
             - (luhn_digit alternate (byte_of_ascii c' - 48) + u))
      with (luhn_digit alternate (byte_of_ascii c - 48)
            - luhn_digit alternate (byte_of_ascii c' - 48)) by lia.
    exact Hdiff.
  - simpl in Ht, Ht'. destruct (is_digit x); [| discriminate].
    destruct (luhn_plain (app l1 (c :: l2)) (negb alternate)) as [u |] eqn:Hu; [| discriminate].
    destruct (luhn_plain (app l1 (c' :: l2)) (negb alternate)) as [u' |] eqn:Hu';
      [| discriminate].
    injection Ht as <-. injection Ht' as <-.
    specialize (IH _ _ _ Hu Hu' Hne).
    replace (luhn_digit alternate (byte_of_ascii x - 48) + u
             - (luhn_digit alternate (byte_of_ascii x - 48) + u')) with (u - u') by lia.
    exact IH.
Qed.

Lemma list_ascii_of_string_app (s t : string) :
  list_ascii_of_string (s ++ t) = app (list_ascii_of_string s) (list_ascii_of_string t).
Proof.
  induction s as [| c s IH]; [reflexivity |].
  change (String c s ++ t) with (String c (s ++ t)). simpl. rewrite IH. reflexivity.
Qed.

Lemma length_list_ascii (s : string) : length (list_ascii_of_string s) = String.length s.
Proof. induction s as [| c s IH]; simpl; congruence. Qed.

(** X17. An identifier that [ValidateNPI] accepts is no longer accepted once
    one of its characters is replaced by another one: the checksum
    catches every error in a single digit. *)
Theorem ValidateNPI_detects_single_error (h : HL7ValidationRules)
    (pre post : string) (c c' : ascii) :
  NewHL7ValidationRules = Ok h -> c <> c' ->
  ValidateNPI h (pre ++ String c post) = None ->
  ValidateNPI h (pre ++ String c' post) <> None.
Proof.
  intros Hnew Hne Hok.
  destruct (New_patterns h Hnew) as (_ & Hnpi & _).
  unfold ValidateNPI in *. rewrite Hnpi in *.
  destruct (matches (digits_exactly 10) (pre ++ String c post)) eqn:Hm; [| discriminate].
  destruct (matches (digits_exactly 10) (pre ++ String c' post)) eqn:Hm'; [| discriminate].
  cbn [negb] in *.
  apply matches_digits_exactly in Hm as [Hlen _].
  apply matches_digits_exactly in Hm' as [Hlen' _].
  unfold validateLuhnChecksum in *.
  rewrite list_ascii_of_string_app in *. simpl list_ascii_of_string in *.
  rewrite rev_app_distr in *. simpl rev in *. rewrite <- !app_assoc in *. simpl app in *.
  assert (Hsize : forall x : ascii,
             len (app (rev (list_ascii_of_string post)) (x :: rev (list_ascii_of_string pre)))
             = 10).
  { intros x. unfold len, strlen in *.
    rewrite length_app in Hlen. simpl String.length in Hlen.
    rewrite List.length_app. simpl length. rewrite !length_rev, !length_list_ascii. lia. }
  rewrite luhn_loop_plain in Hok by (rewrite ?Hsize; unfold maxInt64; lia).
  rewrite luhn_loop_plain by (rewrite ?Hsize; unfold maxInt64; lia).
  destruct (luhn_plain (app _ (c :: _)) false) as [t |] eqn:Ht; [| discriminate].
  destruct (luhn_plain (app _ (c' :: _)) false) as [t' |] eqn:Ht'; [| discriminate].
  simpl option_map in *.
  pose proof (luhn_plain_change _ _ _ _ _ _ _ Ht Ht' Hne) as Hdiff.
  cbv beta iota in Hok |- *.
  destruct (Z.eqb_spec (Z.rem (0 + t) 10) 0) as [Hzero | Hnonzero];
    [| cbn [negb] in Hok; discriminate Hok].
  destruct (Z.eqb_spec (Z.rem (0 + t') 10) 0) as [Hzero' | Hnonzero'];
    [| cbn [negb]; discriminate].
  exfalso. apply Hdiff.
  apply Z.rem_divide in Hzero as [q Hq]; [| lia].
  apply Z.rem_divide in Hzero' as [q' Hq']; [| lia].
  apply Z.mod_divide; [lia |]. exists (q - q'). lia.
Qed.

(** X18. [ValidateCPTCode] accepts exactly the strings of five digits whose
    number is between 100 and 99499. The branches for the codes that end
    in F or T are never taken: the pattern has passed digits only. *)
Theorem ValidateCPTCode_accepts (h : HL7ValidationRules) (code : string) :
  NewHL7ValidationRules = Ok h ->
  (ValidateCPTCode h code = None <->
   digit_string 5 code /\ exists n, digits_value 0 code = Some n /\ 100 <= n <= 99499).
Proof.
  intros Hnew. destruct (New_patterns h Hnew) as (Hcpt & _).
  unfold ValidateCPTCode. rewrite Hcpt.
  destruct (matches (digits_exactly 5) code) eqn:Hm; cbn [negb].
  - apply matches_digits_exactly in Hm. change (Z.of_nat 5) with 5 in Hm.
    destruct (Atoi_digit_string 5 code ltac:(lia) Hm) as (n & Hvalue & Hn & Hatoi).
    rewrite Hatoi.
    rewrite (digit_string_suffix code "F" (proj2 Hm) eq_refl).
    rewrite (digit_string_suffix code "T" (proj2 Hm) eq_refl).
    destruct (Z.leb_spec 100 n) as [Hlo | Hlo]; destruct (Z.leb_spec n 99499) as [Hhi | Hhi];
      cbn [andb]; split;
      try discriminate;
      try (intros _; split; [exact Hm | exists n; split; [exact Hvalue | lia]]);
      try reflexivity;
      intros (_ & m & Hm' & Hrange); rewrite Hvalue in Hm'; injection Hm' as <-; lia.
  - split; [discriminate |]. intros [Hdigits _].
    apply (matches_digits_exactly 5) in Hdigits. congruence.
Qed.

(** X19. A code that begins with U never reaches the branch that reports
    the codes reserved for the WHO: the pattern has already refused it,
    and the error is that of the format. *)
Theorem ValidateICD10Code_U_is_format_error (h : HL7ValidationRules) (code : string) :
  NewHL7ValidationRules = Ok h ->
  ValidateICD10Code h code <> Some ("U codes are reserved for WHO use: " ++ code) /\
  (HasPrefix code "U" = true ->
   ValidateICD10Code h code = Some ("invalid ICD-10 code format: " ++ code)).
Proof.
  intros Hnew. destruct (New_patterns h Hnew) as (_ & _ & _ & _ & Hicd).
  unfold ValidateICD10Code.
  remember (icd10Regex h) as re eqn:Hre. clear Hre.
  vm_compute in Hicd. injection Hicd as Hicd.
  assert (Hrefused : HasPrefix code "U" = true -> matches re code = false).
  { rewrite <- Hicd. unfold HasPrefix.
    destruct code as [| a code]; [discriminate |].
    change (String.prefix "U" (String a code))
      with (if ascii_dec "U" a then String.prefix "" code else false).
    destruct (ascii_dec "U" a) as [Heq | Hne]; [| intros Hfalse; discriminate Hfalse].
    subst a. intros _. reflexivity. }
  assert (Hmessages : "invalid ICD-10 code format: " ++ code
                      <> "U codes are reserved for WHO use: " ++ code).
  { intros Heq. apply (f_equal (String.get 0)) in Heq. vm_compute in Heq. discriminate. }
  destruct (matches re code) eqn:Hm; cbn [negb].
  - destruct (HasPrefix code "U") eqn:Hprefix.
    + discriminate (Hrefused eq_refl).
    + split; [discriminate | intros Hfalse; discriminate Hfalse].
  - split; [| reflexivity]. intros Heq. apply Hmessages.
    exact (f_equal (fun o => match o with Some e => e | None => EmptyString end) Heq).
Qed.

End HL7Properties.

(** Identifiers on the rules of [NewHL7ValidationRules]. 1234567893 is
    the number with the last digit of 1234567897 replaced. *)
Lemma ValidateNPI_detects_single_error_example :
  exists h,
    hl7.NewHL7ValidationRules = Ok h /\
    hl7.ValidateNPI h "1234567897" = None /\
    hl7.ValidateNPI h "1234567893" <> None.
Proof.
  destruct NewHL7ValidationRules_ok as [h Hnew]. exists h. split; [exact Hnew |].
  assert (Hvalid : hl7.ValidateNPI h "1234567897" = None).
  { unfold hl7.ValidateNPI. rewrite (proj1 (proj2 (New_patterns h Hnew))).
    vm_compute. reflexivity. }
  split; [exact Hvalid |].
  exact (ValidateNPI_detects_single_error h "123456789" "" "7" "3" Hnew
           ltac:(discriminate) Hvalid).
Defined.

Lemma ValidateCPTCode_accepts_example :
  exists h, hl7.NewHL7ValidationRules = Ok h /\ hl7.ValidateCPTCode h "99213" = None.
Proof.
  destruct NewHL7ValidationRules_ok as [h Hnew]. exists h. split; [exact Hnew |].
  apply (proj2 (ValidateCPTCode_accepts h "99213" Hnew)).
  split; [split; reflexivity |]. exists 99213. split; [reflexivity | lia].
Defined.

Lemma ValidateICD10Code_U_is_format_error_example :
  exists h,
    hl7.NewHL7ValidationRules = Ok h /\
    hl7.ValidateICD10Code h "U07.1" = Some "invalid ICD-10 code format: U07.1".
Proof.
  destruct NewHL7ValidationRules_ok as [h Hnew]. exists h. split; [exact Hnew |].
  exact (proj2 (ValidateICD10Code_U_is_format_error h "U07.1" Hnew) eq_refl).
Defined.

(** ** package validator: the helpers of the domain rules

    The functions at the end of [pkg/validator/domain_rules.go]. A
    [range] over a string reads characters, not bytes; a character
    outside ASCII is above ['9'] and so is each of its bytes, so the
    loops below read bytes. *)

Module domain.

(** [matched, _ := regexp.MatchString(pattern, s)] *)
Definition matched (pattern s : string) : bool :=
  match regexp.MatchString pattern s with
  | Some b => b
  | None => false
  end.

Definition isValidICD10 (code : string) : bool :=
  matched "^[A-Z][0-9]{2}(\.[0-9X]{1,4})?$" code.

Definition not_a_digit (char : ascii) : bool :=
  (byte_of_ascii char <? 48) || (57 <? byte_of_ascii char).

Definition isValidNPI (npi : string) : bool :=
  if negb (strlen npi =? 10) then false
  else forallb (fun char => negb (not_a_digit char)) (list_ascii_of_string npi).

Definition routing_weights : list Z := [3; 7; 1; 3; 7; 1; 3; 7; 1].

(** The second loop of [isValidRoutingNumber], from the index [i] on. *)
Fixpoint routing_sum (i : nat) (chars : list ascii) (sum : Z) : Z :=
  match chars with
  | [] => sum
  | char :: rest =>
    let digit := byte_of_ascii char - 48 in
    let weight := nth i routing_weights 0 in
    routing_sum (S i) rest (sum + digit * weight)
  end.

Definition isValidRoutingNumber (routing : string) : bool :=
  if negb (strlen routing =? 9) then false
  else if negb (forallb (fun char => negb (not_a_digit char)) (list_ascii_of_string routing))
  then false
  else Z.rem (routing_sum 0 (list_ascii_of_string routing) 0) 10 =? 0.

Definition isValidCurrencyCode (currency : string) : bool :=
  existsb (String.eqb currency)
          ["USD"; "EUR"; "GBP"; "CAD"; "AUD"; "JPY"; "CHF"; "CNY"; "INR"; "BRL"].

Definition isValidSKU (sku : string) : bool := matched "^[A-Z]{2}[0-9]{6}$" sku.

Definition isValidWarehouseLocation (location : string) : bool :=
  matched "^[A-Z]{2}-[A-Z]{3}-[0-9]{3}$" location.

End domain.

(** *** The checksum of routing numbers *)

Lemma routing_sum_shift (i : nat) (chars : list ascii) (sum : Z) :
  domain.routing_sum i chars sum = sum + domain.routing_sum i chars 0.
Proof.
  revert i sum. induction chars as [| c chars IH]; intros i sum; simpl; [lia |].
  rewrite (IH (S i) (sum + _)), (IH (S i) (0 + _)). lia.
Qed.

Lemma routing_sum_change (l1 l2 : list ascii) (c c' : ascii) (i : nat) :
  domain.routing_sum i (app l1 (c :: l2)) 0 - domain.routing_sum i (app l1 (c' :: l2)) 0
  = (byte_of_ascii c - byte_of_ascii c') * nth (i + length l1) domain.routing_weights 0.
Proof.
  revert i. induction l1 as [| x l1 IH]; intros i; simpl.
  - rewrite (routing_sum_shift (S i) l2 (0 + _)), (routing_sum_shift (S i) l2 (0 + _)).
    rewrite Nat.add_0_r. lia.
  - rewrite (routing_sum_shift (S i) _ (0 + _)), (routing_sum_shift (S i) _ (0 + _)).
    specialize (IH (S i)). rewrite Nat.add_succ_r. simpl in IH. lia.
Qed.

(** X20. A routing number that [isValidRoutingNumber] accepts is refused
    once one of its characters is replaced by another one: the weights
    3, 7 and 1 have no factor in common with 10. *)
Theorem isValidRoutingNumber_detects_single_error (pre post : string) (c c' : ascii) :
  c <> c' ->
  domain.isValidRoutingNumber (pre ++ String c post) = true ->
  domain.isValidRoutingNumber (pre ++ String c' post) = false.
Proof.
  intros Hne. unfold domain.isValidRoutingNumber, strlen.
  rewrite !length_app, !list_ascii_of_string_app. simpl String.length.
  simpl list_ascii_of_string. rewrite !forallb_app. simpl forallb.
  destruct (Z.eqb_spec (Z.of_nat (String.length pre + S (String.length post))) 9)
    as [Hlen | Hlen]; cbn [negb]; [| discriminate].
  destruct (forallb _ (list_ascii_of_string pre)); cbn [andb negb]; [| discriminate].
  destruct (forallb _ (list_ascii_of_string post));
    rewrite ?andb_true_r, ?andb_false_r; cbn [negb]; [| discriminate].
  destruct (domain.not_a_digit c) eqn:Hc; cbn [negb]; [discriminate |].
  destruct (domain.not_a_digit c') eqn:Hc'; cbn [negb]; [reflexivity |].
  intros Hsum. apply Z.eqb_eq in Hsum. apply Z.eqb_neq. intros Hsum'.
  apply Z.rem_divide in Hsum as [q Hq]; [| lia].
  apply Z.rem_divide in Hsum' as [q' Hq']; [| lia].
  pose proof (routing_sum_change (list_ascii_of_string pre) (list_ascii_of_string post)
                c c' 0) as Hdiff.
  rewrite Hq, Hq', length_list_ascii in Hdiff. simpl Nat.add in Hdiff.
  unfold domain.not_a_digit in Hc, Hc'.
  apply orb_false_elim in Hc as [Hc1 Hc2]. apply orb_false_elim in Hc' as [Hc1' Hc2'].
  assert (Hbytes : byte_of_ascii c <> byte_of_ascii c')
    by (intros Heq; apply Hne, byte_of_ascii_inj, Heq).
  assert (Hindex : (String.length pre < 9)%nat) by lia.
  set (d := byte_of_ascii c) in *. set (d' := byte_of_ascii c') in *.
  clearbody d d'.
  destruct (String.length pre) as [| [| [| [| [| [| [| [| [| n]]]]]]]]];
    simpl nth in Hdiff; lia.
Qed.

Lemma isValidRoutingNumber_detects_single_error_example :
  domain.isValidRoutingNumber "011000015" = true /\
  domain.isValidRoutingNumber "011000016" = false.
Proof.
  assert (Hvalid : domain.isValidRoutingNumber "011000015" = true) by reflexivity.
  split; [exact Hvalid |].
  exact (isValidRoutingNumber_detects_single_error "01100001" "" "5" "6"
           ltac:(discriminate) Hvalid).
Defined.

(** ** What is generated against the rules that check it *)

Section Compositions.

Context `{MathRand} `{GoTime}.

Import regexp.

Lemma lookupPattern_some (pattern : string) :
  existsb (fun entry => String.eqb (fst entry) pattern) patternTable = true ->
  lookupPattern pattern <> None.
Proof.
  intros Hsome. apply existsb_exists in Hsome as (entry & Hin & Heq).
  unfold lookupPattern.
  destruct (find _ patternTable) eqn:Hfind; [discriminate |].
  pose proof (find_none _ _ Hfind entry Hin) as Hnone. simpl in Hnone. congruence.
Qed.

(** What holds of every case of a pattern holds of
    [generateFromPattern] on the pattern. *)
Lemma generateFromPattern_case (pattern : string) (P : string -> Prop) :
  existsb (fun entry => String.eqb (fst entry) pattern) patternTable = true ->
  (forall gen, In (pattern, gen) patternTable -> yields gen P) ->
  yields (generateFromPattern pattern) P.
Proof.
  intros Hsome Hcases. apply lookupPattern_some in Hsome.
  unfold generateFromPattern.
  destruct (lookupPattern pattern) as [gen |] eqn:Hfound; [| congruence].
  apply Hcases, lookupPattern_case, Hfound.
Qed.

Lemma matched_intro (pattern s : string) :
  MatchString pattern s = Some true -> domain.matched pattern s = true.
Proof. unfold domain.matched. intros ->. reflexivity. Qed.

Lemma digit_string_not_a_digit (w : Z) (s : string) :
  digit_string w s ->
  forallb (fun char => negb (domain.not_a_digit char)) (list_ascii_of_string s) = true.
Proof.
  intros [_ Hall]. induction s as [| c s IH]; [reflexivity |].
  simpl in Hall. apply andb_prop in Hall as [Hc Hall].
  simpl. rewrite (IH Hall), andb_true_r.
  unfold is_digit in Hc. apply andb_prop in Hc as [Hlo Hhi].
  unfold domain.not_a_digit.
  destruct (Z.ltb_spec (byte_of_ascii c) 48); [lia |].
  destruct (Z.ltb_spec 57 (byte_of_ascii c)); [lia | reflexivity].
Qed.

End Compositions.

(** The case of the table for a pattern, out of the membership of the
    pair in the table. *)
Ltac table_case Hin :=
  let Hcase := fresh "Hcase" in
  unfold patternTable in Hin;
  repeat (destruct Hin as [Hcase | Hin]; [try discriminate Hcase |]);
  [injection Hcase as <- | destruct Hin].

Section GeneratedIdentifiers.

Context `{MathRand} `{GoTime}.

Import regexp.

Lemma piece_wider (ranges ranges' : list (ascii * ascii)) (lo hi : Z) (x : string) :
  (forall c, in_class ranges c = true -> in_class ranges' c = true) ->
  piece ranges lo hi x -> piece ranges' lo hi x.
Proof.
  intros Hwider [Hlen Hclass]. split; [exact Hlen |].
  clear Hlen. induction x as [| c x IH]; [reflexivity |].
  simpl in Hclass. apply andb_prop in Hclass as [Hc Hx].
  simpl. rewrite (Hwider c Hc), (IH Hx). reflexivity.
Qed.

(** X14. The stock-keeping units, the warehouse locations, the diagnosis
    codes and the provider identifiers the generator makes for the
    patterns of the e-commerce and healthcare schemas pass the checks
    of the domain rules for them. *)
Theorem generated_identifiers_pass_domain_rules :
  yields (generateFromPattern "^[A-Z]{2}[0-9]{6}$")
         (fun s => domain.isValidSKU s = true) /\
  yields (generateFromPattern "^[A-Z]{2}-[A-Z]{3}-[0-9]{3}$")
         (fun s => domain.isValidWarehouseLocation s = true) /\
  yields (generateFromPattern "^[A-Z][0-9]{2}\.[0-9]{1,2}$")
         (fun s => domain.isValidICD10 s = true) /\
  yields (generateFromPattern "^[0-9]{10}$")
         (fun s => domain.isValidNPI s = true).
Proof.
  pose proof pattern_cases_conform as Hall. rewrite List.Forall_forall in Hall.
  repeat split.
  - apply generateFromPattern_case; [vm_compute; reflexivity |].
    intros gen Hin. eapply yields_weaken; [exact (Hall _ Hin) |].
    intros s Hs. apply matched_intro. exact Hs.
  - apply generateFromPattern_case; [vm_compute; reflexivity |].
    intros gen Hin. eapply yields_weaken; [exact (Hall _ Hin) |].
    intros s Hs. apply matched_intro. exact Hs.
  - apply generateFromPattern_case; [vm_compute; reflexivity |].
    intros gen Hin. table_case Hin.
    repeat yield_step. apply matched_intro.
    eapply MatchString_intro; [vm_compute; reflexivity |].
    unfold str1. rewrite ?append_cons, ?append_nil_l.
    apply Lang_char; [assumption |].
    apply Lang_piece; [eapply Lang_repeat_class; [eassumption | simpl; lia ..] |].
    apply Lang_piece_end, Lang_optional.
    apply Lang_char; [reflexivity |].
    apply Lang_piece_end.
    apply (Lang_repeat_class [("0"%char, "9"%char); ("X"%char, "X"%char)] 1 4 2 2);
      [| lia | lia].
    eapply piece_wider; [| eassumption].
    intros c Hc. unfold in_class in *. simpl in *.
    rewrite orb_false_r in Hc. rewrite Hc. reflexivity.
  - apply generateFromPattern_case; [vm_compute; reflexivity |].
    intros gen Hin. table_case Hin.
    eapply yields_weaken; [apply yields_padded; lia |].
    intros s Hs. apply digit_string_piece in Hs.
    unfold domain.isValidNPI. rewrite (proj1 Hs). cbn [Z.eqb negb Pos.eqb].
    apply (digit_string_not_a_digit 10). exact Hs.
Qed.



End GeneratedIdentifiers.


(** A string node without constraints: between 5 and 20 characters. *)
Lemma generateString_plain_in_bounds_example :
  exists cs r',
    @generateString lcgRand secondsClock Examples.in_order
                    (Examples.node_of_type "string" "name") 0
    = Ok (string_of_chars cs, r') /\
    5 <= len cs <= 20.
Proof.
  destruct (@generateString_plain_in_bounds lcgRand secondsClock Examples.in_order
              (Examples.node_of_type "string" "name") 0 eq_refl eq_refl
              ltac:(simpl; lia) ltac:(simpl; lia)) as (cs & r' & Hrun & Hlen & _).
  exists cs, r'. split; [exact Hrun | exact Hlen].
Defined.

(** ** package schema: building the tree of nodes

    [buildNode] reads a JSON object as [encoding/json] decodes it into a
    [map[string]interface{}]: numbers are [float64], arrays are
    [[]interface{}], objects are maps. No [return] of [buildNode]
    creates an error; the two that pass on the error of a recursive
    call are therefore never taken, and the model returns the node. *)

Class Strings : Type := {
  (** [strings.ToLower] *)
  ToLower : string -> string }.

Section Parser.

Context `{Strings}.

Record Parser : Type := mkParser {
  raw : option (gmap string Value) }.

(** The node [buildNode] starts from. *)
Definition newNode (path : string) (required : bool) (optionalProb : float) : SchemaNode :=
  mkSchemaNode "" None None [] [] [] "" "" None None None None None None None
               "" false [] path required optionalProb.

Definition as_string (v : option Value) : option string :=
  match v with Some (VString s) => Some s | _ => None end.

Definition as_float (v : option Value) : option float :=
  match v with Some (VFloat64 f) => Some f | _ => None end.

Definition as_slice (v : option Value) : option (list Value) :=
  match v with Some (VSlice l) => Some l | _ => None end.

(** The strings of a slice, in order. *)
Definition strings_of (l : list Value) : list string :=
  flat_map (fun v => match v with VString s => [s] | _ => [] end) l.

(** One element of [x-cross-field-rules]; [None] when it is not an
    object. *)
Definition buildRule (ruleRaw : Value) : option CrossFieldRule :=
  match ruleRaw with
  | VMap ruleMap =>
    Some {| Name := default "" (as_string (ruleMap !! "name"));
            Description := default "" (as_string (ruleMap !! "description"));
            Fields := match as_slice (ruleMap !! "fields") with
                      | Some fields => strings_of fields
                      | None => []
                      end;
            Rule := default "" (as_string (ruleMap !! "rule"));
            Constraint := "";
            Severity := default "" (as_string (ruleMap !! "severity"));
            Patch := None |}
  | _ => None
  end.

Definition buildRules (rulesRaw : option (list Value)) : list CrossFieldRule :=
  match rulesRaw with
  | Some rulesRaw => flat_map (fun ruleRaw => match buildRule ruleRaw with
                                              | Some rule => [rule]
                                              | None => []
                                              end) rulesRaw
  | None => []
  end.

(** [buildNode]. The recursion goes through the values of the map: for
    every value, its node as a function of the path and the flags, and,
    when the value is an object, the nodes of its own values that are
    objects (what [properties] needs). *)
Fixpoint buildNode (rawValue : Value) (path : string) (required : bool)
    (optionalProb : float) {struct rawValue} : SchemaNode :=
  match rawValue with
  | VMap raw =>
    let built :=
      (fun child =>
         (buildNode child,
          match child with
          | VMap props =>
            Some ((fun propRaw =>
                     match propRaw with
                     | VMap _ => Some (buildNode propRaw)
                     | _ => None
                     end) <$> props)
          | _ => None
          end)) <$> raw in
    let type := default "" (as_string (raw !! "type")) in
    let description := as_string (raw !! "description") in
    let llm :=
      match description with
      | Some desc => String.prefix "llm:" (ToLower desc)
      | None => false
      end in
    let llm := match raw !! "x-llm" with Some (VBool llmFlag) => llmFlag | _ => llm end in
    let llm :=
      match description with
      | Some desc => if String.prefix "llm:" desc then true else llm
      | None => llm
      end in
    let requiredNames :=
      match as_slice (raw !! "required") with
      | Some reqArray => strings_of reqArray
      | None => []
      end in
    let requiredFields : gset string := list_to_set requiredNames in
    let properties :=
      if String.eqb type "object" then
        match built !! "properties" with
        | Some (_, Some props) =>
          Some (map_imap (fun propName prop =>
                            match prop with
                            | Some build =>
                              let propPath :=
                                (if negb (String.eqb path "") then path ++ "." else path)
                                ++ propName in
                              Some (build propPath
                                          (bool_decide (propName ∈ requiredFields))
                                          optionalProb)
                            | None => None
                            end) props)
        | _ => None
        end
      else None in
    let items :=
      if String.eqb type "array" then
        match raw !! "items", built !! "items" with
        | Some (VMap _), Some (build, _) => Some (build (path ++ "[]") true optionalProb)
        | _, _ => None
        end
      else None in
    {| Type_ := type;
       Properties := properties;
       Items := items;
       Required := match properties with Some _ => requiredNames | None => [] end;
       Enum := default [] (as_slice (raw !! "enum"));
       Examples := default [] (as_slice (raw !! "examples"));
       Format := default "" (as_string (raw !! "format"));
       Pattern := default "" (as_string (raw !! "pattern"));
       MinLength := int64_of_float64 <$> as_float (raw !! "minLength");
       MaxLength := int64_of_float64 <$> as_float (raw !! "maxLength");
       Minimum := as_float (raw !! "minimum");
       Maximum := as_float (raw !! "maximum");
       MinItems := int64_of_float64 <$> as_float (raw !! "minItems");
       MaxItems := int64_of_float64 <$> as_float (raw !! "maxItems");
       MultipleOf := as_float (raw !! "multipleOf");
       NodeDescription := default "" description;
       LLMEnhanced := llm;
       CrossFieldRules := buildRules (as_slice (raw !! "x-cross-field-rules"));
       Path := path;
       IsRequired := required;
       OptionalProb := optionalProb |}
  | _ => newNode path required optionalProb
  end.

(** [GetRootNode] *)
Definition GetRootNode (p : Parser) : option SchemaNode :=
  match raw p with
  | Some raw => Some (buildNode (VMap raw) "" false 0.9)
  | None => None
  end.

(** [collectCrossFieldRules]: the rules of the node, then those of its
    properties in the order the runtime ranges over them, then those of
    its items. *)
Fixpoint collectCrossFieldRules (rt : Runtime) (node : SchemaNode) {struct node}
    : list CrossFieldRule :=
  app (CrossFieldRules node)
      (app (match Properties node with
            | Some props =>
              let collected := collectCrossFieldRules rt <$> props in
              flat_map (fun name => default [] (collected !! name))
                       (rangeOrder rt (map fst (map_to_list props)))
            | None => []
            end)
           (match Items node with
            | Some items => collectCrossFieldRules rt items
            | None => []
            end)).

Definition GetCrossFieldRules (rt : Runtime) (node : SchemaNode) : list CrossFieldRule :=
  collectCrossFieldRules rt node.

(** [validator.New]: with no schema loaded [GetRootNode] returns nil
    and an error that is dropped, and the collection of the rules
    dereferences nil. *)
Definition New (rt : Runtime) (parser : Parser) : outcome Validator :=
  match GetRootNode parser with
  | Some rootNode => Ok {| rules := GetCrossFieldRules rt rootNode |}
  | None => Panic "invalid memory address or nil pointer dereference"
  end.

End Parser.

(** ** The rules a schema gives the validator *)

Section ParserProperties.

Context `{Strings} `{Strconv}.

(** The depth of the objects nested in a value. *)
Fixpoint value_depth (v : Value) : nat :=
  match v with
  | VMap m => S (map_fold (fun _ d acc => Nat.max d acc) O (value_depth <$> m))
  | _ => O
  end.

Lemma map_fold_max_ge (m : gmap string nat) (k : string) (d : nat) :
  m !! k = Some d -> (d <= map_fold (fun _ d acc => Nat.max d acc) O m)%nat.
Proof.
  induction m as [| i x m Hi Hfold IH] using map_first_key_ind.
  - rewrite lookup_empty. discriminate.
  - rewrite map_fold_insert_first_key by assumption.
    destruct (decide (k = i)) as [-> | Hne].
    + rewrite lookup_insert_eq. intros [= ->]. lia.
    + rewrite lookup_insert_ne by congruence. intros Hk. specialize (IH Hk). lia.
Qed.

Lemma value_depth_child (m : gmap string Value) (k : string) (child : Value) :
  m !! k = Some child -> (value_depth child < value_depth (VMap m))%nat.
Proof.
  intros Hk. simpl.
  pose proof (map_fold_max_ge (value_depth <$> m) k (value_depth child)) as Hge.
  rewrite lookup_fmap, Hk in Hge. specialize (Hge eq_refl). lia.
Qed.

Lemma buildRules_unpatched (rulesRaw : option (list Value)) (rule : CrossFieldRule) :
  In rule (buildRules rulesRaw) -> Patch rule = None.
Proof.
  unfold buildRules. destruct rulesRaw as [l |]; [| intros []].
  intros Hin. apply in_flat_map in Hin as (ruleRaw & _ & Hin).
  destruct ruleRaw; simpl in Hin; try contradiction.
  destruct Hin as [<- | []]. reflexivity.
Qed.

Lemma buildNode_Items (raw : gmap string Value) path required prob items :
  Items (buildNode (VMap raw) path required prob) = Some items ->
  exists im, raw !! "items" = Some (VMap im) /\
             items = buildNode (VMap im) (path ++ "[]") true prob.
Proof.
  simpl. destruct (String.eqb _ "array"); [| discriminate].
  rewrite lookup_fmap.
  destruct (raw !! "items") as [[] |]; simpl; try discriminate.
  intros [= <-]. eexists. split; reflexivity.
Qed.

Lemma buildNode_Properties (raw : gmap string Value) path required prob nodes :
  Properties (buildNode (VMap raw) path required prob) = Some nodes ->
  exists props,
    raw !! "properties" = Some (VMap props) /\
    forall name node, nodes !! name = Some node ->
      exists pm path' required',
        props !! name = Some (VMap pm) /\ node = buildNode (VMap pm) path' required' prob.
Proof.
  simpl. destruct (String.eqb _ "object"); [| discriminate].
  rewrite lookup_fmap.
  destruct (raw !! "properties") as [[] |]; simpl; try discriminate.
  intros [= <-]. eexists. split; [reflexivity |].
  intros name node. rewrite map_lookup_imap, lookup_fmap.
  destruct (_ !! name) as [[] |]; simpl; try discriminate.
  intros [= <-]. eexists _, _, _. split; reflexivity.
Qed.

Lemma collect_unfold (rt : Runtime) (node : SchemaNode) :
  collectCrossFieldRules rt node =
  app (CrossFieldRules node)
      (app (match Properties node with
            | Some props =>
              flat_map (fun name => default [] ((collectCrossFieldRules rt <$> props) !! name))
                       (rangeOrder rt (map fst (map_to_list props)))
            | None => []
            end)
           (match Items node with
            | Some items => collectCrossFieldRules rt items
            | None => []
            end)).
Proof. destruct node. reflexivity. Qed.

Lemma built_rules_unpatched (rt : Runtime) (n : nat) :
  forall rawValue path required prob rule,
    (value_depth rawValue <= n)%nat ->
    In rule (collectCrossFieldRules rt (buildNode rawValue path required prob)) ->
    Patch rule = None.
Proof.
  induction n as [| n IH]; intros rawValue path required prob rule Hdepth Hin.
  - destruct rawValue; try (simpl in Hin; destruct Hin). simpl in Hdepth. lia.
  - destruct rawValue as [| | | | | | | raw]; try (simpl in Hin; destruct Hin).
    rewrite collect_unfold in Hin.
    apply in_app_or in Hin as [Hin | Hin];
      [exact (buildRules_unpatched _ _ Hin) |].
    apply in_app_or in Hin as [Hin | Hin].
    + destruct (Properties _) as [nodes |] eqn:Hnodes; [| destruct Hin].
      apply buildNode_Properties in Hnodes as (props & Hprops & Hnodes).
      apply in_flat_map in Hin as (name & _ & Hin).
      rewrite lookup_fmap in Hin.
      destruct (nodes !! name) as [node |] eqn:Hnode; [| destruct Hin].
      change (In rule (collectCrossFieldRules rt node)) in Hin.
      destruct (Hnodes name node Hnode) as (pm & path' & required' & Hpm & ->).
      apply (IH _ _ _ _ _) in Hin; [exact Hin |].
      pose proof (value_depth_child _ _ _ Hprops).
      pose proof (value_depth_child _ _ _ Hpm). lia.
    + destruct (Items _) as [items |] eqn:Hitems; [| destruct Hin].
      apply buildNode_Items in Hitems as (im & Him & ->).
      apply (IH _ _ _ _ _) in Hin; [exact Hin |].
      pose proof (value_depth_child _ _ _ Him). lia.
Qed.

Lemma patch_loop_without_patches (h : Heap) (patched : loc) (errors : list string)
    (todo : list CrossFieldRule) :
  (forall rule, In rule todo -> Patch rule = None) ->
  patch_loop h patched errors todo = (h, None).
Proof.
  induction todo as [| rule todo IH]; intros Hnone; [reflexivity |].
  simpl. rewrite (Hnone rule (or_introl eq_refl)).
  apply IH. intros rule' Hin. apply Hnone. right. exact Hin.
Qed.

(** X21. The validator of a schema holds rules without a patch only:
    [buildNode] reads the name, the description, the fields, the kind
    and the severity of a rule, never its [patch]. On a record whose
    validation reports errors, the step of [generateRecord] that
    validates and patches therefore replaces the data by a new map with
    the same content, leaves the map it was given as it was, keeps the errors,
    and marks the record as patched. *)
Theorem schema_rules_never_patch (rt : Runtime) (parser : Parser) (v : Validator)
    (h : Heap) (record : generatedRecord) :
  New rt parser = Ok v ->
  (forall rule, In rule (rules v) -> Patch rule = None) /\
  (ValidateRecord v (heap_get h (Data record)) <> [] ->
   exists h' patched,
     validate_and_patch v h record =
     (h', {| Data := patched; RecordLLMEnhanced := RecordLLMEnhanced record;
             ValidationErrors := ValidateRecord v (heap_get h (Data record));
             Patched := true |}) /\
     (patched ∉ dom h) /\
     heap_get h' patched = heap_get h (Data record) /\
     heap_get h' (Data record) = heap_get h (Data record)).
Proof.
  intros Hnew. unfold New, GetRootNode in Hnew.
  destruct (raw parser) as [raw |]; [| discriminate].
  apply (f_equal (fun o => match o with Ok x => rules x | _ => [] end)) in Hnew.
  assert (Hnone : forall rule, In rule (rules v) -> Patch rule = None).
  { rewrite <- Hnew. intros rule Hin.
    exact (built_rules_unpatched rt _ _ _ _ _ _ (le_n _) Hin). }
  clear Hnew. split; [exact Hnone |].
  intros Herrors. unfold validate_and_patch.
  set (errors := ValidateRecord v (heap_get h (Data record))) in *.
  pose proof (len_pos errors Herrors) as Hsome.
  destruct (Z.ltb_spec 0 (len errors)) as [_ | Hempty]; [| lia].
  cbn [Data]. unfold PatchRecord, heap_alloc. cbv zeta.
  rewrite patch_loop_without_patches by exact Hnone.
  eexists _, _. split; [reflexivity |].
  pose proof (is_fresh (dom h)) as Hfresh.
  split; [exact Hfresh |].
  assert (Hcopy : heap_get (<[fresh (dom h) := ∅]> h) (Data record)
                  = heap_get h (Data record)).
  { destruct (decide (fresh (dom h) = Data record)) as [Heq | Hne].
    - rewrite <- Heq, heap_get_insert_eq. unfold heap_get.
      apply not_elem_of_dom in Hfresh. rewrite Hfresh. reflexivity.
    - apply heap_get_insert_ne. exact Hne. }
  unfold heap_update. rewrite insert_insert_eq, Hcopy. split.
  - apply heap_get_insert_eq.
  - destruct (decide (fresh (dom h) = Data record)) as [Heq | Hne].
    + rewrite <- Heq. apply heap_get_insert_eq.
    + apply heap_get_insert_ne. exact Hne.
Qed.

End ParserProperties.

(** Lower case for the letters of ASCII; the examples need an instance
    of [strings.ToLower]. *)
Definition ascii_lower (c : ascii) : ascii :=
  let b := byte_of_ascii c in
  if (65 <=? b) && (b <=? 90) then ascii_of_byte (b + 32) else c.

Fixpoint lower (s : string) : string :=
  match s with
  | EmptyString => EmptyString
  | String c s' => String (ascii_lower c) (lower s')
  end.

#[export] Instance asciiLower : Strings := {| ToLower := lower |}.

(** A schema whose only rule forbids an e-mail address together with a
    telephone number, and asks for the removal of the number:
    [{"type": "object", "x-cross-field-rules": [{"name": "one_contact",
      "rule": "mutual_exclusion", "fields": ["email", "phone"],
      "patch": {"strategy": "remove_field", "target": "phone"}}]}] *)
Definition one_contact_schema : gmap string Value :=
  <["type" := VString "object"]>
    (<["x-cross-field-rules" :=
         VSlice [VMap (<["name" := VString "one_contact"]>
                      (<["rule" := VString "mutual_exclusion"]>
                      (<["fields" := VSlice [VString "email"; VString "phone"]]>
                      (<["patch" := VMap (<["strategy" := VString "remove_field"]>
                                         (<["target" := VString "phone"]> ∅))]> ∅))))]]> ∅).

Definition one_contact_validator : Validator :=
  {| rules := [ {| Name := "one_contact"; Description := ""; Fields := ["email"; "phone"];
                   Rule := "mutual_exclusion"; Constraint := ""; Severity := "";
                   Patch := None |} ] |}.

Definition both_contacts : gmap string Value :=
  <["email" := VString "a@example.com"]> (<["phone" := VString "555-0100"]> ∅).

(** The record with both contacts is reported, marked as patched, and
    still holds both. *)
Lemma schema_rules_never_patch_example :
  exists h' patched errors,
    @New asciiLower Examples.in_order {| raw := Some one_contact_schema |}
    = Ok one_contact_validator /\
    @validate_and_patch wholeNumbers one_contact_validator
      (<[1%positive := both_contacts]> ∅)
      {| Data := 1%positive; RecordLLMEnhanced := false; ValidationErrors := [];
         Patched := false |}
    = (h', {| Data := patched; RecordLLMEnhanced := false; ValidationErrors := errors;
              Patched := true |}) /\
    errors <> [] /\
    heap_get h' patched = both_contacts.
Proof.
  assert (Hnew : @New asciiLower Examples.in_order {| raw := Some one_contact_schema |}
                 = Ok one_contact_validator) by (vm_compute; reflexivity).
  assert (Herrors : @ValidateRecord wholeNumbers one_contact_validator
                      (heap_get (<[1%positive := both_contacts]> ∅) 1%positive) <> [])
    by (vm_compute; discriminate).
  destruct (proj2 (@schema_rules_never_patch asciiLower wholeNumbers Examples.in_order
                     {| raw := Some one_contact_schema |} one_contact_validator
                     (<[1%positive := both_contacts]> ∅)
                     {| Data := 1%positive; RecordLLMEnhanced := false;
                        ValidationErrors := []; Patched := false |} Hnew) Herrors)
    as (h' & patched & Hrun & _ & Hcopy & _).
  exists h', patched,
    (@ValidateRecord wholeNumbers one_contact_validator
       (heap_get (<[1%positive := both_contacts]> ∅) 1%positive)).
  split; [exact Hnew |]. split; [exact Hrun |].
  split; [exact Herrors |]. rewrite Hcopy. apply heap_get_insert_eq.
Defined.

(** ** A patch that repairs *)

Section PatchRoundTrip.

Context `{Strconv}.

Lemma ValidateRecord_single (v : Validator) (rule : CrossFieldRule) (data : gmap string Value) :
  rules v = [rule] ->
  ValidateRecord v data =
  match validateCrossFieldRule data rule with
  | Some e => ["Cross-field rule '" ++ Name rule ++ "' failed: " ++ e]
  | None => []
  end.
Proof.
  intros Hrules. unfold ValidateRecord. rewrite Hrules. simpl.
  destruct (validateCrossFieldRule data rule); reflexivity.
Qed.

(** X22. A validator with one rule, a mutual exclusion between two fields
    that is patched by removing one of them: a record that violates the
    rule is copied, the field is removed from the copy, and the copy
    passes the validation. *)
Theorem remove_field_repairs_mutual_exclusion (v : Validator) (h : Heap) (data : loc)
    (rule : CrossFieldRule) (patch : PatchRule) (a b : string) :
  rules v = [rule] ->
  Rule rule = "mutual_exclusion" -> Fields rule = [a; b] ->
  Patch rule = Some patch ->
  Strategy patch = "remove_field" -> Target patch = a \/ Target patch = b ->
  is_Some (h !! data) ->
  ValidateRecord v (heap_get h data) <> [] ->
  exists h' patched,
    PatchRecord v h data (ValidateRecord v (heap_get h data)) = (h', (Some patched, None)) /\
    heap_get h' patched = delete (Target patch) (heap_get h data) /\
    ValidateRecord v (heap_get h' patched) = [].
Proof.
  intros Hrules Hkind Hfields Hpatch Hstrategy Htarget Hdata Herrors.
  rewrite (ValidateRecord_single v rule _ Hrules) in Herrors |- *.
  destruct (validateCrossFieldRule (heap_get h data) rule) as [e |] eqn:Hfail;
    [clear Herrors | congruence].
  set (errors := ["Cross-field rule '" ++ Name rule ++ "' failed: " ++ e]).
  assert (Hviolated : ruleViolated errors (Name rule) = true).
  { unfold ruleViolated, errors. cbn [existsb]. rewrite failure_names_rule. reflexivity. }
  assert (Hdue : repairs_due v errors = [patch]).
  { unfold repairs_due. rewrite Hrules. cbn [flat_map]. rewrite Hpatch, Hviolated.
    reflexivity. }
  assert (Hrepair : repair patch (heap_get h data)
                    = Some (delete (Target patch) (heap_get h data))).
  { unfold repair. rewrite Hstrategy. reflexivity. }
  pose proof (PatchRecord_repairs v h data errors Hdata) as Hrun.
  rewrite Hdue in Hrun. simpl in Hrun. rewrite Hrepair in Hrun.
  destruct Hrun as (h' & patched & Hrun & _ & Hcopy & _).
  exists h', patched. split; [exact Hrun |].
  assert (Hget : heap_get h' patched = delete (Target patch) (heap_get h data)).
  { unfold heap_get at 1. rewrite Hcopy. reflexivity. }
  split; [exact Hget |].
  rewrite (ValidateRecord_single v rule _ Hrules), Hget.
  unfold validateCrossFieldRule. rewrite Hkind, Hfields. simpl.
  unfold validateMutualExclusion. simpl.
  destruct Htarget as [-> | ->].
  - rewrite lookup_delete_eq.
    destruct (delete a (heap_get h data) !! b); reflexivity.
  - rewrite lookup_delete_eq.
    destruct (delete b (heap_get h data) !! a); reflexivity.
Qed.

End PatchRoundTrip.

(** The rule of the validator [one_contact_validator] with the patch
    its schema asks for. *)
Definition one_contact_patched : Validator :=
  {| rules := [ {| Name := "one_contact"; Description := ""; Fields := ["email"; "phone"];
                   Rule := "mutual_exclusion"; Constraint := ""; Severity := "";
                   Patch := Some {| Strategy := "remove_field"; Target := "phone";
                                    PatchValue := VNil; Params := ∅ |} |} ] |}.

Lemma remove_field_repairs_mutual_exclusion_example :
  exists h' patched,
    @PatchRecord wholeNumbers one_contact_patched (<[1%positive := both_contacts]> ∅) 1%positive
      (@ValidateRecord wholeNumbers one_contact_patched both_contacts)
    = (h', (Some patched, None)) /\
    heap_get h' patched = <["email" := VString "a@example.com"]> ∅ /\
    @ValidateRecord wholeNumbers one_contact_patched (heap_get h' patched) = [].
Proof.
  destruct (@remove_field_repairs_mutual_exclusion wholeNumbers one_contact_patched
              (<[1%positive := both_contacts]> ∅) 1%positive _ _ "email" "phone"
              eq_refl eq_refl eq_refl eq_refl eq_refl (or_intror eq_refl)
              ltac:(rewrite lookup_insert_eq; eauto)
              ltac:(vm_compute; discriminate))
    as (h' & patched & Hrun & Hget & Hvalid).
  exists h', patched. split; [exact Hrun |]. split; [| exact Hvalid].
  rewrite Hget. vm_compute. reflexivity.
Defined.

(** ** The identifiers of format [uuid] *)

Section UUID.

Context `{MathRand}.

Import regexp.

Definition hex : list (ascii * ascii) := [("0"%char, "9"%char); ("a"%char, "f"%char)].

(** A property of the integers below a bound, decided by running over
    them. *)
Lemma below_bound (n : nat) (test : Z -> bool) :
  forallb test (map Z.of_nat (seq 0 n)) = true ->
  forall x, 0 <= x < Z.of_nat n -> test x = true.
Proof.
  intros Hall x Hx. rewrite forallb_forall in Hall. apply Hall.
  apply in_map_iff. exists (Z.to_nat x). split; [lia |]. apply in_seq. lia.
Qed.

Lemma hex_digit_class (d : Z) : 0 <= d < 16 -> in_class hex (hex_digit d) = true.
Proof. apply (below_bound 16 (fun d => in_class hex (hex_digit d))). reflexivity. Qed.

Lemma hex_byte_class (b : Z) :
  0 <= b < 256 ->
  in_class hex (hex_digit (b / 16)) = true /\ in_class hex (hex_digit (b mod 16)) = true.
Proof.
  intros Hb. split; apply hex_digit_class.
  - split; [apply Z.div_pos; lia | apply Z.div_lt_upper_bound; lia].
  - apply Z.mod_pos_bound. lia.
Qed.

(** [(b & 0x0f) | 0x40]: the high digit is 4. *)
Lemma version_byte (b : Z) :
  0 <= b < 256 ->
  hex_digit (Z.lor (Z.land b 0x0f) 0x40 / 16) = "4"%char /\
  in_class hex (hex_digit (Z.lor (Z.land b 0x0f) 0x40 mod 16)) = true.
Proof.
  intros Hb.
  pose proof (below_bound 256
                (fun b => Ascii.eqb (hex_digit (Z.lor (Z.land b 0x0f) 0x40 / 16)) "4"
                          && in_class hex (hex_digit (Z.lor (Z.land b 0x0f) 0x40 mod 16)))
                ltac:(vm_compute; reflexivity) b Hb) as Htest.
  cbv beta in Htest. apply andb_prop in Htest as [H4 Hlow].
  apply Ascii.eqb_eq in H4. split; assumption.
Qed.

(** [(b & 0x3f) | 0x80]: the high digit is 8, 9, a or b. *)
Lemma variant_byte (b : Z) :
  0 <= b < 256 ->
  in_class [("8"%char, "8"%char); ("9"%char, "9"%char); ("a"%char, "a"%char);
            ("b"%char, "b"%char)]
           (hex_digit (Z.lor (Z.land b 0x3f) 0x80 / 16)) = true /\
  in_class hex (hex_digit (Z.lor (Z.land b 0x3f) 0x80 mod 16)) = true.
Proof.
  intros Hb.
  pose proof (below_bound 256
                (fun b => in_class [("8"%char, "8"%char); ("9"%char, "9"%char);
                                    ("a"%char, "a"%char); ("b"%char, "b"%char)]
                                   (hex_digit (Z.lor (Z.land b 0x3f) 0x80 / 16))
                          && in_class hex (hex_digit (Z.lor (Z.land b 0x3f) 0x80 mod 16)))
                ltac:(vm_compute; reflexivity) b Hb) as Htest.
  cbv beta in Htest. apply andb_prop in Htest. exact Htest.
Qed.

(** X13. [generateUUID] succeeds from every state of the generator, and what
    it returns has the form of a version 4 identifier: 32 lower-case
    hexadecimal digits in groups of 8, 4, 4, 4 and 12 between hyphens,
    the third group beginning with 4 and the fourth with 8, 9, a or
    b. *)
Theorem generateUUID_is_version4 :
  yields generateUUID
         (fun s => MatchString
                     "^[0-9a-f]{8}-[0-9a-f]{4}-4[0-9a-f]{3}-[89ab][0-9a-f]{3}-[0-9a-f]{12}$" s
                   = Some true).
Proof.
  intros r. unfold generateUUID, gbind, Read, ret.
  pose proof (rand_Read_length 16 r ltac:(lia)) as Hlen.
  pose proof (rand_Read_bytes 16 r) as Hbytes.
  destruct (rand_Read 16 r) as [bs r']. cbn [fst snd] in *.
  eexists _, _. split; [reflexivity |].
  destruct bs as [| b0 [| b1 [| b2 [| b3 [| b4 [| b5 [| b6 [| b7 [| b8 [| b9 [| b10 [| b11
            [| b12 [| b13 [| b14 [| b15 [| b16 bs]]]]]]]]]]]]]]]]];
    try (simpl in Hlen; lia).
  clear Hlen.
  repeat match goal with
         | Hall : Forall _ (_ :: _) |- _ =>
           let Hb := fresh "Hb" in
           apply List.Forall_cons_iff in Hall as [Hb Hall]
         end.
  destruct (version_byte b6 ltac:(assumption)) as [Hversion Hversion_low].
  destruct (variant_byte b8 ltac:(assumption)) as [Hvariant Hvariant_low].
  repeat match goal with
         | Hb : 0 <= ?b < 256 |- _ =>
           let Hhigh := fresh "Hhigh" in
           let Hlow := fresh "Hlow" in
           destruct (hex_byte_class b Hb) as [Hhigh Hlow]; clear Hb
         end.
  eapply MatchString_intro; [vm_compute; reflexivity |].
  cbn [list_insert insert firstn skipn hex_bytes nth Nat.sub].
  rewrite ?append_cons, ?append_nil_l.
  rewrite Hversion.
  lang.
Qed.

End UUID.

(** ** Ten digits out of nine *)

Section TenDigits.

Context `{MathRand} `{GoTime}.

Lemma pad0_leading_zero (w v : Z) :
  1 < w -> 0 <= v < 10 ^ (w - 1) ->
  exists rest, pad0 w v = String "0" rest /\ digit_string (w - 1) rest.
Proof.
  intros Hw Hv.
  destruct (itoa_digits v (w - 1) ltac:(lia) Hv) as (Hall & Hlen & _).
  unfold pad0. rewrite Z.abs_eq by lia.
  destruct (Z.ltb_spec v 0) as [Hneg | _]; [lia |].
  assert (Hcount : exists n, Z.to_nat (w - strlen (itoa v)) = S n
                             /\ Z.of_nat n = w - 1 - strlen (itoa v)).
  { exists (Z.to_nat (w - 1 - strlen (itoa v))). unfold strlen in *. lia. }
  destruct Hcount as (n & -> & Hn).
  exists (repeat_char "0" n ++ itoa v). split; [reflexivity |].
  destruct (zeros_digits n) as [Hzeros Hcount].
  unfold digit_string, strlen in *.
  rewrite length_app, all_digits_app, Hzeros, Hall, Hcount. split; [lia | reflexivity].
Qed.

Lemma yields_padded_zero :
  yields (padded 10 1000000000)
         (fun s => exists rest, s = String "0" rest /\ digit_string 9 rest).
Proof.
  unfold padded. eapply yields_bind; [apply yields_Intn; lia |].
  intros v Hv. cbv beta in Hv. apply yields_ret.
  exact (pad0_leading_zero 10 v ltac:(lia) ltac:(lia)).
Qed.

(** X12. The cases of the patterns [^[0-9]{10}$] and [^TXN-[0-9]{10}$] draw
    a number below [10^9] and write it on ten digits: the first of the
    ten digits is always 0. *)
Theorem ten_digits_start_with_zero :
  yields (generateFromPattern "^[0-9]{10}$")
         (fun s => exists rest, s = String "0" rest /\ digit_string 9 rest) /\
  yields (generateFromPattern "^TXN-[0-9]{10}$")
         (fun s => exists rest, s = "TXN-0" ++ rest /\ digit_string 9 rest).
Proof.
  split.
  - apply generateFromPattern_case; [vm_compute; reflexivity |].
    intros gen Hin. table_case Hin. exact yields_padded_zero.
  - apply generateFromPattern_case; [vm_compute; reflexivity |].
    intros gen Hin. table_case Hin.
    eapply yields_bind; [exact yields_padded_zero |].
    intros s (rest & -> & Hrest). apply yields_ret.
    exists rest. split; [reflexivity | exact Hrest].
Qed.

End TenDigits.

(** ** Objects whose properties are all required *)

Section AllRequired.

Context `{MathRand} `{GoTime}.

(** The second loop of [generateObject] passes over a property that is
    required without a draw. *)
Lemma optional_loop_skips (required : gset string)
    (properties : gmap string (float * G Value)) (order : list string)
    (result : gmap string Value) (r : Rand) :
  (forall k, is_Some (properties !! k) -> k ∈ required) ->
  foldG (fun (result : gmap string Value) propName =>
           match properties !! propName with
           | Some (optionalProb, generateProp) =>
             if bool_decide (propName ∈ required) then ret result
             else
               f <- Float64 ;;
               if f64_lt f optionalProb then
                 value <- wrap_error ("failed to generate optional property " ++ propName)
                                     generateProp ;;
                 ret (<[propName := value]> result)
               else ret result
           | None => ret result
           end) order result r = Ok (result, r).
Proof.
  intros Hrequired. induction order as [| k order IH]; [reflexivity |].
  simpl. unfold gbind at 1.
  destruct (properties !! k) as [[p gen] |] eqn:Hk.
  - rewrite bool_decide_eq_true_2 by (apply Hrequired; rewrite Hk; eauto).
    unfold ret at 1. exact IH.
  - unfold ret at 1. exact IH.
Qed.

Lemma generateObject_with_all_required (rt : Runtime) (node : SchemaNode)
    (properties : gmap string (float * G Value)) (r : Rand) :
  (forall k, is_Some (properties !! k) ->
             k ∈ (list_to_set (Required node) : gset string)) ->
  generateObject_with rt node (Some properties) r =
  foldG (fun (result : gmap string Value) propName =>
           match properties !! propName with
           | Some (_, generateProp) =>
             value <- wrap_error ("failed to generate required property " ++ propName)
                                 generateProp ;;
             ret (<[propName := value]> result)
           | None => ret result
           end)
        (Required node) ∅ r.
Proof.
  intros Hall. unfold generateObject_with. cbv zeta. unfold gbind at 1.
  destruct (foldG _ (Required node) ∅ r) as [[result r1] | |]; [| reflexivity ..].
  apply optional_loop_skips. exact Hall.
Qed.

(** X8. An object every declared property of which is listed in [required]
    is generated without a look at the order in which the runtime
    ranges over the properties: two runtimes under which the properties
    are generated alike give the same object and leave the generator in
    the same state. *)
Theorem generateObject_all_required (g : DeterministicGenerator) (rt1 rt2 : Runtime)
    (node : SchemaNode) (props : gmap string SchemaNode) (r : Rand) :
  Properties node = Some props ->
  (forall k, is_Some (props !! k) -> In k (Required node)) ->
  (forall k prop, props !! k = Some prop ->
                  generateValue g rt1 prop = generateValue g rt2 prop) ->
  generateObject g rt1 node r = generateObject g rt2 node r.
Proof.
  intros Hprops Hrequired Hsame.
  unfold generateObject. rewrite Hprops.
  assert (Hmaps : (fun prop => (OptionalProb prop, generateValue g rt1 prop)) <$> props
                  = (fun prop => (OptionalProb prop, generateValue g rt2 prop)) <$> props).
  { apply map_fmap_ext. intros k prop Hk. rewrite (Hsame k prop Hk). reflexivity. }
  rewrite Hmaps.
  set (properties := (fun prop => (OptionalProb prop, generateValue g rt2 prop)) <$> props).
  assert (Hall : forall k, is_Some (properties !! k) ->
                           k ∈ (list_to_set (Required node) : gset string)).
  { intros k Hk. unfold properties in Hk. rewrite lookup_fmap in Hk.
    apply elem_of_list_to_set, list_elem_of_In, Hrequired.
    destruct (props !! k); [eauto | destruct Hk as [? Hk]; discriminate]. }
  rewrite !(generateObject_with_all_required _ node properties r Hall). reflexivity.
Qed.

End AllRequired.

(** [{"type": "object", "required": ["id", "note"],
      "properties": {"id": {"type": "integer"}, "note": {"type": "null"}}}] *)
Definition object_all_required : SchemaNode :=
  mkSchemaNode "object"
               (Some (<["id" := Examples.node_of_type "integer" "id"]>
                        (<["note" := Examples.node_of_type "null" "note"]> ∅)))
               None ["id"; "note"] [] [] "" "" None None None None None None None
               "" false [] "" false 0.9.

Lemma generateObject_all_required_example :
  @generateObject lcgRand secondsClock (NewDeterministicGenerator 42) Examples.in_order
                  object_all_required 0
  = @generateObject lcgRand secondsClock (NewDeterministicGenerator 42) Examples.reversed
                    object_all_required 0.
Proof.
  apply (@generateObject_all_required lcgRand secondsClock (NewDeterministicGenerator 42)
           Examples.in_order Examples.reversed object_all_required _ 0 eq_refl).
  - intros k [prop Hk]. simpl.
    destruct (decide (k = "id")) as [-> | Hid]; [left; reflexivity |].
    destruct (decide (k = "note")) as [-> | Hnote]; [right; left; reflexivity |].
    rewrite lookup_insert_ne, lookup_insert_ne, lookup_empty in Hk by congruence.
    discriminate.
  - intros k prop Hk.
    destruct (decide (k = "id")) as [-> | Hid].
    { rewrite lookup_insert_eq in Hk. injection Hk as <-. reflexivity. }
    rewrite lookup_insert_ne in Hk by congruence.
    destruct (decide (k = "note")) as [-> | Hnote].
    { rewrite lookup_insert_eq in Hk. injection Hk as <-. reflexivity. }
    rewrite lookup_insert_ne, lookup_empty in Hk by congruence. discriminate.
Defined.

(** ** Diagnosis codes the domain rules refuse *)

Section DiagnosisCodes.

Context `{MathRand} `{GoTime}.

Import regexp.

Lemma generateFromPattern_case_at (pattern : string) (r : Rand) (P : string -> Prop) :
  existsb (fun entry => String.eqb (fst entry) pattern) patternTable = true ->
  (forall gen, In (pattern, gen) patternTable ->
               exists s r', gen r = Ok (s, r') /\ P s) ->
  exists s r', generateFromPattern pattern r = Ok (s, r') /\ P s.
Proof.
  intros Hsome Hcases. apply lookupPattern_some in Hsome.
  unfold generateFromPattern.
  destruct (lookupPattern pattern) as [gen |] eqn:Hfound; [| congruence].
  apply Hcases, lookupPattern_case, Hfound.
Qed.

(** The letters of the suffix other than X are outside the class
    [[0-9X]]. *)
Lemma suffix_letter_refused (i : Z) :
  10 <= i < 36 -> i <> 33 ->
  in_class [("0"%char, "9"%char); ("X"%char, "X"%char)] (char_at digit_upper i) = false.
Proof.
  intros Hi Hne.
  pose proof (below_bound 36
                (fun i => (i <? 10) || (i =? 33)
                          || negb (in_class [("0"%char, "9"%char); ("X"%char, "X"%char)]
                                            (char_at digit_upper i)))
                ltac:(vm_compute; reflexivity) i ltac:(lia)) as Htest.
  cbv beta in Htest.
  destruct (Z.ltb_spec i 10); [lia |].
  destruct (Z.eqb_spec i 33); [lia |].
  simpl in Htest. apply negb_true_iff in Htest. exact Htest.
Qed.

(** X15. The case of the pattern [^[A-Z][0-9]{2}\.[0-9A-Z]{1,4}$], which the
    source calls the format of the diagnosis codes of ICD-10, draws the
    characters after the point among the digits and all the letters;
    [isValidICD10] accepts digits and X only there. Whenever the first
    of these characters is drawn among the letters other than X, the
    code generated is refused by [isValidICD10]. *)
Theorem generated_diagnosis_code_refused (r : Rand) :
  let first := fst (rand_Intn 36 (snd (rand_Intn 4 r))) in
  10 <= first -> first <> 33 ->
  exists s r',
    generateFromPattern "^[A-Z][0-9]{2}\.[0-9A-Z]{1,4}$" r = Ok (s, r') /\
    domain.isValidICD10 s = false.
Proof.
  intros first Hletter HnotX.
  apply generateFromPattern_case_at; [vm_compute; reflexivity |].
  intros gen Hin. table_case Hin.
  (* the length of the suffix *)
  unfold alnum_range. unfold gbind at 1. unfold gbind at 1. unfold Intn at 1.
  change (4 <=? 0) with false. cbv iota.
  pose proof (rand_Intn_range 4 r ltac:(lia)) as Hn.
  destruct (rand_Intn 4 r) as [n r1]. cbn [fst snd] in *.
  (* its first character *)
  unfold pick_many. unfold gbind at 1.
  assert (Hcount : Z.to_nat (1 + n) = S (Z.to_nat n)) by lia.
  rewrite Hcount. cbn [repeatG]. unfold gbind at 1.
  rewrite (pick_ok digit_upper r1 ltac:(unfold strlen; simpl; lia)).
  change (strlen digit_upper) with 36 in *.
  pose proof (rand_Intn_range 36 r1 ltac:(lia)) as Hfirst.
  fold first in Hfirst |- *.
  pose proof (suffix_letter_refused first ltac:(lia) HnotX) as Hrefused.
  set (c0 := char_at digit_upper first) in *.
  (* the rest of the suffix, the letter and the two digits *)
  unfold gbind at 1.
  destruct (yields_repeatG (Z.to_nat n) (pick digit_upper)
              (fun c => in_class digit_or_upper c = true)
              (yields_pick digit_or_upper digit_upper eq_refl
                 ltac:(unfold strlen; simpl; lia))
              (snd (rand_Intn 36 r1))) as (cs & r2 & Hcs & _).
  rewrite Hcs. unfold ret at 1. unfold ret at 1.
  unfold gbind at 1.
  destruct (yields_letter r2) as (l & r3 & Hl & Hupper). rewrite Hl.
  unfold gbind at 1.
  destruct (yields_digit r3) as (d1 & r4 & Hd1 & Hdigit1). rewrite Hd1.
  unfold gbind at 1.
  destruct (yields_digit r4) as (d2 & r5 & Hd2 & Hdigit2). rewrite Hd2.
  unfold ret.
  eexists _, _. split; [reflexivity |].
  (* the match of the pattern of [isValidICD10] *)
  unfold domain.isValidICD10, domain.matched, MatchString.
  let re := eval vm_compute in (compile "^[A-Z][0-9]{2}(\.[0-9X]{1,4})?$") in
  change (compile "^[A-Z][0-9]{2}(\.[0-9X]{1,4})?$") with re.
  cbv iota. unfold matches.
  cbn [string_of_chars]. rewrite ?append_cons, ?append_nil_l.
  unfold upper, digits in *.
  cbn -[in_class]. rewrite Hupper. cbn -[in_class]. rewrite Hdigit1. cbn -[in_class].
  rewrite Hdigit2. cbn -[in_class].
  change (in_class [("."%char, "."%char)] ".") with true. cbn -[in_class].
  rewrite Hrefused. reflexivity.
Qed.

End DiagnosisCodes.

(** From the state 0 of the example generator the suffix begins with
    the letter C. *)
Lemma generated_diagnosis_code_refused_example :
  exists s r',
    @generateFromPattern lcgRand "^[A-Z][0-9]{2}\.[0-9A-Z]{1,4}$" 0 = Ok (s, r') /\
    domain.isValidICD10 s = false.
Proof.
  apply (@generated_diagnosis_code_refused lcgRand 0); vm_compute; discriminate.
Defined.

(** ** The order of dates *)

Section DateOrdering.

Context `{Strconv}.

(** The dates [validateDateOrdering] compares: the string of a field,
    the empty string for a field the record does not hold. *)
Definition dates_of (data : gmap string Value) (fields : list string) : list string :=
  map (fun field => match data !! field with Some (VString s) => s | _ => "" end) fields.

Lemma read_dates_strings (data : gmap string Value) (fields : list string) :
  (forall field v, In field fields -> data !! field = Some v -> exists s, v = VString s) ->
  read_dates data fields = inr (dates_of data fields).
Proof.
  induction fields as [| field fields IH]; intros Hstrings; [reflexivity |].
  simpl. rewrite IH by (intros f v Hf; apply Hstrings; right; exact Hf).
  destruct (data !! field) as [v |] eqn:Hv; [| reflexivity].
  destruct (Hstrings field v (or_introl eq_refl) Hv) as [s ->]. reflexivity.
Qed.

Lemma read_dates_other (data : gmap string Value) (fields : list string) (dates : list string) :
  read_dates data fields = inr dates ->
  forall field v, In field fields -> data !! field = Some v -> exists s, v = VString s.
Proof.
  revert dates. induction fields as [| field fields IH]; intros dates Hread f v Hin Hv;
    [destruct Hin |].
  simpl in Hread.
  destruct (read_dates data fields) as [e | ds] eqn:Hrest.
  - destruct (data !! field) as [[] |]; discriminate.
  - destruct Hin as [<- | Hin]; [| exact (IH ds eq_refl f v Hin Hv)].
    rewrite Hv in Hread. destruct v; try discriminate. eauto.
Qed.

Lemma first_disorder_none (i : nat) (dates : list string) :
  first_disorder i dates = None <->
  forall (k : nat) a b, dates !! k = Some a -> dates !! (S k) = Some b -> string_gt a b = false.
Proof.
  revert i. induction dates as [| a dates IH]; intros i.
  - split; [intros _ k x y Hx; discriminate | reflexivity].
  - destruct dates as [| b dates].
    + split; [intros _ k x y Hx Hy | reflexivity].
      destruct k; discriminate.
    + change (first_disorder i (a :: b :: dates))
        with (if string_gt a b then Some (i, a, b) else first_disorder (S i) (b :: dates)).
      destruct (string_gt a b) eqn:Hab.
      * split; [discriminate |]. intros Hsorted.
        specialize (Hsorted O a b eq_refl eq_refl). congruence.
      * rewrite IH. split.
        -- intros Hsorted k x y Hx Hy. destruct k as [| k].
           ++ simpl in Hx, Hy. congruence.
           ++ exact (Hsorted k x y Hx Hy).
        -- intros Hsorted k x y Hx Hy. exact (Hsorted (S k) x y Hx Hy).
Qed.

(** X23. [validateDateOrdering] reports nothing exactly when the rule names
    two fields or more, every one of them that the record holds is a
    string, and the dates, compared byte by byte as strings, never
    decrease from a field to the next. A field the record does not
    hold counts as the empty string, the least of all: a missing date
    is in order before any date and out of order after any date that is
    not empty. *)
Theorem validateDateOrdering_accepts (data : gmap string Value) (fields : list string) :
  validateDateOrdering data fields = None <->
  2 <= len fields /\
  (forall field v, In field fields -> data !! field = Some v -> exists s, v = VString s) /\
  (forall (k : nat) a b,
     dates_of data fields !! k = Some a -> dates_of data fields !! (S k) = Some b ->
     string_gt a b = false).
Proof.
  unfold validateDateOrdering.
  destruct (Z.ltb_spec (len fields) 2) as [Hfew | Hmany].
  - split; [discriminate | lia].
  - destruct (read_dates data fields) as [e | dates] eqn:Hread.
    + split; [discriminate |]. intros (_ & Hstrings & _).
      rewrite (read_dates_strings data fields Hstrings) in Hread. discriminate.
    + pose proof (read_dates_other data fields dates Hread) as Hstrings.
      rewrite (read_dates_strings data fields Hstrings) in Hread.
      injection Hread as <-.
      destruct (first_disorder 1 (dates_of data fields)) as [[[i a] b] |] eqn:Hfirst.
      * split; [discriminate |]. intros (_ & _ & Hsorted).
        apply (first_disorder_none 1) in Hsorted. congruence.
      * split; [| reflexivity]. intros _.
        split; [lia |]. split; [exact Hstrings |].
        apply (first_disorder_none 1). exact Hfirst.
Qed.

End DateOrdering.

(** A stay with an admission and no discharge: the missing discharge
    counts as the empty string, and the rule is reported as violated. *)
Lemma validateDateOrdering_accepts_example :
  @validateDateOrdering (<["admitted" := VString "2024-03-01"]> ∅) ["admitted"; "discharged"]
  <> None.
Proof.
  intros Haccepted.
  apply validateDateOrdering_accepts in Haccepted as (_ & _ & Hsorted).
  specialize (Hsorted O "2024-03-01" "" eq_refl eq_refl). discriminate.
Defined.

(** ** package schema: the fields marked for the language model

    [collectLLMFields] appends to one slice while it walks the tree;
    the model returns what a call appends, in order. At the root (an
    empty prefix and a node with properties) the properties are
    visited under their own names and the function returns; elsewhere
    the node's own path comes first, then its properties under dotted
    paths, then its items. *)

Section LLMFields.

Context `{GoTime}.

Fixpoint collectLLMFields (rt : Runtime) (node : SchemaNode) {struct node}
    : string -> list string :=
  fun prefix =>
    let visit_properties (visit : string -> bool -> (string -> list string) -> list string) :=
      match Properties node with
      | Some props =>
        let collected := (fun prop => (LLMEnhanced prop, collectLLMFields rt prop)) <$> props in
        flat_map (fun name => match collected !! name with
                              | Some (llm, collect) => visit name llm collect
                              | None => []
                              end)
                 (rangeOrder rt (map fst (map_to_list props)))
      | None => []
      end in
    if String.eqb prefix "" && bool_decide (Properties node <> None) then
      visit_properties (fun name llm collect =>
                          app (if llm then [name] else []) (collect name))
    else
      app (if LLMEnhanced node && negb (String.eqb prefix "") then [prefix] else [])
          (app (visit_properties
                  (fun name _ collect =>
                     collect (if negb (String.eqb prefix "")
                              then prefix ++ "." ++ name
                              else name)))
               (match Items node with
                | Some items => collectLLMFields rt items (prefix ++ "[]")
                | None => []
                end)).

Definition GetLLMFields (rt : Runtime) (node : SchemaNode) : list string :=
  collectLLMFields rt node "".

Lemma collectLLMFields_root (rt : Runtime) (node : SchemaNode) (props : gmap string SchemaNode) :
  Properties node = Some props ->
  collectLLMFields rt node "" =
  flat_map (fun name => match props !! name with
                        | Some prop => app (if LLMEnhanced prop then [name] else [])
                                           (collectLLMFields rt prop name)
                        | None => []
                        end)
           (rangeOrder rt (map fst (map_to_list props))).
Proof.
  intros Hprops. destruct node. simpl in Hprops. subst. cbn.
  apply flat_map_ext. intros name. rewrite lookup_fmap.
  destruct (props !! name); reflexivity.
Qed.

Lemma collectLLMFields_own_path (rt : Runtime) (node : SchemaNode) (prefix : string) :
  prefix <> "" -> LLMEnhanced node = true ->
  exists rest, collectLLMFields rt node prefix = prefix :: rest.
Proof.
  intros Hprefix Hllm. destruct node. simpl in Hllm. subst.
  apply String.eqb_neq in Hprefix.
  cbn. rewrite Hprefix. cbn. eexists. reflexivity.
Qed.

Lemma count_occ_flat_map_ge (f : string -> list string) (l : list string) (k x : string) :
  In k l -> (count_occ string_dec (f k) x <= count_occ string_dec (flat_map f l) x)%nat.
Proof.
  induction l as [| a l IH]; [intros [] |].
  intros [-> | Hin]; simpl; rewrite count_occ_app; [lia |].
  specialize (IH Hin). lia.
Qed.

(** X24. A property of the root that is marked for the language model is
    listed at least twice: once by the loop over the root's properties
    and once more by the call on the property itself, which finds a
    prefix that is not empty. [enrichFields] asks the model once for
    every entry of the list. *)
Theorem GetLLMFields_lists_root_property_twice (rt : Runtime) (node prop : SchemaNode)
    (props : gmap string SchemaNode) (name : string) :
  range_valid (rangeOrder rt) ->
  Properties node = Some props ->
  props !! name = Some prop ->
  LLMEnhanced prop = true ->
  name <> "" ->
  (2 <= count_occ string_dec (GetLLMFields rt node) name)%nat.
Proof.
  intros Hrange Hprops Hname Hllm Hne.
  unfold GetLLMFields. rewrite (collectLLMFields_root rt node props Hprops).
  assert (In name (rangeOrder rt (map fst (map_to_list props)))) as Hin.
  { apply (Permutation_in _ (Permutation_sym (Hrange _))).
    apply in_map_iff. exists (name, prop). split; [reflexivity |].
    apply list_elem_of_In, elem_of_map_to_list. exact Hname. }
  eapply Nat.le_trans; [| apply (count_occ_flat_map_ge _ _ name name Hin)].
  cbv beta. rewrite Hname, Hllm.
  destruct (collectLLMFields_own_path rt prop name Hne Hllm) as [rest ->].
  cbn [app]. rewrite !count_occ_cons_eq by reflexivity. lia.
Qed.

End LLMFields.

(** A schema with one property marked for the language model:
    [{"type": "object", "properties": {"age": {"type": "integer"},
      "bio": {"type": "string", "x-llm": true}}}] *)
Definition profile_schema : gmap string Value :=
  <["type" := VString "object"]>
    (<["properties" :=
         VMap (<["age" := VMap (<["type" := VString "integer"]> ∅)]>
              (<["bio" := VMap (<["type" := VString "string"]>
                               (<["x-llm" := VBool true]> ∅))]> ∅))]> ∅).

Definition profile_root : SchemaNode :=
  @buildNode asciiLower (VMap profile_schema) "" false 0.9.

(** The parser's root node for the schema lists [bio] twice. *)
Lemma GetLLMFields_lists_root_property_twice_example :
  @GetRootNode asciiLower {| raw := Some profile_schema |} = Some profile_root /\
  GetLLMFields Examples.in_order profile_root = ["bio"; "bio"] /\
  (2 <= count_occ string_dec (GetLLMFields Examples.in_order profile_root) "bio")%nat.
Proof.
  split; [reflexivity |].
  split; [vm_compute; reflexivity |].
  apply (@GetLLMFields_lists_root_property_twice secondsClock Examples.in_order profile_root
           (default profile_root (default ∅ (Properties profile_root) !! "bio"))
           (default ∅ (Properties profile_root)) "bio").
  - intros keys. apply Permutation_refl.
  - vm_compute. reflexivity.
  - vm_compute. reflexivity.
  - vm_compute. reflexivity.
  - discriminate.
Defined.

(** ** Generation that does not depend on the runtime

    The generator reads two things that the program does not fix: the
    order of a [range] over the properties of an object, and the wall
    clock, for the formats [date] and [date-time]. A schema tree none
    of whose nodes has one of these formats, and none of whose objects
    has more than one property outside [required], is generated
    without either. *)





Section RuntimeIndependence.

Context `{MathRand} `{GoTime}.





(** *** Strings *)


(** *** Arrays *)



(** *** Objects *)








(** *** The whole tree *)


End RuntimeIndependence.

(** ** Array items and the record index *)

Section ArrayItems.

Context `{MathRand} `{GoTime}.









End ArrayItems.










